(** * go-dom-intro: the scroll-text composition and timing engine

    A shallow embedding of the scroll/text/timing core of [main.go]
    (control-code annotator, tier text rebuilder, font-change index,
    scroll animator, tier activity resolver and speed table), followed by
    the properties established about it.

    Conventions of the embedding.
    - A Go [string] is a byte sequence: it is a Rocq [string] (a list of
      [ascii] bytes); [len] is [String.length], [text[i]] is [String.get]
      and [text[i:i+5]] is [substring i 5 text].
    - Byte offsets and loop indices are [nat]: the callers only ever pass
      offsets [0 <= i], and every counter is bounded by [len(text)], which
      Go keeps far below [2^63]; tier ids, glyph positions and pixel sizes
      are Go [int]s and are [Z].
    - The [for] loops over a string are fixpoints on a fuel argument that is
      instantiated with [len(text)]; each iteration moves the index forward,
      so this fuel is never exhausted (see the [*_tokens] lemmas).
    - [float64] arithmetic is taken through the interface [Float64], with
      two instances: IEEE 754 binary64 (Rocq's primitive floats), which is
      what the program runs on, and exact rationals, the same arithmetic
      without rounding and special values, for statements about all
      offsets and speeds. *)

From Stdlib Require Import ZArith List Bool Ascii String Lia Sorting.Sorted.
From Stdlib Require Import QArith Qround Lqa.
From Stdlib Require Import Floats.PrimFloat Floats.FloatOps Floats.SpecFloat.
Import ListNotations.

Local Open Scope string_scope.
Local Open Scope Z_scope.

(** ** Control-code text annotator *)

(** [parseControlCode(text, i)], lines 365-381. *)
Definition parseControlCode (text : string) (i : nat) : Z * bool :=
  if (String.length text <=? i + 4)%nat then (0, false)
  else
    match String.get i text with
    | None => (0, false) (* not reached: [i < len(text)] holds here *)
    | Some c =>
        if negb (c =? "^")%char then (0, false)
        else
          let tok := substring i 5 text in
          if (tok =? "^Cs0;")%string then (0, true)
          else if (tok =? "^Cs1;")%string then (1, true)
          else if (tok =? "^Cs2;")%string then (2, true)
          else if (tok =? "^Cs3;")%string then (3, true)
          else (0, false)
    end.

(** The loop of [countVisibleChars], lines 385-392. *)
Fixpoint countLoop (fuel : nat) (text : string) (i : nat) (count : Z) : Z :=
  match fuel with
  | O => count
  | S fuel' =>
      if (i <? String.length text)%nat then
        if snd (parseControlCode text i)
        then countLoop fuel' text (i + 5) count
        else countLoop fuel' text (i + 1) (count + 1)
      else count
  end.

Definition countVisibleChars (text : string) : Z :=
  countLoop (String.length text) text 0 0.

(** [tileIndex(char)], lines 396-401; the rune comes from one byte. *)
Definition tileIndex (char : ascii) : Z :=
  let n := Z.of_nat (nat_of_ascii char) in
  if (n <? 32) || (90 <? n) then 0 else n - 32.

(** [getFullText()], lines 403-419. *)
Definition getFullText : string :=
  let spc0 := "                 " in
  let spc1 := "         " in
  let spc2 := "     " in
  let spc3 := "   " in
  let text := "          THE UNION IS PROUD TO PRESENT YOU :" ++ spc0 ++ "^Cs2;INTERNATIONAL KARATE PLUS" ++ spc2 ++ "^Cs0;CRACKED  BY" ++ spc0 ++ "^Cs3;DOM AND CORWIN" ++ spc3 ++ "^Cs1;FROM THE" ++ spc1 ++ "^Cs3;REPLICANTS AND DMA" ++ spc3 in
  let text := text ++ "^Cs1; PRESS F1-F5 AND SEE (IF YOU CAN !!!!) AND LIST..........    A SPECIAL HI TO WILD-XEROX OR RANK-COPPER MY MASTER!!!!!ARF.... HEEEUUUU JUST A LITTLE QUESTION : WHO HAVE" ++ spc1 in
  let text := text ++ "^Cs2;BARBARIAN 2 ????????" ++ spc2 ++ "^Cs1;RRRRHHHHHAAAAAAAAAAA!!!!!! ANYBODY ????? I NEED BLOOD RRRHHAAAA!!!!! NEED HEAD !!!!! OOOUUUIIIINNNN I WEEP .. I CRY...... I RAVE , I'M DELIRIOUS I'M CAUGHT IN THE ACT-HANDED!!!!!!!" ++ spc1 in
  let text := text ++ "^Cs0;OK KO I STOP, I RESET, I BREAK, I DRINK,I FLY, I CR...-CR... HIHIHI FINALLY I SAY :" ++ spc0 ++ "^Cs3;SHEAT" ++ spc3 ++ "    ^Cs2;HEY HAVE-YOU CANAL PLUS??????????    WHAT ???????    I SAY CANAL PLUS    BORDEL !! (IN FRENCH)" in
  let text := text ++ " YOU DON'T HAVE !!!! BUY THIS AND YOU WILL SEE MY MASTER : I NAME : RANK-COOPER ARF ARF HE TURN ONE'S BACK ON THE CAMERA    OOOUUFF!!!HIHI GGGGGGGGGOOOOOOOOODDDDDDDDD" ++ spc2 ++ "^Cs1;IT'S ALL FOR DAY......" ++ spc1 in
  let text := text ++ "^Cs0;REMEMBER YOU BARBARIAN 2 AND CANAL PLUS AND MY MASTER OF COURSE........ HI TO : ALL MEMBERS OF DMA(ESPECIALLY LOCKBUSTER FOR ORIGINAL), DELTA FORCE, TEX, BLADE RUNNERS, CHON-CHON, ALDO, ST-CONNEXION, THE HOBBIT BROTHERS, " in
  let text := text ++ "ABC 85, THE BARBARIANS......." ++ spc0 in
  let text := text ++ "^Cs0;              " in
  text.

(** The loop of [rebuildText], lines 426-439; [sb] is the contents of the
    [strings.Builder]. *)
Fixpoint rebuildLoop (fuel : nat) (text : string) (size : Z)
    (i : nat) (active : bool) (sb : string) : string :=
  match fuel with
  | O => sb
  | S fuel' =>
      if (i <? String.length text)%nat then
        let '(codeSize, ok) := parseControlCode text i in
        if ok then
          rebuildLoop fuel' text size (i + 5) (codeSize =? size)
                      (sb ++ substring i 5 text)
        else
          match String.get i text with
          | None => sb (* not reached: [i < len(text)] *)
          | Some c =>
              rebuildLoop fuel' text size (i + 1) active
                          (sb ++ String (if active then c else " "%char) "")
          end
      else sb
  end.

(** [FontChange], lines 78-81. *)
Record FontChange : Type := mkFontChange { position : Z; newSize : Z }.

(** The loop of [preAnalyzeFontChanges], lines 527-535: the index built so
    far and the running glyph position. *)
Fixpoint analyzeLoop (fuel : nat) (text : string) (i : nat)
    (changes : list FontChange) (glyphPos : Z) : list FontChange * Z :=
  match fuel with
  | O => (changes, glyphPos)
  | S fuel' =>
      if (i <? String.length text)%nat then
        let '(size, ok) := parseControlCode text i in
        if ok then
          analyzeLoop fuel' text (i + 5)
                      (changes ++ [mkFontChange glyphPos size])%list glyphPos
        else analyzeLoop fuel' text (i + 1) changes (glyphPos + 1)
      else (changes, glyphPos)
  end.

(** The lookup loop of [updateActSizeFromScroll], lines 570-577: it walks
    the index in order and stops at the first entry past [glyphPos]. *)
Fixpoint lookupLoop (changes : list FontChange) (glyphPos : Z) (size : Z) : Z :=
  match changes with
  | [] => size
  | change :: rest =>
      if position change <=? glyphPos
      then lookupLoop rest glyphPos (newSize change)
      else size
  end.

(** ** float64 arithmetic *)

(** The operations the program applies to [float64] values. [of_int] is the
    conversion [float64(n)], [floor_int x] is [int(math.Floor(x))] and
    [ceil_int x] is [int(math.Ceil(x))]. *)
Class Float64 (F : Type) : Type := {
  fadd : F -> F -> F;
  fsub : F -> F -> F;
  fmul : F -> F -> F;
  fdiv : F -> F -> F;
  fneg : F -> F;
  flt : F -> F -> bool;
  fle : F -> F -> bool;
  feq : F -> F -> bool;
  of_int : Z -> F;
  floor_int : F -> Z;
  ceil_int : F -> Z
}.

(** Go's [int] is 64 bits wide on the platforms the program targets. *)
Definition min_int64 : Z := - 2 ^ 63.
Definition max_int64 : Z := 2 ^ 63 - 1.
Definition in_int64 (z : Z) : Prop := min_int64 <= z <= max_int64.
Definition wrap64 (z : Z) : Z := (z + 2 ^ 63) mod 2 ^ 64 - 2 ^ 63.

Module IEEE.
(** Binary64 through Rocq's primitive floats. *)

(** [float64(n)]: round to nearest, ties to even. *)
Definition float_of_int (n : Z) : float :=
  SF2Prim (binary_normalize prec emax n 0 false).

(** The integer part of a finite float rounded towards minus infinity
    ([up = false]) or plus infinity ([up = true]). *)
Definition round_int (up : bool) (x : float) : option Z :=
  match Prim2SF x with
  | S754_zero _ => Some 0
  | S754_finite s m e =>
      let v := if s then Z.neg m else Z.pos m in
      Some (if up then - Z.shiftl (- v) e else Z.shiftl v e)
  | S754_infinity _ | S754_nan => None
  end.

(** The conversion [int(x)] of an integral float; outside the range of
    [int], and for NaN and infinities, the Go specification leaves the
    result to the implementation: amd64 yields the least [int]. *)
Definition to_int (r : option Z) : Z :=
  match r with
  | Some z => if (min_int64 <=? z) && (z <=? max_int64) then z else min_int64
  | None => min_int64
  end.

(** The rational number a finite float stands for. *)
Definition to_Q (x : float) : option Q :=
  match Prim2SF x with
  | S754_zero _ => Some (inject_Z 0)
  | S754_finite s m e =>
      let v := if s then Z.neg m else Z.pos m in
      Some (if 0 <=? e then inject_Z (v * 2 ^ e)
            else Qmake v (Pos.pow 2 (Z.to_pos (- e))))
  | S754_infinity _ | S754_nan => None
  end.

#[export] Instance float64 : Float64 float := {|
  fadd := PrimFloat.add;
  fsub := PrimFloat.sub;
  fmul := PrimFloat.mul;
  fdiv := PrimFloat.div;
  fneg := PrimFloat.opp;
  flt := PrimFloat.ltb;
  fle := PrimFloat.leb;
  feq := PrimFloat.eqb;
  of_int := float_of_int;
  floor_int := fun x => to_int (round_int false x);
  ceil_int := fun x => to_int (round_int true x)
|}.
End IEEE.

Module Exact.
(** The same operations on exact rationals: no rounding, no special
    values. Division by zero does not occur behind the guards of the
    program. *)
#[export] Instance rational : Float64 Q := {|
  fadd := Qplus;
  fsub := Qminus;
  fmul := Qmult;
  fdiv := Qdiv;
  fneg := Qopp;
  flt := fun x y => negb (Qle_bool y x);
  fle := Qle_bool;
  feq := Qeq_bool;
  of_int := inject_Z;
  floor_int := Qfloor;
  ceil_int := Qceiling
|}.
End Exact.

(** ** Scroll animator, resolver and speed table *)

Section Engine.
Context {F : Type} {FO : Float64 F}.

(** An [*ebiten.Image] as the core sees it: its bounds and, for a scroll
    canvas, the tiles blitted on it since it was last cleared (tile id
    and horizontal position). *)
Record Image : Type := mkImage {
  Dx : Z;
  Dy : Z;
  blits : list (Z * F)
}.

(** [ScrollText], lines 177-188. *)
Record ScrollText : Type := mkScrollText {
  canvas : Image;
  font : Image;
  text : string;
  speed : F;
  offset : F;
  tileW : Z;
  tileH : Z;
  scaleX : F;
  scaleY : F;
  visibleChars : Z
}.

Definition set_offset (st : ScrollText) (o : F) : ScrollText :=
  mkScrollText (canvas st) (font st) (text st) (speed st) o
               (tileW st) (tileH st) (scaleX st) (scaleY st) (visibleChars st).

Definition set_speed (st : ScrollText) (v : F) : ScrollText :=
  mkScrollText (canvas st) (font st) (text st) v (offset st)
               (tileW st) (tileH st) (scaleX st) (scaleY st) (visibleChars st).

Definition set_canvas (st : ScrollText) (c : Image) : ScrollText :=
  mkScrollText c (font st) (text st) (speed st) (offset st)
               (tileW st) (tileH st) (scaleX st) (scaleY st) (visibleChars st).

(** [newScrollText], lines 350-363; [speed] keeps its zero value. *)
Definition newScrollText (canvas font : Image) (tileW tileH : Z)
    (scaleX scaleY : F) (text : string) : ScrollText :=
  mkScrollText canvas font text (of_int 0) (of_int (Dx canvas))
               tileW tileH scaleX scaleY (countVisibleChars text).

(** The loop of [drawAtOffset], lines 498-521. *)
Fixpoint drawLoop (fuel : nat) (st : ScrollText) (scaledTileW : F)
    (x : F) (i : nat) (drawn : list (Z * F)) : list (Z * F) :=
  match fuel with
  | O => drawn
  | S fuel' =>
      if flt x (of_int (Dx (canvas st))) then
        if (String.length (text st) <=? i)%nat then drawn
        else if snd (parseControlCode (text st) i)
        then drawLoop fuel' st scaledTileW x (i + 5) drawn
        else
          match String.get i (text st) with
          | None => drawn (* not reached: [i < len(text)] *)
          | Some char =>
              let tileId := tileIndex char in
              (* image.Rect orders the corners it is given *)
              let maxX := Z.max 0 (tileW st) in
              let maxY := Z.max (tileId * tileH st) ((tileId + 1) * tileH st) in
              let drawn' :=
                if (maxX <=? Dx (font st)) && (maxY <=? Dy (font st))
                then (drawn ++ [(tileId, x)])%list else drawn in
              drawLoop fuel' st scaledTileW (fadd x scaledTileW) (i + 1) drawn'
          end
      else drawn
  end.

(** [drawAtOffset], lines 492-522. *)
Definition drawAtOffset (st : ScrollText) (offset : F) : ScrollText :=
  let scaledTileW := fmul (of_int (tileW st)) (scaleX st) in
  set_canvas st
    (mkImage (Dx (canvas st)) (Dy (canvas st))
       (drawLoop (String.length (text st)) st scaledTileW offset 0 [])).

(** [ScrollText.draw], lines 469-482. *)
Definition draw (st : ScrollText) : ScrollText :=
  let st := set_offset st (fsub (offset st) (speed st)) in
  if visibleChars st =? 0 then st
  else
    let scaledTileW := fmul (of_int (tileW st)) (scaleX st) in
    let totalWidth := fmul (of_int (visibleChars st)) scaledTileW in
    let st :=
      if flt (of_int 0) totalWidth && fle (offset st) (fneg totalWidth)
      then set_offset st
             (fadd (offset st) (fadd totalWidth (of_int (Dx (canvas st)))))
      else st in
    drawAtOffset st (offset st).

(** [ScrollText.drawAt], lines 484-490. *)
Definition drawAt (st : ScrollText) (offset' : F) : ScrollText :=
  let st := set_offset st offset' in
  if visibleChars st =? 0 then st
  else drawAtOffset st (offset st).

(** The part of [Game] (lines 36-76) that the scroll engine reads and
    writes; the images, the audio player, the star field and the raster
    positions do not take part in it. *)
Record Game : Type := mkGame {
  scrollText1 : ScrollText;
  scrollText2 : ScrollText;
  scrollText3 : ScrollText;
  scrollText4 : ScrollText;
  actSize : Z;
  spinc : F;
  fullText : string;
  fontChanges : list FontChange;
  totalGlyphs : Z
}.

Definition set_scrollTexts (g : Game) (s1 s2 s3 s4 : ScrollText) : Game :=
  mkGame s1 s2 s3 s4 (actSize g) (spinc g) (fullText g)
         (fontChanges g) (totalGlyphs g).

Definition set_actSize (g : Game) (a : Z) : Game :=
  mkGame (scrollText1 g) (scrollText2 g) (scrollText3 g) (scrollText4 g)
         a (spinc g) (fullText g) (fontChanges g) (totalGlyphs g).

Definition set_spinc (g : Game) (s : F) : Game :=
  mkGame (scrollText1 g) (scrollText2 g) (scrollText3 g) (scrollText4 g)
         (actSize g) s (fullText g) (fontChanges g) (totalGlyphs g).

(** [rebuildText], lines 421-442. *)
Definition rebuildText (g : Game) (size : Z) (defaultActive : bool) : string :=
  let text := fullText g in
  rebuildLoop (String.length text) text size 0 defaultActive "".

(** [preAnalyzeFontChanges], lines 524-537. *)
Definition preAnalyzeFontChanges (g : Game) : Game :=
  let '(changes, glyphPos) :=
    analyzeLoop (String.length (fullText g)) (fullText g) 0 [] 0 in
  mkGame (scrollText1 g) (scrollText2 g) (scrollText3 g) (scrollText4 g)
         (actSize g) (spinc g) (fullText g) changes glyphPos.

(** [setSpeed], lines 444-467. *)
Definition setSpeed (g : Game) : Game :=
  let speeds (a b c d : Z) :=
    set_scrollTexts g
      (set_speed (scrollText1 g) (fmul (of_int a) (spinc g)))
      (set_speed (scrollText2 g) (fmul (of_int b) (spinc g)))
      (set_speed (scrollText3 g) (fmul (of_int c) (spinc g)))
      (set_speed (scrollText4 g) (fmul (of_int d) (spinc g))) in
  match actSize g with
  | 0 => speeds 8 16 32 64
  | 1 => speeds 4 8 16 32
  | 2 => speeds 2 4 8 16
  | 3 => speeds 1 2 4 8
  | _ => g
  end.

(** The tier whose geometry the resolver reads, lines 544-552. *)
Definition activeScrollText (g : Game) : ScrollText :=
  match actSize g with
  | 1 => scrollText2 g
  | 2 => scrollText3 g
  | 3 => scrollText4 g
  | _ => scrollText1 g
  end.

(** [updateActSizeFromScroll], lines 539-582. *)
Definition updateActSizeFromScroll (g : Game) : Game :=
  if totalGlyphs g =? 0 then g
  else
    let st := activeScrollText g in
    let tileW := fmul (of_int (tileW st)) (scaleX st) in
    if fle tileW (of_int 0) then g
    else
      let leftGlyph := floor_int (fdiv (fneg (offset st)) tileW) in
      let leftGlyph := if leftGlyph <? 0 then 0 else leftGlyph in
      let visibleGlyphs :=
        wrap64 (ceil_int (fdiv (of_int (Dx (canvas st))) tileW) + 1) in
      let glyphPos := wrap64 (leftGlyph + visibleGlyphs) in
      let glyphPos :=
        if totalGlyphs g <=? glyphPos then totalGlyphs g - 1 else glyphPos in
      let size := lookupLoop (fontChanges g) glyphPos 0 in
      if negb (size =? actSize g) then setSpeed (set_actSize g size)
      else g.

(** The tempo keys of [Update], lines 585-604. *)
Definition pressF1 (g : Game) : Game :=
  let g :=
    if flt (spinc g) (of_int 4) && fle (of_int 1) (spinc g)
    then set_spinc g (fadd (spinc g) (of_int 1))
    else if feq (spinc g) (fdiv (of_int 1) (of_int 2))
    then set_spinc g (of_int 1)
    else if feq (spinc g) (fdiv (of_int 1) (of_int 4))
    then set_spinc g (fdiv (of_int 1) (of_int 2))
    else g in
  setSpeed g.

Definition pressF2 (g : Game) : Game :=
  let g :=
    if flt (of_int 1) (spinc g)
    then set_spinc g (fsub (spinc g) (of_int 1))
    else if feq (spinc g) (fdiv (of_int 1) (of_int 2))
    then set_spinc g (fdiv (of_int 1) (of_int 4))
    else if feq (spinc g) (of_int 1)
    then set_spinc g (fdiv (of_int 1) (of_int 2))
    else g in
  setSpeed g.

(** The scroll block of [Update], lines 629-642: the master tier
    advances, the followers are placed from its offset. *)
Definition followerOffset (baseOffset baseWidth : F) (st : ScrollText) : F :=
  fadd (fmul baseOffset (scaleX st))
       (fmul (fsub (of_int 1) (scaleX st)) baseWidth).

Definition scrollTick (g : Game) : Game :=
  let s1 := draw (scrollText1 g) in
  let baseOffset := offset s1 in
  let baseWidth := of_int (Dx (canvas s1)) in
  set_scrollTexts g s1
    (drawAt (scrollText2 g) (followerOffset baseOffset baseWidth (scrollText2 g)))
    (drawAt (scrollText3 g) (followerOffset baseOffset baseWidth (scrollText3 g)))
    (drawAt (scrollText4 g) (followerOffset baseOffset baseWidth (scrollText4 g))).

(** [Update], lines 584-646, for the key states [f1] and [f2] sampled at
    this tick; the frame counter, the raster positions and the star field
    (lines 606-627), which the scroll engine never reads, are left out. *)
Definition Update (g : Game) (f1 f2 : bool) : Game :=
  let g := if f1 then pressF1 g else g in
  let g := if f2 then pressF2 g else g in
  let g := scrollTick g in
  updateActSizeFromScroll g.

(** [NewGame], lines 190-238, for a given message and font sheet. *)
Definition NewGameWith (message : string) (fontSheet : Image) : Game :=
  let canvas w h := mkImage w h [] in
  (* stands for the tiers not built yet ([nil] until line 220) *)
  let blank := newScrollText (canvas 0 0) fontSheet 0 0 (of_int 0) (of_int 0) "" in
  let g := mkGame blank blank blank blank 0 (of_int 1) message [] 0 in
  let g := preAnalyzeFontChanges g in
  let smallText := rebuildText g 0 true in
  let normalText := rebuildText g 1 false in
  let mediumText := rebuildText g 2 false in
  let bigText := rebuildText g 3 false in
  let g :=
    set_scrollTexts g
      (newScrollText (canvas 640 32) fontSheet 40 32 (of_int 1) (of_int 1) smallText)
      (newScrollText (canvas 640 64) fontSheet 40 32 (of_int 2) (of_int 2) normalText)
      (newScrollText (canvas 640 128) fontSheet 40 32 (of_int 4) (of_int 4) mediumText)
      (newScrollText (canvas 640 384) fontSheet 40 32 (of_int 8) (of_int 12) bigText) in
  setSpeed g.

Definition NewGame (fontSheet : Image) : Game :=
  NewGameWith getFullText fontSheet.

End Engine.

(** ** The annotator's scan of a message

    Every loop of the program walks a string the same way: at a directive
    it moves five bytes on, at any other byte one. [tokens] is that walk,
    once and for all; the loops are then folds over it. *)

Inductive token : Type :=
| TDir (k : Z)       (* a directive token selecting tier [k] *)
| TLit (c : ascii).  (* a visible character *)

(** [text[n:]]. *)
Fixpoint drop (n : nat) (s : string) : string :=
  match n, s with
  | O, _ => s
  | S n', String _ r => drop n' r
  | S _, EmptyString => EmptyString
  end.

(** [skip] bytes of a directive recognised earlier remain to be passed. *)
Fixpoint scan (skip : nat) (s : string) : list token :=
  match s with
  | EmptyString => []
  | String c r =>
      match skip with
      | S k => scan k r
      | O =>
          let '(k, ok) := parseControlCode s 0 in
          if ok then TDir k :: scan 4 r else TLit c :: scan 0 r
      end
  end.

Definition tokens (text : string) : list token := scan 0 text.

(** The five bytes of the directive for tier [k]. *)
Definition directiveToken (k : Z) : string :=
  match k with
  | 0 => "^Cs0;"
  | 1 => "^Cs1;"
  | 2 => "^Cs2;"
  | 3 => "^Cs3;"
  | _ => ""
  end.

Definition validTier (k : Z) : Prop := 0 <= k <= 3.

Definition tokenText (t : token) : string :=
  match t with
  | TDir k => directiveToken k
  | TLit c => String c ""
  end.

Fixpoint untokens (ts : list token) : string :=
  match ts with
  | [] => ""
  | t :: r => tokenText t ++ untokens r
  end.

(** The visible characters, in order: the glyph stream. *)
Fixpoint glyphsOf (ts : list token) : list ascii :=
  match ts with
  | [] => []
  | TDir _ :: r => glyphsOf r
  | TLit c :: r => c :: glyphsOf r
  end.

Definition glyphStream (text : string) : list ascii := glyphsOf (tokens text).

(** One iteration of a loop that stands at byte offset [i]. *)
Inductive scan_view (text : string) (i : nat) : Prop :=
| AtEnd :
    (i <? String.length text)%nat = false ->
    tokens (drop i text) = [] ->
    scan_view text i
| AtDirective (k : Z) :
    (i <? String.length text)%nat = true ->
    parseControlCode text i = (k, true) ->
    validTier k ->
    substring i 5 text = directiveToken k ->
    (i + 5 <= String.length text)%nat ->
    tokens (drop i text) = TDir k :: tokens (drop (i + 5) text) ->
    scan_view text i
| AtLiteral (k : Z) (c : ascii) :
    (i <? String.length text)%nat = true ->
    parseControlCode text i = (k, false) ->
    String.get i text = Some c ->
    tokens (drop i text) = TLit c :: tokens (drop (i + 1) text) ->
    scan_view text i.

Definition glyphCount (ts : list token) : Z := Z.of_nat (List.length (glyphsOf ts)).

(** The rebuilder in the words of its contract: directives are copied and
    set the activity, visible characters are kept while active and
    blanked otherwise. *)
Fixpoint rebuildTokens (size : Z) (active : bool) (ts : list token) : list token :=
  match ts with
  | [] => []
  | TDir k :: r => TDir k :: rebuildTokens size (k =? size) r
  | TLit c :: r =>
      TLit (if active then c else " "%char) :: rebuildTokens size active r
  end.

(** The index in the words of its contract: each directive is recorded
    with the number of glyphs seen so far. *)
Fixpoint indexTokens (glyphPos : Z) (ts : list token) : list FontChange :=
  match ts with
  | [] => []
  | TDir k :: r => mkFontChange glyphPos k :: indexTokens glyphPos r
  | TLit _ :: r => indexTokens (glyphPos + 1) r
  end.

Definition validToken (t : token) : Prop :=
  match t with
  | TDir k => validTier k
  | TLit _ => True
  end.

Fixpoint hasSentinel (s : string) : bool :=
  match s with
  | EmptyString => false
  | String c r => (c =? "^")%char || hasSentinel r
  end.


(** The digit of a tier id, and the tier of the directive seen last. *)
Definition tierDigit (k : Z) : ascii := ascii_of_nat (48 + Z.to_nat k).

Fixpoint lastDirective (ts : list token) : option Z :=
  match ts with
  | [] => None
  | TDir k :: r =>
      match lastDirective r with
      | Some j => Some j
      | None => Some k
      end
  | TLit _ :: r => lastDirective r
  end.

(** Whether tier [size] shows a character that follows the directive [o]
    (no directive yet: the default-active flag decides). *)
Definition selects (size : Z) (defaultActive : bool) (o : option Z) : bool :=
  match o with
  | Some k => k =? size
  | None => defaultActive
  end.

(** *** Messages built from segments *)

Inductive segment : Type :=
| Literal (s : string)
| Directive (k : Z).

Definition segmentText (seg : segment) : string :=
  match seg with
  | Literal s => s
  | Directive k => directiveToken k
  end.

Fixpoint concatSegments (segs : list segment) : string :=
  match segs with
  | [] => ""
  | seg :: r => segmentText seg ++ concatSegments r
  end.

Fixpoint literalLength (segs : list segment) : Z :=
  match segs with
  | [] => 0
  | Literal s :: r => Z.of_nat (String.length s) + literalLength r
  | Directive _ :: r => literalLength r
  end.

(** No directive token stands anywhere in [s]. *)
Definition directiveFree (s : string) : Prop :=
  forall i, snd (parseControlCode s i) = false.

Definition wellFormedSegment (seg : segment) : Prop :=
  match seg with
  | Literal s => directiveFree s
  | Directive k => validTier k
  end.

(** Each run of neighbouring literal segments made one segment. *)
Fixpoint mergeLiterals (segs : list segment) : list segment :=
  match segs with
  | [] => []
  | Directive k :: r => Directive k :: mergeLiterals r
  | Literal s :: r =>
      match mergeLiterals r with
      | Literal t :: r' => Literal (s ++ t) :: r'
      | m => Literal s :: m
      end
  end.

Fixpoint noAdjacentLiterals (segs : list segment) : Prop :=
  match segs with
  | [] => True
  | seg :: r =>
      match seg, r with
      | Literal _, Literal _ :: _ => False
      | _, _ => noAdjacentLiterals r
      end
  end.

(** The annotator round trip as the specification words it. *)
Definition annotatorRoundTrip (segs : list segment) : Prop :=
  Forall wellFormedSegment segs ->
  countVisibleChars (concatSegments segs) = literalLength segs.

(** *** Glyph positions across the four tiers *)

(** The string of tier [k] as [NewGame] builds it: only tier 0 is active
    before the first directive. *)
Definition tierText {F : Type} (g : @Game F) (k : Z) : string :=
  rebuildText g k (k =? 0).

Definition glyphAt (text : string) (p : nat) : option ascii :=
  nth_error (glyphStream text) p.

Definition nonBlankAt (text : string) (p : nat) : bool :=
  match glyphAt text p with
  | Some c => negb (c =? " ")%char
  | None => false
  end.

(** The tier the font-change index gives for glyph position [p]. *)
Definition activeTierAt {F : Type} (g : @Game F) (p : nat) : Z :=
  lookupLoop (fontChanges g) (Z.of_nat p) 0.

(** The index and glyph total of [g] are those of its message. *)
Definition indexBuilt {F : Type} (g : @Game F) : Prop :=
  preAnalyzeFontChanges g = g.

(** The rebuilder partition as the specification words it: at a glyph
    position of the message, the active tier and no other is non-blank. *)
Definition rebuilderPartition {F : Type} (g : @Game F) (p : nat) : Prop :=
  indexBuilt g ->
  (p < List.length (glyphStream (fullText g)))%nat ->
  forall k, validTier k ->
    nonBlankAt (tierText g k) p = (k =? activeTierAt g p).

(** *** The scroll position as a function of the tick *)

(** The master offset after one [draw], as a function of the fields
    [draw] reads. *)
Definition advanceOffset {F : Type} {FO : Float64 F}
    (speed : F) (visibleChars tileW : Z) (scaleX : F) (canvasW : Z) (o : F) : F :=
  let o := fsub o speed in
  if visibleChars =? 0 then o
  else
    let totalWidth := fmul (of_int visibleChars) (fmul (of_int tileW) scaleX) in
    if flt (of_int 0) totalWidth && fle o (fneg totalWidth)
    then fadd o (fadd totalWidth (of_int canvasW))
    else o.

(** [visibleChars * tileW * scaleX], the width [draw] wraps at. *)
Definition totalWidth {F : Type} {FO : Float64 F} (st : @ScrollText F) : F :=
  fmul (of_int (visibleChars st)) (fmul (of_int (tileW st)) (scaleX st)).


(** *** The resolver in the words of the specification *)





(** The tempo values: what [spinc] can hold, starting from 1 and moving
    with the two keys. *)
Inductive tempo {F : Type} {FO : Float64 F} : F -> Prop :=
| tempo_start : tempo (of_int 1)
| tempo_faster (g : @Game F) : tempo (spinc g) -> tempo (spinc (pressF1 g))
| tempo_slower (g : @Game F) : tempo (spinc g) -> tempo (spinc (pressF2 g)).

(** A font sheet of 59 tiles of 40 by 32 pixels. *)
Definition fontSheet {F : Type} : @Image F := mkImage 40 1888 [].



(** The tier of the wraparound scenario: ten glyphs of 40 pixels on a
    canvas 640 wide, moving 8 pixels a tick. *)
Definition tenGlyphTier {F : Type} {FO : Float64 F} : @ScrollText F :=
  set_speed
    (newScrollText (mkImage 640 32 []) fontSheet 40 32 (of_int 1) (of_int 1)
                   "ABCDEFGHIJ")
    (of_int 8).

(** The index entries stand in the order of their glyph positions. *)
Definition indexSorted (changes : list FontChange) : Prop :=
  StronglySorted (fun a b => position a <= position b) changes.

(** The four speeds of [g] are the row [a], [b], [c], [d] times the
    multiplier. *)
Definition speedsAre {F : Type} {FO : Float64 F} (g : @Game F) (a b c d : Z) : Prop :=
  speed (scrollText1 g) = fmul (of_int a) (spinc g) /\
  speed (scrollText2 g) = fmul (of_int b) (spinc g) /\
  speed (scrollText3 g) = fmul (of_int c) (spinc g) /\
  speed (scrollText4 g) = fmul (of_int d) (spinc g).



(** A message with a blank inside the span of tier 1 (glyph 3). *)
Definition blankInSpan : string := "AB^Cs1;C D^Cs0;EF".

Definition blankInSpanGame {F : Type} {FO : Float64 F} : @Game F :=
  NewGameWith blankInSpan fontSheet.

(** ** Further operations and states *)

(** The assignment [g.fullText = ...] of [NewGame], line 211. *)
Definition set_fullText {F : Type} (g : @Game F) (t : string) : @Game F :=
  mkGame (scrollText1 g) (scrollText2 g) (scrollText3 g) (scrollText4 g)
         (actSize g) (spinc g) t (fontChanges g) (totalGlyphs g).

(** [n] blanks. *)
Fixpoint blanks (n : nat) : string :=
  match n with
  | O => ""
  | S n' => String " " (blanks n')
  end.

(** An index entry moved [shift] glyphs to the right. *)
Definition shiftChange (shift : Z) (e : FontChange) : FontChange :=
  mkFontChange (shift + position e) (newSize e).

(** The game after one [Update] per entry of [keys], each entry the
    states of the keys F1 and F2 at that tick. *)
Definition run {F : Type} {FO : Float64 F}
    (g : @Game F) (keys : list (bool * bool)) : @Game F :=
  fold_left (fun g k => Update g (fst k) (snd k)) keys g.

(** The font sheet holds a whole tile for each of the 59 tile ids. *)
Definition fontFits {F : Type} (st : @ScrollText F) : Prop :=
  0 <= tileW st <= Dx (font st) /\
  0 <= tileH st /\
  59 * tileH st <= Dy (font st).

(** What [drawAtOffset] blits for a scanned text, from the running
    position [x] on. *)
Fixpoint renderTokens {F : Type} {FO : Float64 F}
    (st : @ScrollText F) (scaledTileW x : F) (ts : list token) : list (Z * F) :=
  match ts with
  | [] => []
  | TDir _ :: r =>
      if flt x (of_int (Dx (canvas st)))
      then renderTokens st scaledTileW x r else []
  | TLit char :: r =>
      if flt x (of_int (Dx (canvas st))) then
        let tileId := tileIndex char in
        let maxX := Z.max 0 (tileW st) in
        let maxY := Z.max (tileId * tileH st) ((tileId + 1) * tileH st) in
        ((if (maxX <=? Dx (font st)) && (maxY <=? Dy (font st))
          then [(tileId, x)] else [])
         ++ renderTokens st scaledTileW (fadd x scaledTileW) r)%list
      else []
  end.

(** Two [ScrollText]s that differ at most in offset, speed and what is
    drawn on the canvas. *)
Definition sameTrack {F : Type} (a b : @ScrollText F) : Prop :=
  text a = text b /\ font a = font b /\
  tileW a = tileW b /\ tileH a = tileH b /\
  scaleX a = scaleX b /\ scaleY a = scaleY b /\
  visibleChars a = visibleChars b /\
  Dx (canvas a) = Dx (canvas b) /\ Dy (canvas a) = Dy (canvas b).

(** The first entry of the speed-table row of a tier. *)
Definition baseSpeed (tier : Z) : Z := 2 ^ (3 - tier).

(** The four tiers of [h] are on the tracks of the four tiers of [g]. *)
Definition sameTracks {F : Type} (h g : @Game F) : Prop :=
  sameTrack (scrollText1 h) (scrollText1 g) /\
  sameTrack (scrollText2 h) (scrollText2 g) /\
  sameTrack (scrollText3 h) (scrollText3 g) /\
  sameTrack (scrollText4 h) (scrollText4 g).

(** The speeds of [g] are the speed-table row of its active tier. *)
Definition speedsFollowTable {F : Type} {FO : Float64 F} (g : @Game F) : Prop :=
  validTier (actSize g) /\
  speedsAre g (baseSpeed (actSize g)) (2 * baseSpeed (actSize g))
              (4 * baseSpeed (actSize g)) (8 * baseSpeed (actSize g)).




(** *** The raster positions

    The fields [vbl], [posY] and [posY2] of [Game] (lines 64-67), which
    [Update] moves on its own (lines 606-617) and [Draw] reads. *)
Record Raster (F : Type) : Type := mkRaster {
  vbl : Z;
  posY : F;
  posY2 : F
}.
Arguments mkRaster {F} _ _ _.
Arguments vbl {F} _.
Arguments posY {F} _.
Arguments posY2 {F} _.

(** Their values in [NewGame], lines 193-206. *)
Definition newRaster {F : Type} {FO : Float64 F} : Raster F :=
  mkRaster 0 (of_int 0) (of_int 200).

(** Lines 606-617 of [Update]; [%] is Go's truncated remainder. *)
Definition rasterTick {F : Type} {FO : Float64 F} (r : Raster F) : Raster F :=
  let vbl := wrap64 (vbl r + 1) in
  if Z.rem vbl 2 =? 0 then
    let posY := fadd (posY r) (of_int 4) in
    let posY := if fle (of_int 654) posY then of_int 0 else posY in
    let posY2 := fsub (posY2 r) (of_int 2) in
    let posY2 := if fle posY2 (of_int 0) then of_int 200 else posY2 in
    mkRaster vbl posY posY2
  else mkRaster vbl (posY r) (posY2 r).

(** *** Blitting parts of an image *)

(** [image.Rect(x0, y0, x1, y1)]: the corners are put in order. *)
Record Rectangle : Type := mkRectangle {
  minX : Z; minY : Z; maxX : Z; maxY : Z
}.

Definition imageRect (x0 y0 x1 y1 : Z) : Rectangle :=
  mkRectangle (Z.min x0 x1) (Z.min y0 y1) (Z.max x0 x1) (Z.max y0 y1).

(** One [DrawImage] of [drawPart]: the source rectangle taken and the
    destination pixel its corner is translated to. *)
Record Blit : Type := mkBlit { part : Rectangle; atX : Z; atY : Z }.

(** The values of [j] in [for j := 0; j < n; j++]. *)
Definition upTo (n : Z) : list Z := map Z.of_nat (seq 0 (Z.to_nat n)).

(** [drawPart], lines 730-745, as the blits it adds to [dest]; images
    are never [nil] here, [loadImage] and [NewGame] always supply one. *)
Definition drawPart {F : Type} (src : @Image F)
    (dx dy sx sy sw sh param8 param9 tileX tileY : Z) : list Blit :=
  flat_map
    (fun jy =>
       flat_map
         (fun jx =>
            let subRect := imageRect sx sy (wrap64 (sx + sw)) (wrap64 (sy + sh)) in
            if (maxX subRect <=? Dx src) && (maxY subRect <=? Dy src)
            then [mkBlit subRect (wrap64 (dx + wrap64 (jx * sw)))
                                 (wrap64 (dy + wrap64 (jy * sh)))]
            else [])
         (upTo tileX))
    (upTo tileY).

(** The pixel [(x, y)] of the destination lies under the blit. *)
Definition covers (b : Blit) (x y : Z) : Prop :=
  atX b <= x < atX b + (maxX (part b) - minX (part b)) /\
  atY b <= y < atY b + (maxY (part b) - minY (part b)).

(** The conversion [int(x)] of a float: towards zero. *)
Definition trunc_int {F : Type} {FO : Float64 F} (x : F) : Z :=
  if flt x (of_int 0) then ceil_int x else floor_int x.

(** The three copies of the scroll raster on the merge canvas, lines
    663-667 of [Draw]. *)
Definition drawScrollRast {F : Type} {FO : Float64 F}
    (scrollRast : @Image F) (r : Raster F) : list Blit :=
  (drawPart scrollRast 0 (wrap64 (trunc_int (posY2 r) - 200)) 0 0 2 200 1 0 320 1
   ++ drawPart scrollRast 0 (trunc_int (posY2 r)) 0 0 2 200 1 0 320 1
   ++ drawPart scrollRast 0 (wrap64 (trunc_int (posY2 r) + 200)) 0 0 2 200 1 0 320 1)%list.

(** The rows of the active tier on the off-screen canvas, lines 673-696
    of [Draw]; the scroll canvases are those of the four tiers. *)
Definition drawScrollRows {F : Type} (g : @Game F) : list Blit :=
  match actSize g with
  | 0 =>
      flat_map
        (fun j => drawPart (canvas (scrollText1 g)) 0 (2 + j * 36) 0 0 640 32 1 0 1 1)
        (upTo 11)
  | 1 =>
      flat_map
        (fun j => drawPart (canvas (scrollText2 g)) 0 (2 + j * 66) 0 0 640 64 1 0 1 1)
        (upTo 6)
  | 2 =>
      (drawPart (canvas (scrollText3 g)) 0 0 0 0 640 128 1 0 1 1
       ++ drawPart (canvas (scrollText3 g)) 0 134 0 0 640 128 1 0 1 1
       ++ drawPart (canvas (scrollText3 g)) 0 268 0 0 640 128 1 0 1 1)%list
  | 3 => drawPart (canvas (scrollText4 g)) 0 4 0 0 640 384 1 0 1 1
  | _ => []
  end.

(** Coordinates small enough for the arithmetic of [drawPart] to stay
    within [int]. *)
Definition smallInt (z : Z) : Prop := - 2 ^ 30 <= z <= 2 ^ 30.

(** The eleven bars of the background raster on the screen, lines
    653-658 of [Draw]. *)
Definition drawBackRast {F : Type} {FO : Float64 F}
    (backRast : @Image F) (r : Raster F) : list Blit :=
  flat_map
    (fun j =>
       let sy := wrap64 (trunc_int (posY r) + j * 4) in
       drawPart backRast 0 (60 + 2 + j * 36) 0 sy 1 36 1 0 768 1)
    (upTo 11).

(** The number of rows and the row height of each tier in
    [drawScrollRows]. *)
Definition rowCount (tier : Z) : Z :=
  match tier with 0 => 11 | 1 => 6 | 2 => 3 | _ => 1 end.

Definition rowHeight (tier : Z) : Z :=
  match tier with 0 => 32 | 1 => 64 | 2 => 128 | _ => 384 end.

(** ** The music player

    [YMPlayer] wraps the YM decoder of the [stsound] library, which is
    not part of the program: the decoder is a state of some type
    [Decoder] and its method [Compute(buffer, nbSample)] an arbitrary
    function that fills the slice it is given and reports success. *)

Module YM.

(** Go's [int16(z)] of an integer, and the bytes [byte(s)] and
    [byte(s >> 8)] of a sample. *)
Definition wrap16 (z : Z) : Z := (z + 2 ^ 15) mod 2 ^ 16 - 2 ^ 15.
Definition lowByte (s : Z) : Z := s mod 256.
Definition highByte (s : Z) : Z := Z.shiftr s 8 mod 256.

(** A call returns, panics, or is still looping when the fuel of the
    model is spent. *)
Inductive Outcome (A : Type) : Type :=
| Done (a : A)
| Panic
| OutOfFuel.
Arguments Done {A} a.
Arguments Panic {A}.
Arguments OutOfFuel {A}.

(** [l[i] = v]; an index out of range panics ([None]). *)
Fixpoint store {A : Type} (l : list A) (i : nat) (v : A) : option (list A) :=
  match l, i with
  | [], _ => None
  | _ :: r, O => Some (v :: r)
  | x :: r, S i' => option_map (cons x) (store r i' v)
  end.

(** [for i := from; i < len(l); i++ { l[i] = 0 }]. *)
Fixpoint zeroFrom (from : nat) (l : list Z) : list Z :=
  match l with
  | [] => []
  | x :: r =>
      match from with
      | O => 0 :: zeroFrom O r
      | S from' => x :: zeroFrom from' r
      end
  end.

(** [copy(dst, src)]: as many elements as both slices hold. *)
Definition copy (dst src : list Z) : list Z :=
  (firstn (List.length dst) src ++ skipn (List.length src) dst)%list.

(** Every sample twice: the left and the right channel in [outBuffer]. *)
Definition pairs (samples : list Z) : list Z :=
  flat_map (fun s => [s; s]) samples.

Section Player.
Context {F : Type} {FO : Float64 F}.
Variable Decoder : Type.
Variable Compute : Decoder -> list Z -> Z -> Decoder * list Z * bool.

(** The fields of [YMPlayer] (lines 84-93) that [Read] uses. *)
Record YMPlayer : Type := mkYMPlayer {
  player : Decoder;
  buffer : list Z;     (* []int16 *)
  position : Z;        (* int64 *)
  loop : bool;
  volume : F
}.

(** [NewYMPlayer], lines 95-116, once the decoder has loaded the tune. *)
Definition NewYMPlayer (decoder : Decoder) (loop : bool) : YMPlayer :=
  mkYMPlayer decoder (repeat 0 4096) 0 loop (fdiv (of_int 1) (of_int 2)).

(** [int16(float64(s) * y.volume)], line 143; a product outside [int16]
    is cut to its low 16 bits, as on amd64. *)
Definition scaled (y : YMPlayer) (s : Z) : Z :=
  wrap16 (trunc_int (fmul (of_int s) (volume y))).

(** The inner loop of [Read], lines 142-146, over the samples
    [y.buffer[0 .. chunkSize)]; [at_] is [processed + i]. *)
Fixpoint writeSamples (y : YMPlayer) (outBuffer : list Z) (at_ : nat)
    (samples : list Z) : Outcome (list Z) :=
  match samples with
  | [] => Done outBuffer
  | s :: rest =>
      let sample := scaled y s in
      match store outBuffer (at_ * 2) sample with
      | None => Panic
      | Some outBuffer =>
          match store outBuffer (at_ * 2 + 1) sample with
          | None => Panic
          | Some outBuffer => writeSamples y outBuffer (S at_) rest
          end
      end
  end.

(** The outer loop of [Read], lines 125-150; the flag of the result
    tells that [err] is [io.EOF]. *)
Fixpoint readLoop (fuel : nat) (y : YMPlayer) (samplesNeeded processed : nat)
    (outBuffer : list Z) : Outcome (YMPlayer * list Z * bool) :=
  if (processed <? samplesNeeded)%nat then
    match fuel with
    | O => OutOfFuel
    | S fuel' =>
        let chunkSize := (samplesNeeded - processed)%nat in
        let chunkSize :=
          if (List.length (buffer y) <? chunkSize)%nat
          then List.length (buffer y) else chunkSize in
        let '(decoder, filled, ok) :=
          Compute (player y) (firstn chunkSize (buffer y)) (Z.of_nat chunkSize) in
        let y := mkYMPlayer decoder (filled ++ skipn chunkSize (buffer y))%list
                            (position y) (loop y) (volume y) in
        if negb ok && negb (loop y) then
          Done (y, zeroFrom (processed * 2) outBuffer, true)
        else
          match writeSamples y outBuffer processed (firstn chunkSize (buffer y)) with
          | Done outBuffer =>
              let y := mkYMPlayer (player y) (buffer y)
                                  (wrap64 (position y + Z.of_nat chunkSize))
                                  (loop y) (volume y) in
              readLoop fuel' y samplesNeeded (processed + chunkSize) outBuffer
          | Panic => Panic
          | OutOfFuel => OutOfFuel
          end
    end
  else Done (y, outBuffer, false).

(** [Read], lines 118-164: the player after the call, the slice [p]
    after it, [n], and whether [err] is [io.EOF]. *)
Definition Read (y : YMPlayer) (p : list Z) : Outcome (YMPlayer * list Z * Z * bool) :=
  let samplesNeeded := (List.length p / 4)%nat in
  let outBuffer := repeat 0 (samplesNeeded * 2) in
  match readLoop samplesNeeded y samplesNeeded 0 outBuffer with
  | Done (y, outBuffer, eof) =>
      let buf := flat_map (fun sample => [lowByte sample; highByte sample]) outBuffer in
      let p' := copy p buf in
      let n := List.length buf in
      let n := if (List.length p <? n)%nat then List.length p else n in
      Done (y, p', Z.of_nat n, eof)
  | Panic => Panic
  | OutOfFuel => OutOfFuel
  end.

(** *** What [Read] delivers, chunk by chunk

    The samples the decoder hands over until [remaining] are there or,
    without looping, a call fails; with them the player afterwards and
    whether the tune has ended. *)
Fixpoint decode (fuel : nat) (y : YMPlayer) (remaining : nat)
    : list Z * YMPlayer * bool :=
  match remaining, fuel with
  | O, _ | _, O => ([], y, false)
  | _, S fuel' =>
      let chunkSize := Nat.min remaining (List.length (buffer y)) in
      let '(decoder, filled, ok) :=
        Compute (player y) (firstn chunkSize (buffer y)) (Z.of_nat chunkSize) in
      let y := mkYMPlayer decoder (filled ++ skipn chunkSize (buffer y))%list
                          (position y) (loop y) (volume y) in
      if negb ok && negb (loop y) then ([], y, true)
      else
        let y' := mkYMPlayer (player y) (buffer y)
                             (wrap64 (position y + Z.of_nat chunkSize))
                             (loop y) (volume y) in
        let '(more, y'', eof) := decode fuel' y' (remaining - chunkSize) in
        ((map (scaled y) (firstn chunkSize (buffer y)) ++ more)%list, y'', eof)
  end.

(** A sample as the four bytes of a stereo frame: left and right
    channel, low byte first. *)
Definition frame (s : Z) : list Z := [lowByte s; highByte s; lowByte s; highByte s].

(** The player keeps its buffer length, loop mode and volume. *)
Definition keeps (y' y : YMPlayer) : Prop :=
  List.length (buffer y') = List.length (buffer y) /\
  loop y' = loop y /\ volume y' = volume y.

(** [Compute] fills the slice it is given: it cannot change its
    length. *)
Definition fillsSlice : Prop :=
  forall d b n, List.length (snd (fst (Compute d b n))) = List.length b.

End Player.

(** Two decoders for the examples. The first counts its calls, fills
    the slice with the sample 1000 and reports failure from its third
    call on; the second has no tune left. *)
Definition toneDecoder (calls : nat) (b : list Z) (n : Z) : nat * list Z * bool :=
  (S calls, map (fun _ => 1000) b, (calls <? 2)%nat).

Definition silentDecoder (calls : nat) (b : list Z) (n : Z) : nat * list Z * bool :=
  (S calls, b, false).

(** [n] integers from [from] on, and the samples of [int16], for checks
    by enumeration. *)
Fixpoint countUp (n : nat) (from : Z) : list Z :=
  match n with
  | O => []
  | S n' => from :: countUp n' (from + 1)
  end.

Definition allInt16 : list Z := countUp (Z.to_nat 65536) (- 32768).

End YM.
(** *** Strings *)

Lemma length_append (s t : string) :
  String.length (s ++ t) = (String.length s + String.length t)%nat.
Proof. induction s as [|c s IH]; simpl; congruence. Qed.

Lemma append_nil_r (s : string) : s ++ "" = s.
Proof. induction s as [|c s IH]; simpl; congruence. Qed.

Lemma append_assoc (s t u : string) : (s ++ t) ++ u = s ++ (t ++ u).
Proof. induction s as [|c s IH]; simpl; congruence. Qed.

Lemma drop_nil (n : nat) : drop n "" = "".
Proof. destruct n; reflexivity. Qed.

Lemma length_drop (n : nat) (s : string) :
  String.length (drop n s) = (String.length s - n)%nat.
Proof.
  revert s; induction n as [|n IH]; intros s.
  - simpl. lia.
  - destruct s as [|c s]; simpl; [reflexivity|apply IH].
Qed.

Lemma drop_all (n : nat) (s : string) :
  (String.length s <= n)%nat -> drop n s = "".
Proof.
  revert s; induction n as [|n IH]; intros [|c s] H; simpl in *;
    try reflexivity; try lia.
  apply IH; lia.
Qed.

Lemma drop_drop (n m : nat) (s : string) : drop n (drop m s) = drop (m + n) s.
Proof.
  revert s; induction m as [|m IH]; intros s; simpl.
  - reflexivity.
  - destruct s as [|c s]; [apply drop_nil|apply IH].
Qed.

Lemma get_drop (i : nat) (s : string) : String.get i s = String.get 0 (drop i s).
Proof.
  revert s; induction i as [|i IH]; intros [|c s]; simpl; try reflexivity.
  apply IH.
Qed.

Lemma substring_drop (i m : nat) (s : string) :
  substring i m s = substring 0 m (drop i s).
Proof.
  revert s; induction i as [|i IH]; intros [|c s]; simpl; try reflexivity.
  - destruct m; reflexivity.
  - apply IH.
Qed.

Lemma drop_cons (i : nat) (s : string) :
  (i < String.length s)%nat ->
  exists c, String.get i s = Some c /\ drop i s = String c (drop (S i) s).
Proof.
  revert s; induction i as [|i IH]; intros [|c s] H; simpl in *; try lia.
  - exists c; split; reflexivity.
  - apply IH; lia.
Qed.

Lemma substring_append_drop (n : nat) (s : string) :
  substring 0 n s ++ drop n s = s.
Proof.
  revert s; induction n as [|n IH]; intros [|c s]; simpl; try reflexivity.
  now rewrite IH.
Qed.

Lemma drop_append_length (s t : string) : drop (String.length s) (s ++ t) = t.
Proof. induction s as [|c s IH]; simpl; [reflexivity|exact IH]. Qed.

(** *** What the annotator recognises *)

Lemma parseControlCode_drop (text : string) (i : nat) :
  parseControlCode text i = parseControlCode (drop i text) 0.
Proof.
  unfold parseControlCode.
  rewrite (get_drop i text), (substring_drop i 5 text), length_drop.
  replace (String.length text - i <=? 0 + 4)%nat
    with (String.length text <=? i + 4)%nat; [reflexivity|].
  destruct (Nat.leb_spec (String.length text) (i + 4));
    destruct (Nat.leb_spec (String.length text - i) (0 + 4)); (reflexivity || lia).
Qed.

Lemma parseControlCode_token (k : Z) (rest : string) :
  validTier k -> parseControlCode (directiveToken k ++ rest) 0 = (k, true).
Proof.
  intros [H0 H3].
  assert (k = 0 \/ k = 1 \/ k = 2 \/ k = 3) as [->|[->|[->| ->]]] by lia;
    destruct rest; reflexivity.
Qed.

Lemma parseControlCode_true (s : string) (k : Z) :
  parseControlCode s 0 = (k, true) ->
  validTier k /\ s = directiveToken k ++ drop 5 s.
Proof.
  unfold parseControlCode, validTier.
  destruct (String.length s <=? 0 + 4)%nat; [discriminate|].
  destruct (String.get 0 s) as [c|]; [|discriminate].
  destruct (negb (c =? "^")%char); [discriminate|].
  pose proof (substring_append_drop 5 s) as E.
  repeat match goal with
  | |- context [String.eqb ?a ?b] =>
      destruct (String.eqb_spec a b) as [Et|_]
  end; intros H; inversion H; subst; try (rewrite Et in E; split; [lia|now symmetry]).
Qed.

Lemma parseControlCode_false_nil (i : nat) : parseControlCode "" i = (0, false).
Proof. reflexivity. Qed.

(** *** Unfolding the scan *)

Lemma scan_drop (n : nat) (s : string) : scan n s = scan 0 (drop n s).
Proof.
  revert n; induction s as [|c s IH]; intros [|n]; try reflexivity.
  simpl scan at 1. simpl drop. apply IH.
Qed.

Lemma tokens_nil : tokens "" = [].
Proof. reflexivity. Qed.

Lemma tokens_dir (s : string) (k : Z) :
  parseControlCode s 0 = (k, true) -> tokens s = TDir k :: tokens (drop 5 s).
Proof.
  intros H. destruct s as [|c r]; [discriminate H|].
  unfold tokens. simpl scan. cbv zeta. rewrite H.
  rewrite (scan_drop 4 r). reflexivity.
Qed.

Lemma tokens_lit (c : ascii) (r : string) :
  snd (parseControlCode (String c r) 0) = false ->
  tokens (String c r) = TLit c :: tokens r.
Proof.
  intros H. unfold tokens. simpl scan.
  destruct (parseControlCode (String c r) 0) as [k ok]. simpl in H. now subst.
Qed.

Lemma untokens_tokens (s : string) : untokens (tokens s) = s.
Proof.
  remember (String.length s) as n eqn:Hn.
  revert s Hn. induction n as [n IH] using lt_wf_ind. intros s Hn.
  destruct s as [|c r]; [reflexivity|].
  destruct (parseControlCode (String c r) 0) as [k ok] eqn:P.
  destruct ok.
  - rewrite (tokens_dir _ _ P). simpl.
    destruct (parseControlCode_true _ _ P) as [_ E].
    rewrite (IH (String.length (drop 5 (String c r)))); [now symmetry| |reflexivity].
    rewrite length_drop. simpl in *. lia.
  - rewrite tokens_lit by now rewrite P. simpl.
    rewrite (IH (String.length r)); [reflexivity| |reflexivity].
    simpl in Hn. lia.
Qed.

Lemma scan_view_at (text : string) (i : nat) : scan_view text i.
Proof.
  destruct (Nat.ltb_spec i (String.length text)) as [Hlt|Hge].
  - destruct (drop_cons i text Hlt) as [c [Hget Hdrop]].
    destruct (parseControlCode text i) as [k ok] eqn:P.
    pose proof P as P0. rewrite parseControlCode_drop in P0.
    destruct ok.
    + destruct (parseControlCode_true _ _ P0) as [Hk E].
      assert (L : (i + 5 <= String.length text)%nat).
      { unfold parseControlCode in P.
        destruct (Nat.leb_spec (String.length text) (i + 4)); [discriminate|lia]. }
      apply (AtDirective text i k); auto.
      * apply Nat.ltb_lt; assumption.
      * rewrite substring_drop.
        remember (drop 5 (drop i text)) as r eqn:Hr. rewrite E.
        destruct Hk as [H0 H3].
        assert (k = 0 \/ k = 1 \/ k = 2 \/ k = 3) as [->|[->|[->| ->]]] by lia;
          destruct r; reflexivity.
      * rewrite (tokens_dir _ _ P0), drop_drop. reflexivity.
    + apply (AtLiteral text i k c); auto.
      * apply Nat.ltb_lt; assumption.
      * rewrite Hdrop in P0 |- *. rewrite tokens_lit by now rewrite P0.
        now replace (i + 1)%nat with (S i) by lia.
  - apply AtEnd.
    + apply Nat.ltb_ge; assumption.
    + rewrite drop_all by assumption. reflexivity.
Qed.

(** *** The loops as folds over the scan *)

Lemma glyphCount_lit (c : ascii) (ts : list token) :
  glyphCount (TLit c :: ts) = 1 + glyphCount ts.
Proof. unfold glyphCount. simpl List.length. lia. Qed.

Lemma glyphCount_dir (k : Z) (ts : list token) :
  glyphCount (TDir k :: ts) = glyphCount ts.
Proof. reflexivity. Qed.

Lemma glyphCount_nonneg (ts : list token) : 0 <= glyphCount ts.
Proof. unfold glyphCount. lia. Qed.

Lemma countLoop_tokens (fuel : nat) (text : string) (i : nat) (count : Z) :
  (String.length text - i <= fuel)%nat ->
  countLoop fuel text i count = count + glyphCount (tokens (drop i text)).
Proof.
  revert i count; induction fuel as [|fuel IH]; intros i count Hf.
  - rewrite drop_all by lia. simpl. unfold glyphCount. simpl. lia.
  - simpl. destruct (scan_view_at text i) as [Hi Ht|k Hi P _ _ Hl Ht|k c Hi P _ Ht];
      rewrite Hi, ?P, Ht; cbn [snd].
    + unfold glyphCount. simpl. lia.
    + rewrite IH by lia. reflexivity.
    + rewrite IH by (apply Nat.ltb_lt in Hi; lia).
      rewrite glyphCount_lit. lia.
Qed.

Lemma rebuildLoop_tokens (fuel : nat) (text : string) (size : Z) (i : nat)
    (active : bool) (sb : string) :
  (String.length text - i <= fuel)%nat ->
  rebuildLoop fuel text size i active sb
  = sb ++ untokens (rebuildTokens size active (tokens (drop i text))).
Proof.
  revert i active sb; induction fuel as [|fuel IH]; intros i active sb Hf.
  - rewrite drop_all by lia. simpl. now rewrite append_nil_r.
  - simpl.
    destruct (scan_view_at text i) as [Hi Ht|k Hi P _ Hs Hl Ht|k c Hi P Hg Ht];
      rewrite Hi, ?P, Ht.
    + simpl. now rewrite append_nil_r.
    + rewrite IH by lia. rewrite Hs. simpl. now rewrite append_assoc.
    + rewrite Hg. rewrite IH by (apply Nat.ltb_lt in Hi; lia).
      simpl. now rewrite append_assoc.
Qed.

Lemma analyzeLoop_tokens (fuel : nat) (text : string) (i : nat)
    (changes : list FontChange) (glyphPos : Z) :
  (String.length text - i <= fuel)%nat ->
  analyzeLoop fuel text i changes glyphPos
  = ((changes ++ indexTokens glyphPos (tokens (drop i text)))%list,
     glyphPos + glyphCount (tokens (drop i text))).
Proof.
  revert i changes glyphPos; induction fuel as [|fuel IH];
    intros i changes glyphPos Hf.
  - rewrite drop_all by lia. simpl. rewrite app_nil_r.
    unfold glyphCount; simpl. f_equal; lia.
  - simpl.
    destruct (scan_view_at text i) as [Hi Ht|k Hi P _ Hs Hl Ht|k c Hi P Hg Ht];
      rewrite Hi, ?P, Ht.
    + simpl. rewrite app_nil_r. unfold glyphCount; simpl. f_equal; lia.
    + rewrite IH by lia. simpl. rewrite <- app_assoc. reflexivity.
    + rewrite IH by (apply Nat.ltb_lt in Hi; lia).
      simpl indexTokens. rewrite glyphCount_lit. f_equal; lia.
Qed.

Lemma countVisibleChars_tokens (text : string) :
  countVisibleChars text = glyphCount (tokens text).
Proof.
  unfold countVisibleChars. rewrite countLoop_tokens by lia. simpl. lia.
Qed.

(** *** Re-scanning a rebuilt message *)

Lemma tokens_valid (s : string) : Forall validToken (tokens s).
Proof.
  remember (String.length s) as n eqn:Hn.
  revert s Hn. induction n as [n IH] using lt_wf_ind. intros s Hn.
  destruct s as [|c r]; [constructor|].
  destruct (parseControlCode (String c r) 0) as [k ok] eqn:P.
  destruct ok.
  - rewrite (tokens_dir _ _ P).
    destruct (parseControlCode_true _ _ P) as [Hk _].
    constructor; [exact Hk|].
    apply (IH (String.length (drop 5 (String c r)))); [|reflexivity].
    rewrite length_drop. simpl in *. lia.
  - rewrite tokens_lit by now rewrite P.
    constructor; [exact I|].
    apply (IH (String.length r)); [|reflexivity].
    simpl in Hn. lia.
Qed.

Lemma directiveToken_length (k : Z) :
  validTier k -> String.length (directiveToken k) = 5%nat.
Proof.
  intros [H0 H3].
  assert (k = 0 \/ k = 1 \/ k = 2 \/ k = 3) as [->|[->|[->| ->]]] by lia;
    reflexivity.
Qed.

Lemma tokens_directive (k : Z) (rest : string) :
  validTier k -> tokens (directiveToken k ++ rest) = TDir k :: tokens rest.
Proof.
  intros Hk. rewrite (tokens_dir _ k) by now apply parseControlCode_token.
  rewrite <- (directiveToken_length k Hk), drop_append_length. reflexivity.
Qed.

(** While a tier is active its rebuilt text agrees with the message up to
    the next sentinel. *)
Lemma rebuild_prefix (size : Z) (n : nat) (ts : list token) :
  Forall validToken ts ->
  hasSentinel (substring 0 n (untokens (rebuildTokens size true ts))) = false ->
  substring 0 n (untokens (rebuildTokens size true ts))
  = substring 0 n (untokens ts).
Proof.
  revert ts; induction n as [|n IH]; intros ts Hv Hs.
  - destruct (untokens _), (untokens ts); reflexivity.
  - destruct ts as [|[k|c] r]; [reflexivity| |].
    + exfalso. inversion Hv as [|? ? Hk _]; subst. destruct Hk as [H0 H3].
      assert (k = 0 \/ k = 1 \/ k = 2 \/ k = 3) as [->|[->|[->| ->]]] by lia;
        simpl in Hs; discriminate.
    + inversion Hv; subst. simpl in Hs |- *.
      apply orb_false_iff in Hs as [_ Hs].
      f_equal. now apply IH.
Qed.

(** A visible character that starts no directive in the message starts
    none in the rebuilt text either. *)
Lemma parse_literal_rebuilt (size : Z) (c : ascii) (ts : list token) :
  Forall validToken ts ->
  snd (parseControlCode (String c (untokens ts)) 0) = false ->
  snd (parseControlCode (String c (untokens (rebuildTokens size true ts))) 0)
  = false.
Proof.
  intros Hv Hm.
  destruct (parseControlCode (String c (untokens (rebuildTokens size true ts))) 0)
    as [k ok] eqn:P.
  destruct ok; [exfalso|reflexivity].
  destruct (parseControlCode_true _ _ P) as [[H0 H3] E].
  set (X' := untokens (rebuildTokens size true ts)) in *.
  assert (Hp : exists d, (d = "0" \/ d = "1" \/ d = "2" \/ d = "3")%char /\
                 c = "^"%char /\ directiveToken k = String "^" (String "C" (String "s" (String d ";"))) /\
                 substring 0 4 X' = String "C" (String "s" (String d ";"))).
  { simpl drop in E.
    assert (k = 0 \/ k = 1 \/ k = 2 \/ k = 3) as [->|[->|[->| ->]]] by lia;
      simpl in E; injection E as Ec EX; rewrite EX;
      [exists "0"%char|exists "1"%char|exists "2"%char|exists "3"%char];
      (repeat split; auto; destruct (match X' with String _ (String _ (String _ (String _ r3))) => r3 | _ => "" end); reflexivity). }
  destruct Hp as [d [Hd [Hc [Htok Hsub]]]].
  assert (Hs : hasSentinel (substring 0 4 X') = false).
  { rewrite Hsub. destruct Hd as [->|[->|[->| ->]]]; reflexivity. }
  unfold X' in Hs, Hsub. rewrite (rebuild_prefix size 4 ts Hv Hs) in Hsub.
  pose proof (substring_append_drop 4 (untokens ts)) as EX.
  rewrite Hsub in EX.
  assert (Em : String c (untokens ts) = directiveToken k ++ drop 4 (untokens ts)).
  { rewrite Htok, Hc. simpl. simpl in EX. now rewrite EX. }
  rewrite Em, parseControlCode_token in Hm by (split; assumption).
  discriminate.
Qed.

Lemma parse_not_sentinel (c : ascii) (r : string) :
  (c =? "^")%char = false -> snd (parseControlCode (String c r) 0) = false.
Proof.
  intros Hc. unfold parseControlCode.
  change (String.get 0 (String c r)) with (Some c). cbv iota beta. rewrite Hc.
  destruct (_ <=? _)%nat; reflexivity.
Qed.

Lemma tokens_lit_inv (c : ascii) (r : string) (ts : list token) :
  tokens (String c r) = TLit c :: ts ->
  snd (parseControlCode (String c r) 0) = false /\ tokens r = ts.
Proof.
  intros H. destruct (parseControlCode (String c r) 0) as [k ok] eqn:P.
  destruct ok.
  - rewrite (tokens_dir _ _ P) in H. discriminate.
  - rewrite tokens_lit in H by now rewrite P. injection H as H. now split.
Qed.

(** The rebuilt text is scanned token for token like the message. *)
Lemma tokens_rebuilt (size : Z) (ts : list token) (active : bool) :
  Forall validToken ts ->
  tokens (untokens ts) = ts ->
  tokens (untokens (rebuildTokens size active ts))
  = rebuildTokens size active ts.
Proof.
  intros Hv. revert active. induction Hv as [|t r Ht Hr IH]; intros active W.
  - reflexivity.
  - destruct t as [k|c]; simpl in *.
    + rewrite tokens_directive in W |- * by assumption.
      injection W as W. now rewrite IH.
    + apply tokens_lit_inv in W as [Hp W].
      rewrite tokens_lit.
      * now rewrite IH.
      * destruct active; [now apply parse_literal_rebuilt|].
        now apply parse_not_sentinel.
Qed.

Lemma length_untokens_rebuilt (size : Z) (active : bool) (ts : list token) :
  String.length (untokens (rebuildTokens size active ts))
  = String.length (untokens ts).
Proof.
  revert active; induction ts as [|[k|c] r IH]; intros active; simpl.
  - reflexivity.
  - rewrite !length_append. now rewrite IH.
  - now rewrite IH.
Qed.

Lemma glyphCount_rebuilt (size : Z) (active : bool) (ts : list token) :
  glyphCount (rebuildTokens size active ts) = glyphCount ts.
Proof.
  revert active; induction ts as [|[k|c] r IH]; intros active.
  - reflexivity.
  - simpl rebuildTokens. now rewrite !glyphCount_dir.
  - simpl rebuildTokens. now rewrite !glyphCount_lit, IH.
Qed.

(** ** Properties of the annotator and the rebuilder *)

Lemma length_substring_0 (n : nat) (s : string) :
  (n <= String.length s)%nat -> String.length (substring 0 n s) = n.
Proof.
  revert s; induction n as [|n IH]; intros [|c s] H; simpl in *;
    try reflexivity; try lia.
  rewrite IH by lia. reflexivity.
Qed.

Lemma get_append_length (a b : string) :
  String.get (String.length a) (a ++ b) = String.get 0 b.
Proof. induction a as [|c a IH]; simpl; [reflexivity|exact IH]. Qed.

Lemma substring_append_length (a b : string) (n : nat) :
  substring (String.length a) n (a ++ b) = substring 0 n b.
Proof. induction a as [|c a IH]; simpl; [reflexivity|exact IH]. Qed.

Lemma substring_directiveToken (k : Z) (rest : string) :
  validTier k -> substring 0 5 (directiveToken k ++ rest) = directiveToken k.
Proof.
  intros [H0 H3].
  assert (k = 0 \/ k = 1 \/ k = 2 \/ k = 3) as [->|[->|[->| ->]]] by lia;
    destruct rest; reflexivity.
Qed.

Lemma directiveToken_shape (k : Z) :
  validTier k -> directiveToken k = "^Cs" ++ String (tierDigit k) ";".
Proof.
  intros [H0 H3].
  assert (k = 0 \/ k = 1 \/ k = 2 \/ k = 3) as [->|[->|[->| ->]]] by lia;
    reflexivity.
Qed.

Lemma untokens_app (xs ys : list token) :
  untokens (xs ++ ys) = untokens xs ++ untokens ys.
Proof.
  induction xs as [|t xs IH]; simpl; [reflexivity|].
  now rewrite IH, append_assoc.
Qed.

Lemma rebuildTokens_app (size : Z) (active : bool) (xs ys : list token) :
  rebuildTokens size active (xs ++ ys)
  = (rebuildTokens size active xs
     ++ rebuildTokens size (selects size active (lastDirective xs)) ys)%list.
Proof.
  revert active; induction xs as [|[k|c] xs IH]; intros active; simpl.
  - reflexivity.
  - rewrite IH. do 2 f_equal. now destruct (lastDirective xs).
  - now rewrite IH.
Qed.

Lemma parseControlCode_at (text : string) (i : nat) (k : Z) :
  parseControlCode text i = (k, true) <->
  validTier k /\
  exists pre post, text = pre ++ directiveToken k ++ post /\ String.length pre = i.
Proof.
  split.
  - intros P. pose proof P as P0. rewrite parseControlCode_drop in P0.
    destruct (parseControlCode_true _ _ P0) as [Hk E]. split; [exact Hk|].
    exists (substring 0 i text), (drop 5 (drop i text)). split.
    + rewrite <- E. symmetry. apply substring_append_drop.
    + apply length_substring_0. unfold parseControlCode in P.
      destruct (Nat.leb_spec (String.length text) (i + 4)); [discriminate|lia].
  - intros [Hk [pre [post [-> <-]]]].
    rewrite parseControlCode_drop, drop_append_length.
    now apply parseControlCode_token.
Qed.

Lemma parseControlCode_default (text : string) (i : nat) (k : Z) :
  parseControlCode text i = (k, false) -> k = 0.
Proof.
  unfold parseControlCode.
  destruct (_ <=? _)%nat; [congruence|].
  destruct (String.get i text) as [c|]; [|congruence].
  destruct (negb _); [congruence|].
  repeat match goal with
  | |- context [String.eqb ?a ?b] => destruct (String.eqb a b)
  end; congruence.
Qed.

Section TextProperties.
Context {F : Type} {FO : Float64 F}.

Lemma rebuildText_tokens (g : @Game F) (size : Z) (d : bool) :
  rebuildText g size d
  = untokens (rebuildTokens size d (tokens (fullText g))).
Proof.
  unfold rebuildText. rewrite rebuildLoop_tokens by lia. reflexivity.
Qed.

Lemma tokens_rebuildText (g : @Game F) (size : Z) (d : bool) :
  tokens (rebuildText g size d)
  = rebuildTokens size d (tokens (fullText g)).
Proof.
  rewrite rebuildText_tokens. apply tokens_rebuilt.
  - apply tokens_valid.
  - now rewrite untokens_tokens.
Qed.

(** C9. [parseControlCode(text, i)] answers [(k, true)] exactly when the
    five bytes sentinel, tag [Cs], digit of a tier [k] in 0..3 and
    terminator stand complete at byte offset [i]; in every other case it
    answers [(0, false)], and each of its callers then takes the byte at
    [i] as one ordinary character and moves on by one. *)
Theorem parseControlCode_recognises (text : string) (i : nat) :
  (forall k,
     parseControlCode text i = (k, true) <->
     validTier k /\
     exists pre post,
       text = pre ++ "^Cs" ++ String (tierDigit k) ";" ++ post /\
       String.length pre = i) /\
  (snd (parseControlCode text i) = false ->
   parseControlCode text i = (0, false)) /\
  (snd (parseControlCode text i) = false ->
   (i < String.length text)%nat ->
   exists c,
     String.get i text = Some c /\
     tokens (drop i text) = TLit c :: tokens (drop (i + 1) text) /\
     (forall fuel count,
        countLoop (S fuel) text i count
        = countLoop fuel text (i + 1) (count + 1)) /\
     (forall fuel size active sb,
        rebuildLoop (S fuel) text size i active sb
        = rebuildLoop fuel text size (i + 1) active
            (sb ++ String (if active then c else " "%char) "")) /\
     (forall fuel changes glyphPos,
        analyzeLoop (S fuel) text i changes glyphPos
        = analyzeLoop fuel text (i + 1) changes (glyphPos + 1))).
Proof.
  split; [|split].
  - intros k. rewrite parseControlCode_at. split.
    + intros [Hk [pre [post [E L]]]]. split; [exact Hk|].
      exists pre, post. split; [|exact L].
      rewrite E, (directiveToken_shape k Hk). now rewrite !append_assoc.
    + intros [Hk [pre [post [E L]]]]. split; [exact Hk|].
      exists pre, post. split; [|exact L].
      rewrite E, (directiveToken_shape k Hk). now rewrite !append_assoc.
  - destruct (parseControlCode text i) as [k ok] eqn:P. simpl. intros ->.
    now rewrite (parseControlCode_default _ _ _ P).
  - intros Hp Hi.
    destruct (scan_view_at text i) as [Hn _|k _ P _ _ _ _|k c Hlt P Hg Ht].
    + apply Nat.ltb_ge in Hn. lia.
    + rewrite P in Hp. discriminate.
    + exists c. repeat split; try assumption; intros; simpl;
        rewrite Hlt, P, ?Hg; reflexivity.
Qed.

Lemma parseControlCode_recognises_witness :
  parseControlCode "AB^Cs1;CD" 2 = (1, true) /\
  parseControlCode "AB^Cs1" 2 = (0, false) /\
  parseControlCode "AB^Cx1;CD" 2 = (0, false).
Proof.
  split; [|split; reflexivity].
  apply (proj1 (parseControlCode_recognises "AB^Cs1;CD" 2)).
  split; [unfold validTier; lia|].
  exists "AB", "CD". split; reflexivity.
Defined.

Lemma length_rebuildText (g : @Game F) (size : Z) (d : bool) :
  String.length (rebuildText g size d) = String.length (fullText g).
Proof.
  rewrite rebuildText_tokens, length_untokens_rebuilt.
  now rewrite untokens_tokens.
Qed.

(** C7. For every tier id and default-active flag the rebuilt string is
    as long as the master message; at each byte offset where the scan of
    the message meets a directive the same five bytes stand in the rebuilt
    string, and where it meets a visible character the rebuilt string has
    that character when the directive seen last selected the tier (the
    default-active flag before any directive) and a blank otherwise. For
    ["AB^Cs1;CD^Cs0;EF"] tier 0 (default active) gives
    ["AB^Cs1;  ^Cs0;EF"] and tier 1 gives ["  ^Cs1;CD^Cs0;  "]. *)
Theorem rebuildText_contract (g : @Game F) (size : Z) (defaultActive : bool) :
  String.length (rebuildText g size defaultActive)
  = String.length (fullText g) /\
  (forall before after,
     tokens (fullText g) = (before ++ after)%list ->
     let i := String.length (untokens before) in
     match after with
     | [] => i = String.length (fullText g)
     | TDir k :: _ =>
         parseControlCode (fullText g) i = (k, true) /\
         substring i 5 (rebuildText g size defaultActive)
         = substring i 5 (fullText g)
     | TLit c :: _ =>
         String.get i (fullText g) = Some c /\
         String.get i (rebuildText g size defaultActive)
         = Some (if selects size defaultActive (lastDirective before)
                 then c else " "%char)
     end) /\
  (fullText g = "AB^Cs1;CD^Cs0;EF" ->
   rebuildText g 0 true = "AB^Cs1;  ^Cs0;EF" /\
   rebuildText g 1 false = "  ^Cs1;CD^Cs0;  ").
Proof.
  split; [apply length_rebuildText|split].
  - intros before after E i.
    pose proof (untokens_tokens (fullText g)) as M.
    pose proof (rebuildText_tokens g size defaultActive) as R.
    pose proof (tokens_valid (fullText g)) as V.
    rewrite E in M, R, V. rewrite untokens_app in M.
    rewrite rebuildTokens_app, untokens_app in R.
    assert (L : String.length (untokens (rebuildTokens size defaultActive before)) = i)
      by apply length_untokens_rebuilt.
    apply Forall_app in V as [_ V].
    destruct after as [|[k|c] rest].
    + rewrite <- M. simpl. rewrite append_nil_r. reflexivity.
    + inversion V as [|? ? Hk _]; subst. simpl in Hk.
      assert (P : parseControlCode (fullText g) i = (k, true)).
      { apply parseControlCode_at. split; [exact Hk|].
        exists (untokens before), (untokens rest). split; [|reflexivity].
        now rewrite <- M. }
      split; [exact P|].
      rewrite R, <- M. unfold i at 2. rewrite <- L at 1.
      rewrite !substring_append_length. simpl untokens.
      now rewrite !substring_directiveToken.
    + rewrite R, <- M. unfold i at 1. rewrite get_append_length.
      split; [reflexivity|].
      rewrite <- L. rewrite get_append_length. reflexivity.
  - intros E. unfold rebuildText. rewrite E. split; reflexivity.
Qed.

End TextProperties.

(** ** Messages built from segments *)

Lemma directiveFree_tail (c : ascii) (s : string) :
  directiveFree (String c s) -> directiveFree s.
Proof.
  intros H i. specialize (H (S i)).
  rewrite parseControlCode_drop in H. simpl drop in H.
  now rewrite parseControlCode_drop.
Qed.

Lemma directiveFree_not_token (k : Z) (rest : string) :
  validTier k -> ~ directiveFree (directiveToken k ++ rest).
Proof.
  intros Hk H. specialize (H 0%nat).
  rewrite parseControlCode_token in H by assumption. discriminate.
Qed.

(** A literal that ends the message, or that a sentinel follows, is
    scanned as ordinary characters up to its last byte. *)
Lemma parse_literal_boundary (c : ascii) (s rest : string) :
  directiveFree (String c s) ->
  rest = "" \/ (exists r, rest = String "^" r) ->
  snd (parseControlCode (String c (s ++ rest)) 0) = false.
Proof.
  intros Hfree Hrest.
  destruct (parseControlCode (String c (s ++ rest)) 0) as [k ok] eqn:P.
  destruct ok; [exfalso|reflexivity].
  destruct (parseControlCode_true _ _ P) as [Hk E].
  remember (drop 5 (String c (s ++ rest))) as tail eqn:Ht. clear Ht P.
  pose proof (directiveFree_not_token k) as Hnot.
  destruct Hk as [H0 H3].
  assert (Hv : validTier k) by (split; assumption).
  destruct s as [|a [|b [|c0 [|d s']]]];
    [| | | |
     apply (Hnot s' Hv);
     assert (k = 0 \/ k = 1 \/ k = 2 \/ k = 3) as [->|[->|[->| ->]]] by lia;
     simpl in E |- *; injection E as -> -> -> -> -> _; exact Hfree];
    (assert (k = 0 \/ k = 1 \/ k = 2 \/ k = 3) as [->|[->|[->| ->]]] by lia;
     simpl in E; destruct Hrest as [->|[r ->]]; simpl in E; discriminate E).
Qed.

Lemma glyphCount_literal (s rest : string) :
  directiveFree s ->
  rest = "" \/ (exists r, rest = String "^" r) ->
  glyphCount (tokens (s ++ rest))
  = Z.of_nat (String.length s) + glyphCount (tokens rest).
Proof.
  intros Hfree Hrest. induction s as [|c s IH].
  - simpl. lia.
  - change (String c s ++ rest) with (String c (s ++ rest)).
    rewrite tokens_lit by now apply parse_literal_boundary.
    rewrite glyphCount_lit, IH by now apply directiveFree_tail with c.
    simpl String.length. lia.
Qed.

Lemma glyphCount_alternating (segs : list segment) :
  noAdjacentLiterals segs ->
  Forall wellFormedSegment segs ->
  glyphCount (tokens (concatSegments segs)) = literalLength segs.
Proof.
  induction segs as [|seg r IH]; intros Ha Hw.
  - reflexivity.
  - inversion Hw as [|? ? Hseg Hr]; subst.
    destruct seg as [s|k]; simpl in *.
    + rewrite glyphCount_literal.
      * rewrite IH; [reflexivity| |assumption].
        destruct r as [|[t|j] r']; [exact I|contradiction|exact Ha].
      * exact Hseg.
      * destruct r as [|[t|j] r']; [now left|contradiction|right].
        inversion Hr as [|? ? Hj _]; subst. destruct Hj as [H0 H3]. simpl.
        assert (j = 0 \/ j = 1 \/ j = 2 \/ j = 3) as [->|[->|[->| ->]]] by lia;
          simpl; eexists; reflexivity.
    + rewrite tokens_directive, glyphCount_dir by assumption.
      now apply IH.
Qed.

Lemma mergeLiterals_alternating (segs : list segment) :
  noAdjacentLiterals (mergeLiterals segs).
Proof.
  induction segs as [|[s|k] r IH]; simpl; [exact I| |exact IH].
  destruct (mergeLiterals r) as [|[t|j] m]; simpl in *; try exact I.
  - destruct m as [|[u|j] m']; [exact I|contradiction|exact IH].
  - exact IH.
Qed.

Lemma concatSegments_merge (segs : list segment) :
  concatSegments (mergeLiterals segs) = concatSegments segs.
Proof.
  induction segs as [|[s|k] r IH]; simpl; [reflexivity| |now rewrite IH].
  rewrite <- IH.
  destruct (mergeLiterals r) as [|[t|j] m]; simpl; [reflexivity| |reflexivity].
  now rewrite append_assoc.
Qed.

Lemma literalLength_merge (segs : list segment) :
  literalLength (mergeLiterals segs) = literalLength segs.
Proof.
  induction segs as [|[s|k] r IH]; simpl; [reflexivity| |exact IH].
  rewrite <- IH.
  destruct (mergeLiterals r) as [|[t|j] m]; simpl; try reflexivity.
  rewrite length_append. lia.
Qed.

Lemma directiveFree_short (s : string) :
  (String.length s <= 4)%nat -> directiveFree s.
Proof.
  intros H i. unfold parseControlCode.
  destruct (Nat.leb_spec (String.length s) (i + 4)); [reflexivity|lia].
Qed.

(** C8, as stated: two literal segments, each free of directives, that
    make a directive token together. *)
Lemma annotatorRoundTrip_counterexample :
  ~ annotatorRoundTrip [Literal "^C"; Literal "s1;"].
Proof.
  unfold annotatorRoundTrip. intros H.
  assert (W : Forall wellFormedSegment [Literal "^C"; Literal "s1;"]).
  { repeat constructor; apply directiveFree_short; simpl; lia. }
  specialize (H W). vm_compute in H. discriminate H.
Qed.

(** C8, amended. For a string built by concatenating literal segments
    and valid directive tokens, where every run of neighbouring literal
    segments is free of directive tokens as a whole, [countVisibleChars]
    is the total length of the literal segments. *)
Theorem countVisibleChars_segments (segs : list segment) :
  Forall wellFormedSegment (mergeLiterals segs) ->
  countVisibleChars (concatSegments segs) = literalLength segs.
Proof.
  intros Hw.
  rewrite countVisibleChars_tokens, <- concatSegments_merge,
    <- literalLength_merge.
  apply glyphCount_alternating; [apply mergeLiterals_alternating|exact Hw].
Qed.

Lemma countVisibleChars_segments_witness :
  countVisibleChars
    (concatSegments
       [Literal "AB"; Directive 1; Literal "C"; Literal "D"; Directive 0;
        Literal "EF"]) = 6.
Proof.
  apply (countVisibleChars_segments
           [Literal "AB"; Directive 1; Literal "C"; Literal "D"; Directive 0;
            Literal "EF"]).
  simpl. repeat constructor; try (apply directiveFree_short; simpl; lia);
    unfold validTier; lia.
Defined.

(** ** The rebuilder partition *)

Lemma indexTokens_lower (glyphPos : Z) (ts : list token) :
  Forall (fun e => glyphPos <= position e) (indexTokens glyphPos ts).
Proof.
  revert glyphPos; induction ts as [|[k|c] r IH]; intros glyphPos; simpl.
  - constructor.
  - constructor; [simpl; lia|apply IH].
  - eapply Forall_impl; [|apply (IH (glyphPos + 1))].
    simpl. intros e He. lia.
Qed.

Lemma indexTokens_valid (glyphPos : Z) (ts : list token) :
  Forall validToken ts ->
  Forall (fun e => validTier (newSize e)) (indexTokens glyphPos ts).
Proof.
  intros Hv. revert glyphPos.
  induction Hv as [|[k|c] r Ht Hr IH]; intros glyphPos; simpl.
  - constructor.
  - constructor; [exact Ht|apply IH].
  - apply IH.
Qed.

Lemma lookupLoop_before (changes : list FontChange) (p size : Z) :
  Forall (fun e => p < position e) changes -> lookupLoop changes p size = size.
Proof.
  intros [|e r He _]; simpl; [reflexivity|].
  destruct (Z.leb_spec (position e) p); [lia|reflexivity].
Qed.

Lemma lookupLoop_valid (changes : list FontChange) (p size : Z) :
  Forall (fun e => validTier (newSize e)) changes ->
  validTier size -> validTier (lookupLoop changes p size).
Proof.
  intros Hv. revert size. induction Hv as [|e r He Hr IH]; intros size Hs; simpl.
  - exact Hs.
  - destruct (position e <=? p); [now apply IH|exact Hs].
Qed.

(** The glyph of a rebuilt tier against the index lookup, from any point
    of the scan: [glyphPos] glyphs are behind, [cur] is the tier of the
    directive seen last. *)
Lemma glyph_rebuilt_lookup (size : Z) (ts : list token) :
  forall (glyphPos cur : Z) (p : nat) (c : ascii),
    nth_error (glyphsOf ts) p = Some c ->
    nth_error (glyphsOf (rebuildTokens size (cur =? size) ts)) p
    = Some (if lookupLoop (indexTokens glyphPos ts) (glyphPos + Z.of_nat p) cur
               =? size
            then c else " "%char).
Proof.
  induction ts as [|[k|c0] r IH]; intros glyphPos cur p c Hp.
  - destruct p; discriminate Hp.
  - simpl in *. destruct (Z.leb_spec glyphPos (glyphPos + Z.of_nat p)); [|lia].
    now apply IH.
  - destruct p as [|p]; simpl in *.
    + injection Hp as ->.
      rewrite lookupLoop_before; [reflexivity|].
      eapply Forall_impl; [|apply indexTokens_lower]. simpl. intros e He. lia.
    + rewrite (IH (glyphPos + 1) cur p c Hp).
      now replace (glyphPos + 1 + Z.of_nat p) with (glyphPos + Z.pos (Pos.of_succ_nat p)) by lia.
Qed.

Section Partition.
Context {F : Type} {FO : Float64 F}.

Lemma preAnalyzeFontChanges_tokens (g : @Game F) :
  preAnalyzeFontChanges g
  = mkGame (scrollText1 g) (scrollText2 g) (scrollText3 g) (scrollText4 g)
           (actSize g) (spinc g) (fullText g)
           (indexTokens 0 (tokens (fullText g)))
           (glyphCount (tokens (fullText g))).
Proof.
  unfold preAnalyzeFontChanges. rewrite analyzeLoop_tokens by lia. reflexivity.
Qed.

Lemma fontChanges_indexBuilt (g : @Game F) :
  indexBuilt g ->
  fontChanges g = indexTokens 0 (tokens (fullText g)) /\
  totalGlyphs g = glyphCount (tokens (fullText g)).
Proof.
  unfold indexBuilt. rewrite preAnalyzeFontChanges_tokens. intros H.
  rewrite <- H at 1 3. split; reflexivity.
Qed.

Lemma indexBuilt_preAnalyze (g : @Game F) : indexBuilt (preAnalyzeFontChanges g).
Proof.
  unfold indexBuilt. rewrite !preAnalyzeFontChanges_tokens. reflexivity.
Qed.

(** C2, amended. At a glyph position of the master message that holds
    the character [c], the tier the font-change index gives for the
    position (one of the four; tier 0, the one built default-active, when
    the position precedes every entry) has [c] at that glyph position of
    its rebuilt string and every other tier has a blank; so when [c] is
    not a blank exactly that tier is non-blank. *)
Theorem rebuildText_partition (g : @Game F) (p : nat) (c : ascii) :
  indexBuilt g ->
  glyphAt (fullText g) p = Some c ->
  (forall k,
     glyphAt (tierText g k) p
     = Some (if k =? activeTierAt g p then c else " "%char)) /\
  validTier (activeTierAt g p) /\
  ((forall e, In e (fontChanges g) -> Z.of_nat p < position e) ->
   activeTierAt g p = 0) /\
  (c <> " "%char ->
   forall k, nonBlankAt (tierText g k) p = (k =? activeTierAt g p)).
Proof.
  intros Hb Hc.
  destruct (fontChanges_indexBuilt g Hb) as [Hidx _].
  assert (A : forall k,
             glyphAt (tierText g k) p
             = Some (if k =? activeTierAt g p then c else " "%char)).
  { intros k. unfold glyphAt, glyphStream, tierText, activeTierAt.
    rewrite tokens_rebuildText, Hidx, (Z.eqb_sym k 0).
    rewrite (glyph_rebuilt_lookup k _ 0 0 p c Hc).
    now rewrite (Z.eqb_sym k). }
  split; [exact A|split; [|split]].
  - unfold activeTierAt. rewrite Hidx. apply lookupLoop_valid.
    + apply indexTokens_valid, tokens_valid.
    + unfold validTier; lia.
  - intros Hall. unfold activeTierAt. apply lookupLoop_before.
    apply Forall_forall. exact Hall.
  - intros Hne k. unfold nonBlankAt. rewrite A.
    destruct (k =? activeTierAt g p); [|reflexivity].
    destruct (Ascii.eqb_spec c " "); [contradiction|reflexivity].
Qed.

End Partition.

(** ** The scroll animator *)

Section Animator.
Context {F : Type} {FO : Float64 F}.

Lemma offset_drawAtOffset (st : @ScrollText F) (o : F) :
  offset (drawAtOffset st o) = offset st.
Proof. reflexivity. Qed.

Lemma offset_draw (st : @ScrollText F) :
  offset (draw st)
  = advanceOffset (speed st) (visibleChars st) (tileW st) (scaleX st)
                  (Dx (canvas st)) (offset st).
Proof.
  unfold draw, advanceOffset. simpl.
  destruct (visibleChars st =? 0); [reflexivity|].
  destruct (flt _ _ && fle _ _); reflexivity.
Qed.

(** [draw] and [drawAt] leave speed and geometry as they are. *)
Lemma draw_keeps (st : @ScrollText F) :
  speed (draw st) = speed st /\
  visibleChars (draw st) = visibleChars st /\
  tileW (draw st) = tileW st /\
  scaleX (draw st) = scaleX st /\
  Dx (canvas (draw st)) = Dx (canvas st).
Proof.
  unfold draw. simpl.
  destruct (visibleChars st =? 0); [repeat split|].
  destruct (flt _ _ && fle _ _); repeat split.
Qed.

Lemma drawAt_keeps (st : @ScrollText F) (o : F) :
  offset (drawAt st o) = o /\
  speed (drawAt st o) = speed st /\
  visibleChars (drawAt st o) = visibleChars st /\
  tileW (drawAt st o) = tileW st /\
  scaleX (drawAt st o) = scaleX st /\
  Dx (canvas (drawAt st o)) = Dx (canvas st).
Proof.
  unfold drawAt. simpl.
  destruct (visibleChars st =? 0); repeat split.
Qed.

Lemma offset_iter_draw (n : nat) (st : @ScrollText F) :
  offset (Nat.iter n draw st)
  = Nat.iter n (advanceOffset (speed st) (visibleChars st) (tileW st)
                              (scaleX st) (Dx (canvas st)))
             (offset st) /\
  speed (Nat.iter n draw st) = speed st /\
  visibleChars (Nat.iter n draw st) = visibleChars st /\
  tileW (Nat.iter n draw st) = tileW st /\
  scaleX (Nat.iter n draw st) = scaleX st /\
  Dx (canvas (Nat.iter n draw st)) = Dx (canvas st).
Proof.
  induction n as [|n IH]; [repeat split|].
  destruct IH as [Ho [Hs [Hv [Ht [Hx Hd]]]]].
  destruct (draw_keeps (Nat.iter n draw st)) as [Ks [Kv [Kt [Kx Kd]]]].
  simpl. rewrite offset_draw, Ks, Kv, Kt, Kx, Kd.
  rewrite Ho, Hs, Hv, Ht, Hx, Hd. repeat split.
Qed.

End Animator.

(** ** Advancing and wrapping *)

Import IEEE Exact.

(** C3. [draw] first subtracts the speed from the offset; with no
    visible glyph it does nothing more; otherwise, with
    [totalWidth = visibleChars * tileW * scaleX], it adds
    [totalWidth + canvas width] to the offset when [totalWidth > 0] and
    the offset is at or below [-totalWidth]. On binary64, a tier with
    [tileW = 40], [scaleX = 1], 10 visible glyphs and a canvas 640 wide
    ([totalWidth = 400]) that starts at offset 640 with speed 8 reaches
    -392 after 129 advances and is back at exactly 640 after 130. *)
Theorem draw_advances_and_wraps :
  (forall (F : Type) (FO : Float64 F) (st : @ScrollText F),
     let o := fsub (offset st) (speed st) in
     let w := totalWidth st in
     (visibleChars st = 0 -> draw st = set_offset st o) /\
     (visibleChars st <> 0 ->
      (flt (of_int 0) w && fle o (fneg w) = true ->
       offset (draw st) = fadd o (fadd w (of_int (Dx (canvas st))))) /\
      (flt (of_int 0) w && fle o (fneg w) = false ->
       offset (draw st) = o))) /\
  (forall st : @ScrollText float,
     tileW st = 40 -> scaleX st = 1%float -> visibleChars st = 10 ->
     Dx (canvas st) = 640 -> offset st = 640%float -> speed st = 8%float ->
     totalWidth st = 400%float /\
     offset (Nat.iter 129 draw st) = (-392)%float /\
     offset (Nat.iter 130 draw st) = 640%float).
Proof.
  split.
  - intros F FO st o w. split.
    + intros Hv. unfold draw. simpl. rewrite Hv. reflexivity.
    + intros Hv. rewrite offset_draw. unfold advanceOffset.
      destruct (Z.eqb_spec (visibleChars st) 0) as [E|_]; [contradiction|].
      fold (totalWidth st). fold w. fold o.
      split; intros ->; reflexivity.
  - intros st Ht Hx Hv Hd Ho Hs.
    split; [unfold totalWidth; rewrite Ht, Hx, Hv; reflexivity|].
    destruct (offset_iter_draw 129 st) as [E129 _].
    destruct (offset_iter_draw 130 st) as [E130 _].
    rewrite E129, E130, Ht, Hx, Hv, Hd, Ho, Hs.
    split; vm_compute; reflexivity.
Qed.

Lemma draw_advances_and_wraps_witness :
  offset (Nat.iter 130 draw (@tenGlyphTier float _)) = 640%float.
Proof.
  apply (proj2 draw_advances_and_wraps (@tenGlyphTier float _));
    reflexivity.
Defined.


(** Over the 130 ticks of the scenario the two instances of the
    arithmetic hold the same offsets. *)
Lemma scenario_models_agree :
  forallb
    (fun n =>
       match IEEE.to_Q (offset (Nat.iter n draw (@tenGlyphTier float _))) with
       | Some q => Qeq_bool q (offset (Nat.iter n draw (@tenGlyphTier Q _)))
       | None => false
       end)
    (seq 0 131) = true.
Proof. vm_compute. reflexivity. Qed.

Section ExactTrack.
Local Open Scope Q_scope.

Variables (s : Q) (vis tw : Z) (sx : Q) (W : Z).
Let T : Q := inject_Z vis * (inject_Z tw * sx).
Let C : Q := T + inject_Z W.

Hypothesis speed_pos : 0 < s.
Hypothesis glyphs : vis <> 0%Z.
Hypothesis width_pos : 0 < T.
Hypothesis speed_le_cycle : s <= C.



End ExactTrack.

Section ExactCycle.
Local Open Scope Q_scope.



End ExactCycle.

(** ** The speed table *)

Ltac switch_actSize g :=
  unfold setSpeed;
  destruct (actSize g) as [|[[?|?|]|[?|?|]|]|?] eqn:Eact.

Section SpeedTable.
Context {F : Type} {FO : Float64 F}.

(** [setSpeed] writes speeds and nothing else. *)
Lemma setSpeed_keeps (g : @Game F) :
  (offset (scrollText1 (setSpeed g)) = offset (scrollText1 g) /\
   offset (scrollText2 (setSpeed g)) = offset (scrollText2 g) /\
   offset (scrollText3 (setSpeed g)) = offset (scrollText3 g) /\
   offset (scrollText4 (setSpeed g)) = offset (scrollText4 g)) /\
  (scaleX (scrollText1 (setSpeed g)) = scaleX (scrollText1 g) /\
   scaleX (scrollText2 (setSpeed g)) = scaleX (scrollText2 g) /\
   scaleX (scrollText3 (setSpeed g)) = scaleX (scrollText3 g) /\
   scaleX (scrollText4 (setSpeed g)) = scaleX (scrollText4 g)) /\
  canvas (scrollText1 (setSpeed g)) = canvas (scrollText1 g) /\
  spinc (setSpeed g) = spinc g /\
  actSize (setSpeed g) = actSize g /\
  fullText (setSpeed g) = fullText g /\
  fontChanges (setSpeed g) = fontChanges g /\
  totalGlyphs (setSpeed g) = totalGlyphs g.
Proof. switch_actSize g; repeat split; simpl; assumption. Qed.

Lemma setSpeed_rows (g : @Game F) :
  (actSize g = 0 -> speedsAre (setSpeed g) 8 16 32 64) /\
  (actSize g = 1 -> speedsAre (setSpeed g) 4 8 16 32) /\
  (actSize g = 2 -> speedsAre (setSpeed g) 2 4 8 16) /\
  (actSize g = 3 -> speedsAre (setSpeed g) 1 2 4 8).
Proof.
  split; [|split; [|split]]; intros E;
    unfold speedsAre, setSpeed; rewrite E; repeat split.
Qed.

Lemma setSpeed_other (g : @Game F) : ~ validTier (actSize g) -> setSpeed g = g.
Proof.
  intros H. switch_actSize g; try reflexivity;
    exfalso; apply H; unfold validTier; lia.
Qed.

Lemma spinc_pressF1 (g : @Game F) :
  spinc (pressF1 g)
  = if flt (spinc g) (of_int 4) && fle (of_int 1) (spinc g)
    then fadd (spinc g) (of_int 1)
    else if feq (spinc g) (fdiv (of_int 1) (of_int 2)) then of_int 1
    else if feq (spinc g) (fdiv (of_int 1) (of_int 4))
    then fdiv (of_int 1) (of_int 2)
    else spinc g.
Proof.
  unfold pressF1.
  match goal with |- spinc (setSpeed ?x) = _ =>
    destruct (setSpeed_keeps x) as [_ [_ [_ [E _]]]]; rewrite E end.
  destruct (flt _ _ && fle _ _); [reflexivity|].
  destruct (feq _ _); [reflexivity|].
  destruct (feq _ _); reflexivity.
Qed.

Lemma spinc_pressF2 (g : @Game F) :
  spinc (pressF2 g)
  = if flt (of_int 1) (spinc g) then fsub (spinc g) (of_int 1)
    else if feq (spinc g) (fdiv (of_int 1) (of_int 2))
    then fdiv (of_int 1) (of_int 4)
    else if feq (spinc g) (of_int 1) then fdiv (of_int 1) (of_int 2)
    else spinc g.
Proof.
  unfold pressF2.
  match goal with |- spinc (setSpeed ?x) = _ =>
    destruct (setSpeed_keeps x) as [_ [_ [_ [E _]]]]; rewrite E end.
  destruct (flt _ _); [reflexivity|].
  destruct (feq _ _); [reflexivity|].
  destruct (feq _ _); reflexivity.
Qed.

(** A new game starts at tempo 1 with tier 0 active. *)
Lemma NewGameWith_timing (message : string) (font : @Image F) :
  spinc (NewGameWith message font) = of_int 1 /\
  actSize (NewGameWith message font) = 0.
Proof.
  unfold NewGameWith.
  match goal with |- context [setSpeed ?x] =>
    destruct (setSpeed_keeps x) as [_ [_ [_ [Es [Ea _]]]]]; rewrite Es, Ea end.
  unfold preAnalyzeFontChanges.
  destruct (analyzeLoop _ _ _ _ _) as [changes glyphPos].
  split; reflexivity.
Qed.

End SpeedTable.

(** On binary64 the tempo moves on the ladder 0.25, 0.5, 1, 2, 3, 4. *)
Lemma tempo_ladder (m : float) :
  tempo m ->
  (m = 0.25 \/ m = 0.5 \/ m = 1 \/ m = 2 \/ m = 3 \/ m = 4)%float.
Proof.
  induction 1 as [|g _ IH|g _ IH].
  - right; right; left. reflexivity.
  - rewrite spinc_pressF1.
    destruct IH as [E|[E|[E|[E|[E|E]]]]]; rewrite E; vm_compute; tauto.
  - rewrite spinc_pressF2.
    destruct IH as [E|[E|[E|[E|[E|E]]]]]; rewrite E; vm_compute; tauto.
Qed.

(** C5. [setSpeed] gives the four tiers the row 8/16/32/64, 4/8/16/32,
    2/4/8/16 or 1/2/4/8 that the active tier selects, each entry times
    the multiplier. For every value the multiplier takes on binary64
    (the ladder reached from 1 with the two tempo keys) and every active
    tier 0..3, [speed4/speed1 = 8], [speed3/speed1 = 4] and
    [speed2/speed1 = 2]; in exact arithmetic the same holds for every
    multiplier other than 0. *)
Theorem setSpeed_ratio_1_2_4_8 :
  (forall (F : Type) (FO : Float64 F) (g : @Game F),
     (actSize g = 0 -> speedsAre (setSpeed g) 8 16 32 64) /\
     (actSize g = 1 -> speedsAre (setSpeed g) 4 8 16 32) /\
     (actSize g = 2 -> speedsAre (setSpeed g) 2 4 8 16) /\
     (actSize g = 3 -> speedsAre (setSpeed g) 1 2 4 8)) /\
  (forall g : @Game float,
     tempo (spinc g) -> validTier (actSize g) ->
     let g' := setSpeed g in
     (speed (scrollText4 g') / speed (scrollText1 g') = 8 /\
      speed (scrollText3 g') / speed (scrollText1 g') = 4 /\
      speed (scrollText2 g') / speed (scrollText1 g') = 2)%float) /\
  (forall g : @Game Q,
     ~ (spinc g == 0)%Q -> validTier (actSize g) ->
     let g' := setSpeed g in
     (speed (scrollText4 g') / speed (scrollText1 g') == 8 /\
      speed (scrollText3 g') / speed (scrollText1 g') == 4 /\
      speed (scrollText2 g') / speed (scrollText1 g') == 2)%Q).
Proof.
  split; [intros F FO g; apply setSpeed_rows|split].
  - intros g Ht [H0 H3] g'.
    destruct (setSpeed_rows g) as [R0 [R1 [R2 R3]]].
    destruct (setSpeed_keeps g) as [_ [_ [_ [Es _]]]].
    assert (actSize g = 0 \/ actSize g = 1 \/ actSize g = 2 \/ actSize g = 3)
      as [E|[E|[E|E]]] by lia;
      [destruct (R0 E) as [S1 [S2 [S3 S4]]]
      |destruct (R1 E) as [S1 [S2 [S3 S4]]]
      |destruct (R2 E) as [S1 [S2 [S3 S4]]]
      |destruct (R3 E) as [S1 [S2 [S3 S4]]]];
      unfold g'; rewrite S1, S2, S3, S4, Es;
      destruct (tempo_ladder _ Ht) as [M|[M|[M|[M|[M|M]]]]]; rewrite M;
      vm_compute; repeat split.
  - intros g Hm [H0 H3] g'.
    destruct (setSpeed_rows g) as [R0 [R1 [R2 R3]]].
    destruct (setSpeed_keeps g) as [_ [_ [_ [Es _]]]].
    assert (actSize g = 0 \/ actSize g = 1 \/ actSize g = 2 \/ actSize g = 3)
      as [E|[E|[E|E]]] by lia;
      [destruct (R0 E) as [S1 [S2 [S3 S4]]]
      |destruct (R1 E) as [S1 [S2 [S3 S4]]]
      |destruct (R2 E) as [S1 [S2 [S3 S4]]]
      |destruct (R3 E) as [S1 [S2 [S3 S4]]]];
      unfold g'; rewrite S1, S2, S3, S4, Es;
      cbn [fmul of_int rational];
      (split; [|split]); field; exact Hm.
Qed.

(** ** The four tiers of a new game *)

Section NewGameTiers.
Context {F : Type} {FO : Float64 F}.

Lemma setSpeed_tiers (g : @Game F) :
  exists v1 v2 v3 v4,
    scrollText1 (setSpeed g) = set_speed (scrollText1 g) v1 /\
    scrollText2 (setSpeed g) = set_speed (scrollText2 g) v2 /\
    scrollText3 (setSpeed g) = set_speed (scrollText3 g) v3 /\
    scrollText4 (setSpeed g) = set_speed (scrollText4 g) v4.
Proof.
  assert (E : forall st : @ScrollText F, st = set_speed st (speed st))
    by (intros []; reflexivity).
  switch_actSize g;
    try (do 4 eexists; repeat split; reflexivity);
    (exists (speed (scrollText1 g)), (speed (scrollText2 g)),
            (speed (scrollText3 g)), (speed (scrollText4 g));
     repeat split; apply E).
Qed.

Lemma countVisibleChars_rebuildText (g : @Game F) (k : Z) (d : bool) :
  countVisibleChars (rebuildText g k d) = countVisibleChars (fullText g).
Proof.
  rewrite !countVisibleChars_tokens, tokens_rebuildText.
  apply glyphCount_rebuilt.
Qed.

(** C10. Blanking leaves the visible-character count as it is: every
    rebuilt string counts as many visible characters as the master
    message, so the four tiers are built with one [visibleChars] value and
    their wrap widths are that count times the scaled tile width. *)
Theorem visibleChars_consistent :
  (forall (g : @Game F) (k : Z) (d : bool),
     countVisibleChars (rebuildText g k d) = countVisibleChars (fullText g)) /\
  (forall (message : string) (fontSheet : Image),
     let g := NewGameWith message fontSheet in
     let n := countVisibleChars message in
     let width (st : ScrollText) :=
       fmul (of_int (visibleChars st)) (fmul (of_int (tileW st)) (scaleX st)) in
     visibleChars (scrollText1 g) = n /\
     visibleChars (scrollText2 g) = n /\
     visibleChars (scrollText3 g) = n /\
     visibleChars (scrollText4 g) = n /\
     width (scrollText1 g) = fmul (of_int n) (fmul (of_int 40) (of_int 1)) /\
     width (scrollText2 g) = fmul (of_int n) (fmul (of_int 40) (of_int 2)) /\
     width (scrollText3 g) = fmul (of_int n) (fmul (of_int 40) (of_int 4)) /\
     width (scrollText4 g) = fmul (of_int n) (fmul (of_int 40) (of_int 8))).
Proof.
  split; [exact countVisibleChars_rebuildText|].
  intros message fontSheet g n width.
  unfold g, NewGameWith.
  match goal with |- context [setSpeed ?x] =>
    destruct (setSpeed_tiers x) as [v1 [v2 [v3 [v4 [E1 [E2 [E3 E4]]]]]]];
    rewrite E1, E2, E3, E4
  end.
  unfold width, set_speed, set_scrollTexts, newScrollText.
  cbn [scrollText1 scrollText2 scrollText3 scrollText4
       visibleChars tileW scaleX].
  rewrite !countVisibleChars_rebuildText, preAnalyzeFontChanges_tokens.
  cbn [fullText]. fold n. repeat split.
Qed.

End NewGameTiers.

(** ** One tick: followers and resolver *)

Lemma wrap64_small (z : Z) : in_int64 z -> wrap64 z = z.
Proof.
  unfold in_int64, min_int64, max_int64, wrap64. intros H.
  rewrite Z.mod_small; lia.
Qed.

Lemma indexTokens_sorted (glyphPos : Z) (ts : list token) :
  indexSorted (indexTokens glyphPos ts).
Proof.
  unfold indexSorted. revert glyphPos.
  induction ts as [|[k|c] r IH]; intros glyphPos; simpl.
  - constructor.
  - constructor; [apply IH|]. apply (indexTokens_lower glyphPos r).
  - apply IH.
Qed.



Section Tick.
Context {F : Type} {FO : Float64 F}.

Lemma updateActSizeFromScroll_cases (g : @Game F) :
  updateActSizeFromScroll g = g \/
  exists size,
    size <> actSize g /\
    updateActSizeFromScroll g = setSpeed (set_actSize g size).
Proof.
  unfold updateActSizeFromScroll.
  destruct (totalGlyphs g =? 0); [now left|].
  destruct (fle _ _); [now left|].
  match goal with |- context [negb (?s =? actSize g)] =>
    destruct (Z.eqb_spec s (actSize g)) as [E|E]; [now left|right; exists s]
  end.
  split; [exact E|reflexivity].
Qed.

(** The resolver moves no tier and changes no geometry. *)
Lemma updateActSizeFromScroll_keeps (g : @Game F) :
  (offset (scrollText1 (updateActSizeFromScroll g)) = offset (scrollText1 g) /\
   offset (scrollText2 (updateActSizeFromScroll g)) = offset (scrollText2 g) /\
   offset (scrollText3 (updateActSizeFromScroll g)) = offset (scrollText3 g) /\
   offset (scrollText4 (updateActSizeFromScroll g)) = offset (scrollText4 g)) /\
  (scaleX (scrollText1 (updateActSizeFromScroll g)) = scaleX (scrollText1 g) /\
   scaleX (scrollText2 (updateActSizeFromScroll g)) = scaleX (scrollText2 g) /\
   scaleX (scrollText3 (updateActSizeFromScroll g)) = scaleX (scrollText3 g) /\
   scaleX (scrollText4 (updateActSizeFromScroll g)) = scaleX (scrollText4 g)) /\
  canvas (scrollText1 (updateActSizeFromScroll g)) = canvas (scrollText1 g).
Proof.
  destruct (updateActSizeFromScroll_cases g) as [->|[size [_ ->]]].
  - repeat split.
  - destruct (setSpeed_keeps (set_actSize g size)) as [O [S [C _]]].
    exact (conj O (conj S C)).
Qed.

(** The index stays the index of the message through every tick, so it
    is built in every state a game reaches. *)
Lemma indexBuilt_iff (g : @Game F) :
  indexBuilt g <->
  fontChanges g = indexTokens 0 (tokens (fullText g)) /\
  totalGlyphs g = glyphCount (tokens (fullText g)).
Proof.
  split; [apply fontChanges_indexBuilt|].
  unfold indexBuilt. rewrite preAnalyzeFontChanges_tokens.
  intros [<- <-]. destruct g; reflexivity.
Qed.

Lemma setSpeed_message (g : @Game F) :
  fullText (setSpeed g) = fullText g /\
  fontChanges (setSpeed g) = fontChanges g /\
  totalGlyphs (setSpeed g) = totalGlyphs g.
Proof.
  destruct (setSpeed_keeps g) as [_ [_ [_ [_ [_ H]]]]]. exact H.
Qed.

Lemma Update_message (g : @Game F) (f1 f2 : bool) :
  fullText (Update g f1 f2) = fullText g /\
  fontChanges (Update g f1 f2) = fontChanges g /\
  totalGlyphs (Update g f1 f2) = totalGlyphs g.
Proof.
  assert (K1 : forall h : @Game F,
             fullText (pressF1 h) = fullText h /\
             fontChanges (pressF1 h) = fontChanges h /\
             totalGlyphs (pressF1 h) = totalGlyphs h).
  { intros h. unfold pressF1.
    match goal with |- context [setSpeed ?x] =>
      destruct (setSpeed_message x) as [A [B C]]; rewrite A, B, C end.
    destruct (flt _ _ && fle _ _); [repeat split|].
    destruct (feq _ _); [repeat split|].
    destruct (feq _ _); repeat split. }
  assert (K2 : forall h : @Game F,
             fullText (pressF2 h) = fullText h /\
             fontChanges (pressF2 h) = fontChanges h /\
             totalGlyphs (pressF2 h) = totalGlyphs h).
  { intros h. unfold pressF2.
    match goal with |- context [setSpeed ?x] =>
      destruct (setSpeed_message x) as [A [B C]]; rewrite A, B, C end.
    destruct (flt _ _); [repeat split|].
    destruct (feq _ _); [repeat split|].
    destruct (feq _ _); repeat split. }
  unfold Update.
  set (g1 := if f1 then pressF1 g else g).
  set (g2 := if f2 then pressF2 g1 else g1).
  assert (E1 : fullText g1 = fullText g /\ fontChanges g1 = fontChanges g /\
               totalGlyphs g1 = totalGlyphs g)
    by (unfold g1; destruct f1; [apply K1|repeat split]).
  assert (E2 : fullText g2 = fullText g /\ fontChanges g2 = fontChanges g /\
               totalGlyphs g2 = totalGlyphs g).
  { unfold g2. destruct f2; [|exact E1].
    destruct (K2 g1) as [A [B C]], E1 as [A1 [B1 C1]].
    rewrite A, B, C. now repeat split. }
  destruct E2 as [A2 [B2 C2]]. rewrite <- A2, <- B2, <- C2.
  destruct (updateActSizeFromScroll_cases (scrollTick g2)) as [->|[size [_ ->]]].
  - repeat split.
  - destruct (setSpeed_message (set_actSize (scrollTick g2) size)) as [A [B C]].
    rewrite A, B, C. repeat split.
Qed.

Lemma indexBuilt_Update (g : @Game F) (f1 f2 : bool) :
  indexBuilt g -> indexBuilt (Update g f1 f2).
Proof.
  rewrite !indexBuilt_iff.
  destruct (Update_message g f1 f2) as [A [B C]]. now rewrite A, B, C.
Qed.

Lemma indexBuilt_NewGameWith (message : string) (font : @Image F) :
  indexBuilt (NewGameWith message font).
Proof.
  apply indexBuilt_iff. unfold NewGameWith.
  match goal with |- context [setSpeed ?x] =>
    destruct (setSpeed_message x) as [A [B C]]; rewrite A, B, C end.
  rewrite preAnalyzeFontChanges_tokens. split; reflexivity.
Qed.

(** C6. Within a tick the master tier [scrollText1] advances by [draw]
    and each follower is placed by [drawAt] at
    [masterOffset * scaleX + (1 - scaleX) * masterCanvasWidth]; [drawAt]
    sets the offset to exactly the value it is given, whatever that value
    is, and leaves the speed alone. At the end of [Update] the three
    follower offsets are that function of the master offset: neither the
    follower's earlier offset nor its speed enters it. *)
Theorem followers_phase_locked :
  (forall (st : @ScrollText F) (o : F),
     offset (drawAt st o) = o /\ speed (drawAt st o) = speed st) /\
  (forall g : @Game F,
     let g' := scrollTick g in
     let base := offset (draw (scrollText1 g)) in
     let width := of_int (Dx (canvas (scrollText1 g))) in
     let derived (st : @ScrollText F) :=
       fadd (fmul base (scaleX st)) (fmul (fsub (of_int 1) (scaleX st)) width) in
     scrollText1 g' = draw (scrollText1 g) /\
     scrollText2 g' = drawAt (scrollText2 g) (derived (scrollText2 g)) /\
     scrollText3 g' = drawAt (scrollText3 g) (derived (scrollText3 g)) /\
     scrollText4 g' = drawAt (scrollText4 g) (derived (scrollText4 g))) /\
  (forall (g : @Game F) (f1 f2 : bool),
     let g' := Update g f1 f2 in
     let base := offset (scrollText1 g') in
     let width := of_int (Dx (canvas (scrollText1 g'))) in
     let derived (st : @ScrollText F) :=
       fadd (fmul base (scaleX st)) (fmul (fsub (of_int 1) (scaleX st)) width) in
     offset (scrollText2 g') = derived (scrollText2 g') /\
     offset (scrollText3 g') = derived (scrollText3 g') /\
     offset (scrollText4 g') = derived (scrollText4 g')).
Proof.
  split; [|split].
  - intros st o. destruct (drawAt_keeps st o) as [Ho [Hs _]]. now split.
  - intros g g' base width derived.
    destruct (draw_keeps (scrollText1 g)) as [_ [_ [_ [_ Hd]]]].
    unfold g', scrollTick, followerOffset, derived, base, width. simpl.
    rewrite Hd. repeat split.
  - intros g f1 f2 g' base width derived.
    unfold g', Update in *.
    set (gk := if f2 then pressF2 (if f1 then pressF1 g else g)
               else (if f1 then pressF1 g else g)) in *.
    destruct (updateActSizeFromScroll_keeps (scrollTick gk))
      as [[O1 [O2 [O3 O4]]] [[X1 [X2 [X3 X4]]] C1]].
    unfold derived, base, width. rewrite O1, O2, O3, O4, X2, X3, X4, C1.
    unfold scrollTick, followerOffset. simpl.
    destruct (drawAt_keeps (scrollText2 gk)
                (followerOffset (offset (draw (scrollText1 gk)))
                   (of_int (Dx (canvas (draw (scrollText1 gk))))) (scrollText2 gk)))
      as [A2 [_ [_ [_ [B2 _]]]]].
    destruct (drawAt_keeps (scrollText3 gk)
                (followerOffset (offset (draw (scrollText1 gk)))
                   (of_int (Dx (canvas (draw (scrollText1 gk))))) (scrollText3 gk)))
      as [A3 [_ [_ [_ [B3 _]]]]].
    destruct (drawAt_keeps (scrollText4 gk)
                (followerOffset (offset (draw (scrollText1 gk)))
                   (of_int (Dx (canvas (draw (scrollText1 gk))))) (scrollText4 gk)))
      as [A4 [_ [_ [_ [B4 _]]]]].
    unfold followerOffset in *.
    rewrite A2, A3, A4, B2, B3, B4. repeat split.
Qed.

End Tick.

(** ** The tier activity resolver *)

Section Resolver.
Context {F : Type} {FO : Float64 F}.


End Resolver.


(** ** The claims at concrete inputs *)



(** C2, as stated: glyph 3 of ["AB^Cs1;C D^Cs0;EF"] is a blank inside the
    span of tier 1, so no tier is non-blank there, tier 1 included. *)
Lemma rebuilderPartition_counterexample :
  ~ rebuilderPartition (@blankInSpanGame float _) 3.
Proof.
  unfold rebuilderPartition. intros H.
  assert (H1 : indexBuilt (@blankInSpanGame float _))
    by (vm_compute; reflexivity).
  assert (H2 : (3 < List.length (glyphStream (fullText (@blankInSpanGame float _))))%nat)
    by (vm_compute; lia).
  assert (H3 : validTier 1) by (unfold validTier; lia).
  specialize (H H1 H2 1 H3). vm_compute in H. discriminate H.
Qed.

Lemma rebuildText_partition_witness :
  glyphAt (tierText (@blankInSpanGame float _) 1) 2 = Some "C"%char /\
  glyphAt (tierText (@blankInSpanGame float _) 0) 2 = Some " "%char /\
  glyphAt (tierText (@blankInSpanGame float _) 0) 3 = Some " "%char /\
  glyphAt (tierText (@blankInSpanGame float _) 1) 3 = Some " "%char.
Proof.
  assert (Hb : indexBuilt (@blankInSpanGame float _))
    by (vm_compute; reflexivity).
  assert (H2 : glyphAt (fullText (@blankInSpanGame float _)) 2 = Some "C"%char)
    by reflexivity.
  assert (H3 : glyphAt (fullText (@blankInSpanGame float _)) 3 = Some " "%char)
    by reflexivity.
  destruct (rebuildText_partition blankInSpanGame 2 "C" Hb H2) as [A2 _].
  destruct (rebuildText_partition blankInSpanGame 3 " " Hb H3) as [A3 _].
  split; [exact (A2 1)|split; [exact (A2 0)|split; [exact (A3 0)|exact (A3 1)]]].
Defined.

Lemma setSpeed_ratio_1_2_4_8_witness :
  let g := setSpeed (@NewGame float _ fontSheet) in
  (speed (scrollText4 g) / speed (scrollText1 g) = 8 /\
   speed (scrollText3 g) / speed (scrollText1 g) = 4 /\
   speed (scrollText2 g) / speed (scrollText1 g) = 2)%float.
Proof.
  destruct (NewGameWith_timing (F:=float) getFullText fontSheet) as [Es Ea].
  apply (proj1 (proj2 setSpeed_ratio_1_2_4_8) (@NewGame float _ fontSheet)).
  - unfold NewGame. rewrite Es. apply (tempo_start (F:=float)).
  - unfold NewGame, validTier. rewrite Ea. lia.
Defined.

Lemma rebuildText_contract_witness :
  rebuildText (@NewGameWith float _ "AB^Cs1;CD^Cs0;EF" fontSheet) 0 true
  = "AB^Cs1;  ^Cs0;EF" /\
  rebuildText (@NewGameWith float _ "AB^Cs1;CD^Cs0;EF" fontSheet) 1 false
  = "  ^Cs1;CD^Cs0;  ".
Proof.
  apply (proj2 (proj2
    (rebuildText_contract (@NewGameWith float _ "AB^Cs1;CD^Cs0;EF" fontSheet)
       0 true))).
  reflexivity.
Defined.

(** ** More on the annotator, the index and the rebuilder *)

Lemma drop_append (n : nat) (a r : string) :
  (n <= String.length a)%nat -> drop n (a ++ r) = drop n a ++ r.
Proof.
  revert a; induction n as [|n IH]; intros [|c a] H; simpl in *;
    try reflexivity; try lia.
  apply IH; lia.
Qed.

Lemma substring_append_long (n : nat) (a r : string) :
  (n <= String.length a)%nat -> substring 0 n (a ++ r) = substring 0 n a.
Proof.
  revert a; induction n as [|n IH]; intros [|c a] H; simpl in *; try lia.
  - destruct r; reflexivity.
  - reflexivity.
  - rewrite IH by lia. reflexivity.
Qed.

Lemma parseControlCode_append_long (a r : string) :
  (5 <= String.length a)%nat ->
  parseControlCode (a ++ r) 0 = parseControlCode a 0.
Proof.
  intros H. unfold parseControlCode.
  rewrite length_append, substring_append_long by assumption.
  destruct (Nat.leb_spec (String.length a + String.length r) (0 + 4)); [lia|].
  destruct (Nat.leb_spec (String.length a) (0 + 4)); [lia|].
  destruct a as [|c a]; [simpl in H; lia|reflexivity].
Qed.

(** A sentinel, or the end of the text, right after [a] leaves the scan
    of [a] as it is. *)
Lemma parseControlCode_append_sentinel (c : ascii) (a rest : string) :
  rest = "" \/ (exists r, rest = String "^" r) ->
  parseControlCode (String c a ++ rest) 0 = parseControlCode (String c a) 0.
Proof.
  intros Hrest.
  destruct (Nat.le_gt_cases 5 (String.length (String c a))) as [L|S].
  - now apply parseControlCode_append_long.
  - assert (Hfree : directiveFree (String c a))
      by (apply directiveFree_short; lia).
    pose proof (parse_literal_boundary c a rest Hfree Hrest) as P1.
    pose proof (Hfree 0%nat) as P2.
    change (String c a ++ rest) with (String c (a ++ rest)).
    destruct (parseControlCode (String c (a ++ rest)) 0) as [k1 ok1] eqn:E1.
    destruct (parseControlCode (String c a) 0) as [k2 ok2] eqn:E2.
    simpl in P1, P2. subst ok1 ok2.
    now rewrite (parseControlCode_default _ _ _ E1),
      (parseControlCode_default _ _ _ E2).
Qed.

Lemma tokens_append_sentinel (a rest : string) :
  rest = "" \/ (exists r, rest = String "^" r) ->
  tokens (a ++ rest) = (tokens a ++ tokens rest)%list.
Proof.
  intros Hrest.
  remember (String.length a) as n eqn:Hn.
  revert a Hn. induction n as [n IH] using lt_wf_ind. intros a Hn.
  destruct a as [|c a]; [reflexivity|].
  pose proof (parseControlCode_append_sentinel c a rest Hrest) as P.
  destruct (parseControlCode (String c a) 0) as [k ok] eqn:E.
  destruct ok.
  - rewrite (tokens_dir _ _ P), (tokens_dir _ _ E).
    assert (L : (5 <= String.length (String c a))%nat).
    { destruct (parseControlCode_true _ _ E) as [Hk Ea].
      rewrite Ea, length_append, directiveToken_length by assumption. lia. }
    rewrite drop_append by assumption. simpl app. f_equal.
    apply (IH (String.length (drop 5 (String c a)))); [|reflexivity].
    rewrite length_drop. simpl in *. lia.
  - change (String c a ++ rest) with (String c (a ++ rest)) in P |- *.
    rewrite tokens_lit by now rewrite P.
    rewrite tokens_lit by now rewrite E.
    simpl app. f_equal.
    apply (IH (String.length a)); [|reflexivity].
    simpl in Hn. lia.
Qed.

(** A directive token is a synchronisation point of the scan. *)
Lemma tokens_across_token (a b : string) (k : Z) :
  validTier k ->
  tokens (a ++ directiveToken k ++ b)
  = (tokens a ++ TDir k :: tokens b)%list.
Proof.
  intros Hk. rewrite tokens_append_sentinel.
  - now rewrite tokens_directive.
  - right. destruct Hk as [H0 H3].
    assert (k = 0 \/ k = 1 \/ k = 2 \/ k = 3) as [->|[->|[->| ->]]] by lia;
      simpl; eexists; reflexivity.
Qed.

Lemma glyphCount_app (xs ys : list token) :
  glyphCount (xs ++ ys) = glyphCount xs + glyphCount ys.
Proof.
  induction xs as [|[k|c] xs IH].
  - unfold glyphCount at 2. simpl. lia.
  - simpl app. now rewrite !glyphCount_dir.
  - simpl app. rewrite !glyphCount_lit. lia.
Qed.

Lemma indexTokens_app (glyphPos : Z) (xs ys : list token) :
  indexTokens glyphPos (xs ++ ys)
  = (indexTokens glyphPos xs
     ++ indexTokens (glyphPos + glyphCount xs) ys)%list.
Proof.
  revert glyphPos; induction xs as [|[k|c] xs IH]; intros glyphPos.
  - simpl. unfold glyphCount. simpl. now rewrite Z.add_0_r.
  - simpl. rewrite IH, glyphCount_dir. reflexivity.
  - simpl. rewrite IH, glyphCount_lit. do 2 f_equal. lia.
Qed.

Lemma indexTokens_shift (glyphPos : Z) (ts : list token) :
  indexTokens glyphPos ts = map (shiftChange glyphPos) (indexTokens 0 ts).
Proof.
  assert (G : forall a b, indexTokens (a + b) ts
                          = map (shiftChange a) (indexTokens b ts)).
  { induction ts as [|[k|c] ts IH]; intros a b; simpl.
    - reflexivity.
    - now rewrite IH.
    - rewrite <- IH. f_equal. lia. }
  rewrite <- (G glyphPos 0). f_equal. lia.
Qed.

Lemma indexTokens_upper (glyphPos : Z) (ts : list token) :
  Forall (fun e => position e <= glyphPos + glyphCount ts)
         (indexTokens glyphPos ts).
Proof.
  revert glyphPos; induction ts as [|[k|c] r IH]; intros glyphPos; simpl.
  - constructor.
  - constructor.
    + simpl. pose proof (glyphCount_nonneg (TDir k :: r)). lia.
    + rewrite glyphCount_dir. apply IH.
  - eapply Forall_impl; [|apply (IH (glyphPos + 1))].
    simpl. intros e He. rewrite glyphCount_lit. lia.
Qed.

Lemma length_untokens (ts : list token) :
  Forall validToken ts ->
  Z.of_nat (String.length (untokens ts))
  = glyphCount ts + 5 * Z.of_nat (List.length (indexTokens 0 ts)).
Proof.
  intros Hv. induction Hv as [|[k|c] r Ht Hr IH].
  - reflexivity.
  - simpl untokens. rewrite length_append, directiveToken_length by exact Ht.
    simpl indexTokens. simpl List.length. rewrite glyphCount_dir. lia.
  - simpl untokens. simpl String.length. simpl indexTokens.
    rewrite (indexTokens_shift (0 + 1)), length_map, glyphCount_lit. lia.
Qed.

Lemma tokens_directiveFree (s : string) :
  directiveFree s -> tokens s = map TLit (list_ascii_of_string s).
Proof.
  induction s as [|c s IH]; intros Hfree; [reflexivity|].
  rewrite tokens_lit by apply (Hfree 0%nat).
  simpl. f_equal. apply IH. now apply directiveFree_tail with c.
Qed.

Lemma rebuildTokens_literals (size : Z) (active : bool) (cs : list ascii) :
  untokens (rebuildTokens size active (map TLit cs))
  = if active then string_of_list_ascii cs else blanks (List.length cs).
Proof.
  induction cs as [|c cs IH]; simpl.
  - now destruct active.
  - rewrite IH. now destruct active.
Qed.

Lemma length_list_ascii_of_string (s : string) :
  List.length (list_ascii_of_string s) = String.length s.
Proof. induction s as [|c s IH]; simpl; congruence. Qed.

Lemma rebuildTokens_idempotent (size : Z) (active : bool) (ts : list token) :
  rebuildTokens size active (rebuildTokens size active ts)
  = rebuildTokens size active ts.
Proof.
  revert active; induction ts as [|[k|c] r IH]; intros active; simpl.
  - reflexivity.
  - now rewrite IH.
  - rewrite IH. now destruct active.
Qed.

Lemma indexTokens_rebuilt (size : Z) (active : bool) (glyphPos : Z)
    (ts : list token) :
  indexTokens glyphPos (rebuildTokens size active ts) = indexTokens glyphPos ts.
Proof.
  revert active glyphPos; induction ts as [|[k|c] r IH];
    intros active glyphPos; simpl.
  - reflexivity.
  - now rewrite IH.
  - apply IH.
Qed.

Lemma glyphs_unselected (size : Z) (ts : list token) :
  ~ validTier size -> Forall validToken ts ->
  Forall (fun c => c = " "%char) (glyphsOf (rebuildTokens size false ts)).
Proof.
  intros Hs Hv. induction Hv as [|[k|c] r Ht Hr IH]; simpl.
  - constructor.
  - destruct (Z.eqb_spec k size) as [E|_]; [|exact IH].
    exfalso. apply Hs. rewrite <- E. exact Ht.
  - constructor; [reflexivity|exact IH].
Qed.

Section MoreText.
Context {F : Type} {FO : Float64 F}.

Lemma fullText_set_fullText (g : @Game F) (t : string) :
  fullText (set_fullText g t) = t.
Proof. reflexivity. Qed.

(** X1. The index builder counts what [countVisibleChars] counts, and
    the message is accounted for byte by byte: its length is the glyph
    total plus five bytes for each index entry. *)
Theorem message_length_accounting (g : @Game F) :
  let g' := preAnalyzeFontChanges g in
  totalGlyphs g' = countVisibleChars (fullText g) /\
  Z.of_nat (String.length (fullText g))
  = countVisibleChars (fullText g)
    + 5 * Z.of_nat (List.length (fontChanges g')) /\
  0 <= countVisibleChars (fullText g) <= Z.of_nat (String.length (fullText g)).
Proof.
  intros g'. unfold g'. rewrite preAnalyzeFontChanges_tokens.
  cbn [totalGlyphs fontChanges]. rewrite countVisibleChars_tokens.
  pose proof (length_untokens _ (tokens_valid (fullText g))) as L.
  rewrite untokens_tokens in L.
  pose proof (glyphCount_nonneg (tokens (fullText g))).
  repeat split; try assumption; lia.
Qed.

(** X2. The entries of the font-change index stand in non-decreasing
    order of glyph position, every position lies between 0 and the glyph
    total, and every tier is one of 0..3. *)
Theorem fontChanges_ordered (g : @Game F) :
  let g' := preAnalyzeFontChanges g in
  indexSorted (fontChanges g') /\
  Forall (fun e => 0 <= position e <= totalGlyphs g' /\ validTier (newSize e))
         (fontChanges g').
Proof.
  intros g'. unfold g'. rewrite preAnalyzeFontChanges_tokens.
  cbn [totalGlyphs fontChanges]. split; [apply indexTokens_sorted|].
  pose proof (indexTokens_lower 0 (tokens (fullText g))) as Hl.
  pose proof (indexTokens_upper 0 (tokens (fullText g))) as Hu.
  pose proof (indexTokens_valid 0 _ (tokens_valid (fullText g))) as Hv.
  rewrite Forall_forall in *. intros e He.
  specialize (Hl e He). specialize (Hu e He). specialize (Hv e He).
  simpl in *. split; [lia|exact Hv].
Qed.

(** X3. A directive token splits the count: whatever stands before and
    after it, the visible characters of the whole are those of the two
    sides together. *)
Theorem countVisibleChars_across_token (a b : string) (k : Z) :
  validTier k ->
  countVisibleChars (a ++ directiveToken k ++ b)
  = countVisibleChars a + countVisibleChars b.
Proof.
  intros Hk. rewrite !countVisibleChars_tokens, tokens_across_token by assumption.
  rewrite glyphCount_app, glyphCount_dir. reflexivity.
Qed.

(** X4. The index of a message with a directive for tier [k] between
    [a] and [b] is the index of [a], then the entry for the directive at
    the glyph count of [a], then the index of [b] moved right by that
    count; the glyph totals add up. *)
Theorem fontChanges_across_token (g : @Game F) (a b : string) (k : Z) :
  validTier k ->
  let whole := preAnalyzeFontChanges (set_fullText g (a ++ directiveToken k ++ b)) in
  let left := preAnalyzeFontChanges (set_fullText g a) in
  let right := preAnalyzeFontChanges (set_fullText g b) in
  fontChanges whole
  = (fontChanges left
     ++ mkFontChange (totalGlyphs left) k
        :: map (shiftChange (totalGlyphs left)) (fontChanges right))%list /\
  totalGlyphs whole = totalGlyphs left + totalGlyphs right.
Proof.
  intros Hk whole left right. unfold whole, left, right.
  rewrite !preAnalyzeFontChanges_tokens.
  cbn [totalGlyphs fontChanges fullText set_fullText].
  rewrite tokens_across_token by assumption.
  rewrite indexTokens_app, glyphCount_app, glyphCount_dir. simpl indexTokens.
  rewrite ?Z.add_0_l.
  rewrite (indexTokens_shift (glyphCount (tokens a)) (tokens b)).
  split; reflexivity.
Qed.

(** X5. Rebuilding splits at a directive token as well: the rebuilt
    message is the rebuilt left side, the token, and the right side
    rebuilt with the activity the token sets. *)
Theorem rebuildText_across_token (g : @Game F) (a b : string) (k size : Z)
    (defaultActive : bool) :
  validTier k ->
  rebuildText (set_fullText g (a ++ directiveToken k ++ b)) size defaultActive
  = rebuildText (set_fullText g a) size defaultActive
    ++ directiveToken k
    ++ rebuildText (set_fullText g b) size (k =? size).
Proof.
  intros Hk. rewrite !rebuildText_tokens. cbn [fullText set_fullText].
  rewrite tokens_across_token by assumption.
  rewrite rebuildTokens_app, untokens_app. reflexivity.
Qed.

(** X6. Rebuilding is idempotent: the rebuilt string of a tier, rebuilt
    again for that tier with the same flag, is unchanged. *)
Theorem rebuildText_idempotent (g : @Game F) (size : Z) (defaultActive : bool) :
  rebuildText (set_fullText g (rebuildText g size defaultActive))
              size defaultActive
  = rebuildText g size defaultActive.
Proof.
  rewrite (rebuildText_tokens (set_fullText _ _)). cbn [fullText set_fullText].
  rewrite tokens_rebuildText, rebuildTokens_idempotent.
  symmetry. apply rebuildText_tokens.
Qed.

(** X7. A rebuilt string has the font-change index and the glyph total
    of the message it was built from. *)
Theorem rebuilt_index_unchanged (g : @Game F) (size : Z) (defaultActive : bool) :
  let g' := preAnalyzeFontChanges
              (set_fullText g (rebuildText g size defaultActive)) in
  fontChanges g' = fontChanges (preAnalyzeFontChanges g) /\
  totalGlyphs g' = totalGlyphs (preAnalyzeFontChanges g).
Proof.
  intros g'. unfold g'. rewrite !preAnalyzeFontChanges_tokens.
  cbn [totalGlyphs fontChanges fullText set_fullText].
  rewrite tokens_rebuildText, indexTokens_rebuilt, glyphCount_rebuilt.
  split; reflexivity.
Qed.

(** X8. A message without any directive token (the empty message
    included) has an empty index and as many glyphs as bytes; rebuilt
    with the default-active flag set it is returned as it is, and with
    the flag clear it becomes blanks of the same length. *)
Theorem rebuildText_without_directives (g : @Game F) (size : Z) :
  directiveFree (fullText g) ->
  rebuildText g size true = fullText g /\
  rebuildText g size false = blanks (String.length (fullText g)) /\
  countVisibleChars (fullText g) = Z.of_nat (String.length (fullText g)) /\
  fontChanges (preAnalyzeFontChanges g) = [].
Proof.
  intros Hfree.
  pose proof (tokens_directiveFree _ Hfree) as T.
  rewrite !rebuildText_tokens, countVisibleChars_tokens,
    preAnalyzeFontChanges_tokens, T, !rebuildTokens_literals.
  cbn [fontChanges].
  rewrite string_of_list_ascii_of_string, length_list_ascii_of_string.
  split; [reflexivity|split; [reflexivity|split]].
  - unfold glyphCount.
    assert (G : forall cs, glyphsOf (map TLit cs) = cs)
      by (induction cs; simpl; congruence).
    now rewrite G, length_list_ascii_of_string.
  - assert (G : forall cs z, indexTokens z (map TLit cs) = [])
      by (induction cs; intros z; simpl; [reflexivity|apply IHcs]).
    apply G.
Qed.

(** X9. No directive selects a tier outside 0..3: rebuilt for such a
    tier id without the default-active flag, every glyph of the message
    is a blank. *)
Theorem rebuildText_unknown_tier (g : @Game F) (size : Z) (p : nat) (c : ascii) :
  ~ validTier size ->
  glyphAt (rebuildText g size false) p = Some c ->
  c = " "%char.
Proof.
  intros Hs Hp. unfold glyphAt, glyphStream in Hp.
  rewrite tokens_rebuildText in Hp.
  pose proof (glyphs_unselected size _ Hs (tokens_valid (fullText g))) as A.
  rewrite Forall_forall in A. apply A. eapply nth_error_In. exact Hp.
Qed.

End MoreText.

Lemma countVisibleChars_across_token_witness :
  countVisibleChars ("AB^" ++ directiveToken 1 ++ "CD") = 5.
Proof.
  rewrite (countVisibleChars_across_token "AB^" "CD" 1); [reflexivity|].
  unfold validTier. lia.
Defined.

Lemma fontChanges_across_token_witness :
  fontChanges
    (preAnalyzeFontChanges
       (set_fullText (@blankInSpanGame float _) ("AB" ++ directiveToken 1 ++ "CD")))
  = [mkFontChange 2 1].
Proof.
  destruct (fontChanges_across_token (@blankInSpanGame float _) "AB" "CD" 1)
    as [H _]; [unfold validTier; lia|].
  exact H.
Defined.

Lemma rebuildText_across_token_witness :
  rebuildText (set_fullText (@blankInSpanGame float _)
                 ("AB" ++ directiveToken 1 ++ "CD")) 1 false
  = "  ^Cs1;CD".
Proof.
  rewrite (rebuildText_across_token blankInSpanGame "AB" "CD" 1 1 false);
    [reflexivity|unfold validTier; lia].
Defined.

Lemma rebuildText_without_directives_witness :
  rebuildText (set_fullText (@blankInSpanGame float _) "HI ^") 2 false
  = "    ".
Proof.
  apply (rebuildText_without_directives
           (set_fullText (@blankInSpanGame float _) "HI ^") 2).
  apply directiveFree_short. simpl. lia.
Defined.

Lemma rebuildText_unknown_tier_witness :
  glyphAt (rebuildText (@blankInSpanGame float _) 7 false) 2 = Some " "%char.
Proof.
  destruct (glyphAt (rebuildText (@blankInSpanGame float _) 7 false) 2)
    as [c|] eqn:E; [|discriminate E].
  f_equal.
  apply (rebuildText_unknown_tier (@blankInSpanGame float _) 7 2 c);
    [unfold validTier; lia|exact E].
Defined.


(** ** Rendering a tier *)

(** X10. [tileIndex] stays within the 59 tiles of the font sheet; the
    bytes from the blank to [Z] get the tiles 0 to 58 in order, one tile
    each, and every other byte gets tile 0, the tile of the blank. *)
Theorem tileIndex_range (c : ascii) :
  0 <= tileIndex c <= 58 /\
  (32 <= Z.of_nat (nat_of_ascii c) <= 90 ->
   tileIndex c = Z.of_nat (nat_of_ascii c) - 32) /\
  (Z.of_nat (nat_of_ascii c) < 32 \/ 90 < Z.of_nat (nat_of_ascii c) ->
   tileIndex c = tileIndex " ") /\
  (forall c',
     32 <= Z.of_nat (nat_of_ascii c) <= 90 ->
     32 <= Z.of_nat (nat_of_ascii c') <= 90 ->
     tileIndex c = tileIndex c' -> c = c').
Proof.
  assert (R : forall a, tileIndex a
              = if (Z.of_nat (nat_of_ascii a) <? 32) || (90 <? Z.of_nat (nat_of_ascii a))
                then 0 else Z.of_nat (nat_of_ascii a) - 32) by reflexivity.
  assert (V : forall a, 32 <= Z.of_nat (nat_of_ascii a) <= 90 ->
              tileIndex a = Z.of_nat (nat_of_ascii a) - 32).
  { intros a Ha. rewrite R.
    destruct (Z.ltb_spec (Z.of_nat (nat_of_ascii a)) 32); [lia|].
    destruct (Z.ltb_spec 90 (Z.of_nat (nat_of_ascii a))); [lia|reflexivity]. }
  split; [|split; [apply V|split]].
  - rewrite R.
    destruct (Z.ltb_spec (Z.of_nat (nat_of_ascii c)) 32); simpl; [lia|].
    destruct (Z.ltb_spec 90 (Z.of_nat (nat_of_ascii c))); lia.
  - intros H. rewrite R.
    destruct (Z.ltb_spec (Z.of_nat (nat_of_ascii c)) 32); simpl; [reflexivity|].
    destruct (Z.ltb_spec 90 (Z.of_nat (nat_of_ascii c))); [reflexivity|lia].
  - intros c' Hc Hc' E. rewrite (V c Hc), (V c' Hc') in E.
    rewrite <- (ascii_nat_embedding c), <- (ascii_nat_embedding c').
    f_equal. lia.
Qed.

Lemma tileIndex_range_witness : tileIndex "A" = 33 /\ tileIndex "a" = 0.
Proof.
  destruct (tileIndex_range "A") as [_ [H _]].
  destruct (tileIndex_range "a") as [_ [_ [H' _]]].
  split.
  - rewrite H; [reflexivity|simpl; lia].
  - rewrite H'; [reflexivity|right; simpl; lia].
Defined.

Section Rendering.
Context {F : Type} {FO : Float64 F}.

Lemma drawLoop_tokens (fuel : nat) (st : @ScrollText F) (tw x : F) (i : nat)
    (drawn : list (Z * F)) :
  (String.length (text st) - i <= fuel)%nat ->
  drawLoop fuel st tw x i drawn
  = (drawn ++ renderTokens st tw x (tokens (drop i (text st))))%list.
Proof.
  revert x i drawn; induction fuel as [|fuel IH]; intros x i drawn Hf.
  - rewrite drop_all by lia. simpl. now rewrite app_nil_r.
  - simpl.
    destruct (scan_view_at (text st) i)
      as [Hi Ht|k Hi P _ Hs Hl Ht|k c Hi P Hg Ht]; rewrite Ht.
    + simpl. rewrite app_nil_r. apply Nat.ltb_ge in Hi.
      destruct (Nat.leb_spec (String.length (text st)) i); [|lia].
      now destruct (flt x _).
    + simpl renderTokens. destruct (flt x _); [|now rewrite app_nil_r].
      apply Nat.ltb_lt in Hi.
      destruct (Nat.leb_spec (String.length (text st)) i); [lia|].
      rewrite P. cbn [snd]. apply IH. lia.
    + simpl renderTokens. destruct (flt x _); [|now rewrite app_nil_r].
      apply Nat.ltb_lt in Hi.
      destruct (Nat.leb_spec (String.length (text st)) i); [lia|].
      rewrite P, Hg. cbn [snd]. rewrite IH by lia.
      destruct (_ && _); simpl; rewrite <- ?app_assoc; reflexivity.
Qed.

Lemma blits_drawAtOffset (st : @ScrollText F) (o : F) :
  blits (canvas (drawAtOffset st o))
  = renderTokens st (fmul (of_int (tileW st)) (scaleX st)) o (tokens (text st)).
Proof.
  unfold drawAtOffset. simpl. rewrite drawLoop_tokens by lia. reflexivity.
Qed.

Lemma renderTokens_left_of_edge (st : @ScrollText F) (tw x : F)
    (ts : list token) :
  Forall (fun b => flt (snd b) (of_int (Dx (canvas st))) = true)
         (renderTokens st tw x ts).
Proof.
  revert x; induction ts as [|[k|c] r IH]; intros x; simpl.
  - constructor.
  - destruct (flt x _); [apply IH|constructor].
  - destruct (flt x _) eqn:E; [|constructor].
    apply Forall_app. split; [|apply IH].
    destruct (_ && _); constructor; [exact E|constructor].
Qed.

Lemma fontFits_tile (st : @ScrollText F) (c : ascii) :
  fontFits st ->
  (Z.max 0 (tileW st) <=? Dx (font st))
  && (Z.max (tileIndex c * tileH st) ((tileIndex c + 1) * tileH st)
      <=? Dy (font st)) = true.
Proof.
  intros [[W0 W1] [H0 H1]].
  destruct (tileIndex_range c) as [[T0 T1] _].
  apply andb_true_intro. split; apply Z.leb_le; [lia|nia].
Qed.

Lemma renderTokens_glyphs (st : @ScrollText F) (tw x : F) (ts : list token) :
  fontFits st ->
  map fst (renderTokens st tw x ts)
  = map tileIndex (firstn (List.length (renderTokens st tw x ts)) (glyphsOf ts)).
Proof.
  intros Hf. revert x; induction ts as [|[k|c] r IH]; intros x; simpl.
  - reflexivity.
  - destruct (flt x _); [apply IH|reflexivity].
  - destruct (flt x _); [|reflexivity].
    rewrite (fontFits_tile st c Hf). simpl. f_equal. apply IH.
Qed.

Lemma renderTokens_length (st : @ScrollText F) (tw x : F) (ts : list token) :
  (List.length (renderTokens st tw x ts) <= List.length (glyphsOf ts))%nat.
Proof.
  revert x; induction ts as [|[k|c] r IH]; intros x; simpl.
  - lia.
  - destruct (flt x _); [apply IH|simpl; lia].
  - destruct (flt x _); [|simpl; lia].
    rewrite length_app. specialize (IH (fadd x tw)).
    destruct (_ && _); simpl; lia.
Qed.

Lemma renderTokens_narrow_font (st : @ScrollText F) (tw x : F) (ts : list token) :
  Dx (font st) < tileW st -> renderTokens st tw x ts = [].
Proof.
  intros Hn. revert x; induction ts as [|[k|c] r IH]; intros x; simpl.
  - reflexivity.
  - destruct (flt x _); [apply IH|reflexivity].
  - destruct (flt x _); [|reflexivity].
    destruct (Z.leb_spec (Z.max 0 (tileW st)) (Dx (font st))); [lia|].
    simpl. apply IH.
Qed.

(** X11. [drawAtOffset] leaves on the canvas, in order from the left,
    the tiles of the leading visible characters of the text and nothing
    for a directive token; every tile it blits starts left of the right
    edge of the canvas, there are at most as many as visible characters,
    and the first stands at the offset given. With a font sheet narrower
    than a tile nothing is drawn at all. Offset, speed, text and geometry
    are not touched. *)
Theorem drawAtOffset_window (st : @ScrollText F) (o : F) :
  let drawn := blits (canvas (drawAtOffset st o)) in
  Forall (fun b => flt (snd b) (of_int (Dx (canvas st))) = true) drawn /\
  (List.length drawn <= List.length (glyphStream (text st)))%nat /\
  (fontFits st ->
   map fst drawn
   = map tileIndex (firstn (List.length drawn) (glyphStream (text st))) /\
   (forall c rest,
      glyphStream (text st) = c :: rest ->
      flt o (of_int (Dx (canvas st))) = true ->
      hd_error drawn = Some (tileIndex c, o))) /\
  (Dx (font st) < tileW st -> drawn = []) /\
  sameTrack (drawAtOffset st o) st /\
  offset (drawAtOffset st o) = offset st /\
  speed (drawAtOffset st o) = speed st.
Proof.
  intros drawn. unfold drawn. rewrite blits_drawAtOffset.
  split; [apply renderTokens_left_of_edge|].
  split; [apply renderTokens_length|].
  split; [|split; [apply renderTokens_narrow_font|]].
  - intros Hf. split; [now apply renderTokens_glyphs|].
    intros c rest Hg Ho. unfold glyphStream in Hg.
    induction (tokens (text st)) as [|[k|c0] r IH]; simpl in *.
    + discriminate Hg.
    + rewrite Ho. apply IH. exact Hg.
    + rewrite Ho. injection Hg as -> _.
      now rewrite (fontFits_tile st c Hf).
  - unfold sameTrack, drawAtOffset. simpl. repeat split.
Qed.

End Rendering.

Lemma drawAtOffset_window_witness :
  map fst (blits (canvas (drawAtOffset (@tenGlyphTier float _) 600%float)))
  = [33].
Proof.
  destruct (drawAtOffset_window (@tenGlyphTier float _) 600%float)
    as [_ [_ [H _]]].
  destruct H as [H _].
  - unfold fontFits. simpl. lia.
  - exact H.
Defined.

(** ** What every tick preserves *)

Section Invariants.
Context {F : Type} {FO : Float64 F}.

Lemma sameTrack_refl (a : @ScrollText F) : sameTrack a a.
Proof. unfold sameTrack. repeat split. Qed.

Lemma sameTrack_trans (a b c : @ScrollText F) :
  sameTrack a b -> sameTrack b c -> sameTrack a c.
Proof.
  unfold sameTrack.
  intros [A1 [A2 [A3 [A4 [A5 [A6 [A7 [A8 A9]]]]]]]]
         [B1 [B2 [B3 [B4 [B5 [B6 [B7 [B8 B9]]]]]]]].
  repeat split; congruence.
Qed.

Lemma sameTrack_set_speed (a : @ScrollText F) (v : F) :
  sameTrack (set_speed a v) a.
Proof. unfold sameTrack. repeat split. Qed.

Lemma sameTrack_draw (a : @ScrollText F) : sameTrack (draw a) a.
Proof.
  unfold draw. cbn zeta.
  destruct (visibleChars (set_offset a _) =? 0);
    [unfold sameTrack; repeat split|].
  destruct (flt _ _ && fle _ _); unfold sameTrack; repeat split.
Qed.

Lemma sameTrack_drawAt (a : @ScrollText F) (o : F) : sameTrack (drawAt a o) a.
Proof.
  unfold drawAt. cbn zeta.
  destruct (visibleChars (set_offset a o) =? 0); unfold sameTrack; repeat split.
Qed.

Lemma sameTracks_refl (g : @Game F) : sameTracks g g.
Proof. unfold sameTracks. repeat split; apply sameTrack_refl. Qed.

Lemma sameTracks_set_spinc (g : @Game F) (s : F) : sameTracks (set_spinc g s) g.
Proof. unfold sameTracks. simpl. repeat split; apply sameTrack_refl. Qed.

Lemma sameTracks_set_actSize (g : @Game F) (a : Z) :
  sameTracks (set_actSize g a) g.
Proof. unfold sameTracks. simpl. repeat split; apply sameTrack_refl. Qed.

Lemma sameTracks_trans (a b c : @Game F) :
  sameTracks a b -> sameTracks b c -> sameTracks a c.
Proof.
  intros [A1 [A2 [A3 A4]]] [B1 [B2 [B3 B4]]].
  repeat split; eapply sameTrack_trans; eassumption.
Qed.

Lemma sameTracks_setSpeed (g : @Game F) : sameTracks (setSpeed g) g.
Proof.
  destruct (setSpeed_tiers g) as [v1 [v2 [v3 [v4 [E1 [E2 [E3 E4]]]]]]].
  unfold sameTracks. rewrite E1, E2, E3, E4.
  repeat split; apply sameTrack_set_speed.
Qed.

Lemma sameTracks_pressF1 (g : @Game F) : sameTracks (pressF1 g) g.
Proof.
  unfold pressF1.
  match goal with |- sameTracks (setSpeed ?x) _ =>
    apply (sameTracks_trans _ x); [apply sameTracks_setSpeed|] end.
  destruct (flt _ _ && fle _ _); [apply sameTracks_set_spinc|].
  destruct (feq _ _); [apply sameTracks_set_spinc|].
  destruct (feq _ _); [apply sameTracks_set_spinc|apply sameTracks_refl].
Qed.

Lemma sameTracks_pressF2 (g : @Game F) : sameTracks (pressF2 g) g.
Proof.
  unfold pressF2.
  match goal with |- sameTracks (setSpeed ?x) _ =>
    apply (sameTracks_trans _ x); [apply sameTracks_setSpeed|] end.
  destruct (flt _ _); [apply sameTracks_set_spinc|].
  destruct (feq _ _); [apply sameTracks_set_spinc|].
  destruct (feq _ _); [apply sameTracks_set_spinc|apply sameTracks_refl].
Qed.

Lemma sameTracks_scrollTick (g : @Game F) : sameTracks (scrollTick g) g.
Proof.
  unfold sameTracks, scrollTick. simpl.
  repeat split; first [apply sameTrack_draw|apply sameTrack_drawAt].
Qed.

Lemma sameTracks_resolver (g : @Game F) :
  sameTracks (updateActSizeFromScroll g) g.
Proof.
  destruct (updateActSizeFromScroll_cases g) as [->|[size [_ ->]]].
  - apply sameTracks_refl.
  - apply (sameTracks_trans _ (set_actSize g size));
      [apply sameTracks_setSpeed|apply sameTracks_set_actSize].
Qed.

Lemma sameTracks_Update (g : @Game F) (f1 f2 : bool) :
  sameTracks (Update g f1 f2) g.
Proof.
  unfold Update.
  eapply sameTracks_trans; [apply sameTracks_resolver|].
  eapply sameTracks_trans; [apply sameTracks_scrollTick|].
  destruct f2.
  - eapply sameTracks_trans; [apply sameTracks_pressF2|].
    destruct f1; [apply sameTracks_pressF1|apply sameTracks_refl].
  - destruct f1; [apply sameTracks_pressF1|apply sameTracks_refl].
Qed.

(** An invariant of [Update] holds after any number of ticks. *)
Lemma run_invariant (P : @Game F -> Prop) :
  (forall g f1 f2, P g -> P (Update g f1 f2)) ->
  forall keys g, P g -> P (run g keys).
Proof.
  intros Hstep keys. unfold run.
  induction keys as [|[f1 f2] keys IH]; intros g Hg; simpl.
  - exact Hg.
  - apply IH. now apply Hstep.
Qed.

Lemma sameTracks_run (g : @Game F) (keys : list (bool * bool)) :
  sameTracks (run g keys) g.
Proof.
  apply (run_invariant (fun h => sameTracks h g)).
  - intros h f1 f2 Hh.
    eapply sameTracks_trans; [apply sameTracks_Update|exact Hh].
  - apply sameTracks_refl.
Qed.

Lemma fullText_NewGameWith (message : string) (font : @Image F) :
  fullText (NewGameWith message font) = message.
Proof.
  unfold NewGameWith.
  match goal with |- context [setSpeed ?x] =>
    destruct (setSpeed_message x) as [A _]; rewrite A end.
  rewrite preAnalyzeFontChanges_tokens. reflexivity.
Qed.

(** The tiers of a new game, up to the speeds [setSpeed] gives them. *)
Lemma NewGameWith_tiers (message : string) (font : @Image F) :
  let built (h : Z) (sx sy : F) (size : Z) (d : bool) :=
    newScrollText (mkImage 640 h []) font 40 32 sx sy
      (untokens (rebuildTokens size d (tokens message))) in
  exists v1 v2 v3 v4,
    scrollText1 (NewGameWith message font)
    = set_speed (built 32 (of_int 1) (of_int 1) 0 true) v1 /\
    scrollText2 (NewGameWith message font)
    = set_speed (built 64 (of_int 2) (of_int 2) 1 false) v2 /\
    scrollText3 (NewGameWith message font)
    = set_speed (built 128 (of_int 4) (of_int 4) 2 false) v3 /\
    scrollText4 (NewGameWith message font)
    = set_speed (built 384 (of_int 8) (of_int 12) 3 false) v4.
Proof.
  intros built. unfold NewGameWith.
  match goal with |- context [setSpeed ?x] =>
    destruct (setSpeed_tiers x) as [v1 [v2 [v3 [v4 [E1 [E2 [E3 E4]]]]]]];
    rewrite E1, E2, E3, E4
  end.
  exists v1, v2, v3, v4.
  cbn [scrollText1 scrollText2 scrollText3 scrollText4 set_scrollTexts].
  rewrite !rebuildText_tokens, preAnalyzeFontChanges_tokens.
  cbn [fullText]. repeat split.
Qed.

(** X12. Nothing a tick does changes the text, font, tile size, scale,
    visible-character count or canvas size of a tier. After any number
    of ticks of a new game every tier therefore still shows its rebuilt
    string on tiles of 40 by 32 pixels and a canvas 640 wide, and its
    [visibleChars] is still the visible-character count of its own text
    and of the message. *)
Theorem Update_keeps_tracks :
  (forall (g : @Game F) (f1 f2 : bool), sameTracks (Update g f1 f2) g) /\
  (forall (message : string) (font : @Image F) (keys : list (bool * bool)),
     let g := run (NewGameWith message font) keys in
     let tierOf (st : @ScrollText F) (size : Z) :=
       text st = rebuildText (NewGameWith message font) size (size =? 0) /\
       visibleChars st = countVisibleChars (text st) /\
       visibleChars st = countVisibleChars message /\
       tileW st = 40 /\ tileH st = 32 /\ Dx (canvas st) = 640 in
     tierOf (scrollText1 g) 0 /\ tierOf (scrollText2 g) 1 /\
     tierOf (scrollText3 g) 2 /\ tierOf (scrollText4 g) 3).
Proof.
  split; [apply sameTracks_Update|].
  intros message font keys g tierOf.
  destruct (sameTracks_run (NewGameWith message font) keys)
    as [[T1 [_ [W1 [H1 [_ [_ [V1 [D1 _]]]]]]]]
        [[T2 [_ [W2 [H2 [_ [_ [V2 [D2 _]]]]]]]]
         [[T3 [_ [W3 [H3 [_ [_ [V3 [D3 _]]]]]]]]
          [T4 [_ [W4 [H4 [_ [_ [V4 [D4 _]]]]]]]]]]].
  fold g in T1, T2, T3, T4, W1, W2, W3, W4, H1, H2, H3, H4,
            V1, V2, V3, V4, D1, D2, D3, D4.
  unfold tierOf.
  rewrite T1, T2, T3, T4, W1, W2, W3, W4, H1, H2, H3, H4,
          V1, V2, V3, V4, D1, D2, D3, D4.
  rewrite !rebuildText_tokens, fullText_NewGameWith.
  destruct (NewGameWith_tiers message font)
    as [v1 [v2 [v3 [v4 [E1 [E2 [E3 E4]]]]]]].
  rewrite E1, E2, E3, E4.
  cbn [set_speed newScrollText text visibleChars tileW tileH canvas Dx].
  assert (C : forall size d,
             countVisibleChars (untokens (rebuildTokens size d (tokens message)))
             = countVisibleChars message).
  { intros size d. rewrite !countVisibleChars_tokens.
    rewrite tokens_rebuilt; [apply glyphCount_rebuilt|apply tokens_valid|].
    now rewrite untokens_tokens. }
  rewrite !C. repeat split; reflexivity.
Qed.

End Invariants.

(** ** Tempo and speeds over a run *)

Section SpeedInvariant.
Context {F : Type} {FO : Float64 F}.

Lemma pressF1_message (h : @Game F) :
  fullText (pressF1 h) = fullText h /\
  fontChanges (pressF1 h) = fontChanges h /\
  totalGlyphs (pressF1 h) = totalGlyphs h /\
  actSize (pressF1 h) = actSize h.
Proof.
  unfold pressF1.
  match goal with |- context [setSpeed ?x] =>
    destruct (setSpeed_keeps x) as [_ [_ [_ [_ [D [A [B C]]]]]]];
    rewrite A, B, C, D end.
  destruct (flt _ _ && fle _ _); [repeat split|].
  destruct (feq _ _); [repeat split|].
  destruct (feq _ _); repeat split.
Qed.

Lemma pressF2_message (h : @Game F) :
  fullText (pressF2 h) = fullText h /\
  fontChanges (pressF2 h) = fontChanges h /\
  totalGlyphs (pressF2 h) = totalGlyphs h /\
  actSize (pressF2 h) = actSize h.
Proof.
  unfold pressF2.
  match goal with |- context [setSpeed ?x] =>
    destruct (setSpeed_keeps x) as [_ [_ [_ [_ [D [A [B C]]]]]]];
    rewrite A, B, C, D end.
  destruct (flt _ _); [repeat split|].
  destruct (feq _ _); [repeat split|].
  destruct (feq _ _); repeat split.
Qed.

Lemma speedsFollowTable_setSpeed (h : @Game F) :
  validTier (actSize h) -> speedsFollowTable (setSpeed h).
Proof.
  intros Hv. unfold speedsFollowTable.
  destruct (setSpeed_keeps h) as [_ [_ [_ [_ [Ea _]]]]]. rewrite Ea.
  split; [exact Hv|].
  destruct (setSpeed_rows h) as [R0 [R1 [R2 R3]]].
  destruct Hv as [H0 H3].
  assert (actSize h = 0 \/ actSize h = 1 \/ actSize h = 2 \/ actSize h = 3)
    as [E|[E|[E|E]]] by lia; rewrite E; auto.
Qed.

Lemma speedsFollowTable_pressF1 (h : @Game F) :
  validTier (actSize h) -> speedsFollowTable (pressF1 h).
Proof.
  intros Hv. unfold pressF1. apply speedsFollowTable_setSpeed.
  destruct (flt _ _ && fle _ _); [exact Hv|].
  destruct (feq _ _); [exact Hv|].
  destruct (feq _ _); exact Hv.
Qed.

Lemma speedsFollowTable_pressF2 (h : @Game F) :
  validTier (actSize h) -> speedsFollowTable (pressF2 h).
Proof.
  intros Hv. unfold pressF2. apply speedsFollowTable_setSpeed.
  destruct (flt _ _); [exact Hv|].
  destruct (feq _ _); [exact Hv|].
  destruct (feq _ _); exact Hv.
Qed.

Lemma speedsFollowTable_scrollTick (h : @Game F) :
  speedsFollowTable h -> speedsFollowTable (scrollTick h).
Proof.
  unfold speedsFollowTable, speedsAre, scrollTick. simpl.
  intros [Hv [S1 [S2 [S3 S4]]]].
  destruct (draw_keeps (scrollText1 h)) as [D1 _].
  split; [exact Hv|]. rewrite D1.
  repeat match goal with |- context [speed (drawAt ?st ?o)] =>
    let K := fresh in
    destruct (drawAt_keeps st o) as [_ [K _]]; rewrite K; clear K end.
  repeat split; assumption.
Qed.

Lemma resolver_cases_lookup (g : @Game F) :
  updateActSizeFromScroll g = g \/
  exists p,
    updateActSizeFromScroll g
    = setSpeed (set_actSize g (lookupLoop (fontChanges g) p 0)).
Proof.
  unfold updateActSizeFromScroll.
  destruct (totalGlyphs g =? 0); [now left|].
  destruct (fle _ _); [now left|].
  match goal with |- context [lookupLoop (fontChanges g) ?p 0] =>
    destruct (negb (lookupLoop (fontChanges g) p 0 =? actSize g));
      [right; exists p; reflexivity|now left]
  end.
Qed.

Lemma speedsFollowTable_resolver (h : @Game F) :
  Forall (fun e => validTier (newSize e)) (fontChanges h) ->
  speedsFollowTable h -> speedsFollowTable (updateActSizeFromScroll h).
Proof.
  intros Hi Hs.
  destruct (resolver_cases_lookup h) as [->|[p ->]]; [exact Hs|].
  apply speedsFollowTable_setSpeed. simpl.
  apply lookupLoop_valid; [exact Hi|unfold validTier; lia].
Qed.

Lemma speedsFollowTable_Update (g : @Game F) (f1 f2 : bool) :
  indexBuilt g -> speedsFollowTable g ->
  speedsFollowTable (Update g f1 f2).
Proof.
  intros Hb Hs. unfold Update.
  set (g1 := if f1 then pressF1 g else g).
  set (g2 := if f2 then pressF2 g1 else g1).
  assert (H1 : speedsFollowTable g1 /\ fontChanges g1 = fontChanges g).
  { unfold g1. destruct f1; [|now split].
    destruct (pressF1_message g) as [_ [B _]].
    split; [apply speedsFollowTable_pressF1, Hs|exact B]. }
  assert (H2 : speedsFollowTable g2 /\ fontChanges g2 = fontChanges g).
  { unfold g2. destruct f2; [|exact H1].
    destruct (pressF2_message g1) as [_ [B _]].
    split; [apply speedsFollowTable_pressF2, H1|].
    rewrite B. apply H1. }
  apply speedsFollowTable_resolver.
  - change (fontChanges (scrollTick g2)) with (fontChanges g2).
    destruct H2 as [_ ->].
    destruct (fontChanges_indexBuilt g Hb) as [-> _].
    apply indexTokens_valid, tokens_valid.
  - apply speedsFollowTable_scrollTick, H2.
Qed.

Lemma speedsFollowTable_NewGameWith (message : string) (font : @Image F) :
  speedsFollowTable (NewGameWith message font).
Proof.
  unfold NewGameWith. apply speedsFollowTable_setSpeed.
  cbn [actSize set_scrollTexts].
  rewrite preAnalyzeFontChanges_tokens. simpl. unfold validTier. lia.
Qed.

Lemma speedsFollowTable_run (message : string) (font : @Image F)
    (keys : list (bool * bool)) :
  speedsFollowTable (run (NewGameWith message font) keys).
Proof.
  apply (run_invariant (fun g => indexBuilt g /\ speedsFollowTable g)).
  - intros g f1 f2 [Hb Hs]. split;
      [now apply indexBuilt_Update|now apply speedsFollowTable_Update].
  - split; [apply indexBuilt_NewGameWith|apply speedsFollowTable_NewGameWith].
Qed.

(** X13. The speed table is never out of date: in every state a new
    game reaches, whatever keys are held at each tick, the active tier is
    one of 0..3 and the four speeds are the row of that tier (8, 4, 2 or
    1 for the master tier, doubling from tier to tier) times the current
    multiplier. Any game whose index is built and whose speeds follow
    the table keeps both through [Update]. *)
Theorem speeds_follow_table :
  (forall (g : @Game F) (f1 f2 : bool),
     indexBuilt g -> speedsFollowTable g ->
     indexBuilt (Update g f1 f2) /\ speedsFollowTable (Update g f1 f2)) /\
  (forall (message : string) (font : @Image F) (keys : list (bool * bool)),
     speedsFollowTable (run (NewGameWith message font) keys)).
Proof.
  split.
  - intros g f1 f2 Hb Hs. split;
      [now apply indexBuilt_Update|now apply speedsFollowTable_Update].
  - apply speedsFollowTable_run.
Qed.

Lemma spinc_Update (g : @Game F) (f1 f2 : bool) :
  spinc (Update g f1 f2)
  = spinc (if f2 then pressF2 (if f1 then pressF1 g else g)
           else if f1 then pressF1 g else g).
Proof.
  unfold Update.
  set (g2 := if f2 then pressF2 (if f1 then pressF1 g else g)
             else if f1 then pressF1 g else g).
  destruct (updateActSizeFromScroll_cases (scrollTick g2)) as [->|[size [_ ->]]].
  - reflexivity.
  - destruct (setSpeed_keeps (set_actSize (scrollTick g2) size))
      as [_ [_ [_ [E _]]]].
    rewrite E. reflexivity.
Qed.

Lemma tempo_Update (g : @Game F) (f1 f2 : bool) :
  tempo (spinc g) -> tempo (spinc (Update g f1 f2)).
Proof.
  intros Ht. rewrite spinc_Update.
  destruct f1, f2; try assumption.
  - apply tempo_slower, tempo_faster, Ht.
  - apply tempo_faster, Ht.
  - apply tempo_slower, Ht.
Qed.

Lemma tempo_run (message : string) (font : @Image F)
    (keys : list (bool * bool)) :
  tempo (spinc (run (NewGameWith message font) keys)).
Proof.
  apply (run_invariant (fun g => tempo (spinc g))).
  - intros g f1 f2. apply tempo_Update.
  - destruct (NewGameWith_timing message font) as [-> _]. apply tempo_start.
Qed.

End SpeedInvariant.

(** X14. On binary64, in every state a new game reaches the multiplier
    is one of 0.25, 0.5, 1, 2, 3, 4 and the master tier moves left by at
    least a quarter pixel and at most 32 pixels a tick: the text never
    stops and never runs backwards. *)
Theorem tempo_and_speed_bounds (message : string) (font : @Image float)
    (keys : list (bool * bool)) :
  let g := run (NewGameWith message font) keys in
  (spinc g = 0.25 \/ spinc g = 0.5 \/ spinc g = 1 \/
   spinc g = 2 \/ spinc g = 3 \/ spinc g = 4)%float /\
  PrimFloat.leb 0.25 (speed (scrollText1 g)) = true /\
  PrimFloat.leb (speed (scrollText1 g)) 32 = true.
Proof.
  intros g.
  pose proof (tempo_ladder _ (tempo_run message font keys)) as L.
  fold g in L. split; [exact L|].
  destruct (speedsFollowTable_run message font keys) as [[H0 H3] [S1 _]].
  fold g in H0, H3, S1. rewrite S1.
  assert (actSize g = 0 \/ actSize g = 1 \/ actSize g = 2 \/ actSize g = 3)
    as [E|[E|[E|E]]] by lia; rewrite E;
    destruct L as [M|[M|[M|[M|[M|M]]]]]; rewrite M;
    split; vm_compute; reflexivity.
Qed.

(** X15. On binary64 the two tempo keys undo each other on the ladder:
    slower after faster gives the tempo back unless it was 4, where
    faster changes nothing; faster after slower gives it back unless it
    was 0.25, where slower changes nothing. With both keys held in one
    tick the tempo is unchanged, except that 4 drops to 3. *)
Theorem tempo_keys_compose (g : @Game float) :
  tempo (spinc g) ->
  (spinc g <> 4%float -> spinc (pressF2 (pressF1 g)) = spinc g) /\
  (spinc g = 4%float -> spinc (pressF1 g) = 4%float) /\
  (spinc g <> 0.25%float -> spinc (pressF1 (pressF2 g)) = spinc g) /\
  (spinc g = 0.25%float -> spinc (pressF2 g) = 0.25%float) /\
  spinc (Update g true true)
  = (if PrimFloat.eqb (spinc g) 4 then 3%float else spinc g).
Proof.
  intros Ht. pose proof (tempo_ladder _ Ht) as L.
  rewrite spinc_Update, !spinc_pressF2, !spinc_pressF1, !spinc_pressF2.
  destruct L as [M|[M|[M|[M|[M|M]]]]]; rewrite M;
    (split; [intros N; try (exfalso; apply N; reflexivity);
             vm_compute; reflexivity|]);
    (split; [intros N; vm_compute; vm_compute in N;
             first [reflexivity|discriminate N]|]);
    (split; [intros N; try (exfalso; apply N; reflexivity);
             vm_compute; reflexivity|]);
    (split; [intros N; vm_compute; vm_compute in N;
             first [reflexivity|discriminate N]|]);
    vm_compute; reflexivity.
Qed.

Lemma tempo_keys_compose_witness :
  spinc (Update (@blankInSpanGame float _) true true) = 1%float.
Proof.
  destruct (tempo_keys_compose (@blankInSpanGame float _)) as [_ [_ [_ [_ H]]]].
  - destruct (NewGameWith_timing (F:=float) blankInSpan fontSheet) as [E _].
    unfold blankInSpanGame. rewrite E. apply (tempo_start (F:=float)).
  - exact H.
Defined.

(** ** Positions in exact arithmetic *)

Section ExactPositions.
Local Open Scope Q_scope.









End ExactPositions.

(** ** The resolver under phase lock *)

Section Geometry.
Context {F : Type} {FO : Float64 F}.




End Geometry.

Section Lookahead.
Local Open Scope Q_scope.





End Lookahead.

(** ** The raster positions *)

Lemma even_wrap64 (z : Z) : Z.even (wrap64 z) = Z.even z.
Proof.
  unfold wrap64. rewrite Z.mod_eq by lia.
  rewrite Z.even_sub, Z.even_sub, Z.even_add, Z.even_mul.
  change (Z.even (2 ^ 63)) with true. change (Z.even (2 ^ 64)) with true.
  simpl. now destruct (Z.even z).
Qed.

Lemma rem2_even (v : Z) : (Z.rem v 2 =? 0) = Z.even v.
Proof.
  pose proof (Z.quot_rem' v 2) as Q.
  destruct (Z.even v) eqn:E.
  - apply Z.eqb_eq. apply Z.even_spec in E as [k ->].
    rewrite Z.mul_comm. apply Z.rem_mul. lia.
  - apply Z.eqb_neq. intros R.
    assert (Ev : Z.even v = true)
      by (apply Z.even_spec; exists (Z.quot v 2); lia).
    congruence.
Qed.

Lemma stepY_float (a : nat) :
  (a < 164)%nat ->
  (let y := PrimFloat.add (IEEE.float_of_int (4 * Z.of_nat a)) (IEEE.float_of_int 4) in
   if PrimFloat.leb (IEEE.float_of_int 654) y then IEEE.float_of_int 0 else y)
  = IEEE.float_of_int (4 * ((Z.of_nat a + 1) mod 164)).
Proof.
  intros H.
  do 164 (destruct a as [|a]; [vm_compute; reflexivity|]). lia.
Qed.

Lemma stepY2_float (c : nat) :
  (c < 100)%nat ->
  (let y := PrimFloat.sub (IEEE.float_of_int (200 - 2 * Z.of_nat c)) (IEEE.float_of_int 2) in
   if PrimFloat.leb y (IEEE.float_of_int 0) then IEEE.float_of_int 200 else y)
  = IEEE.float_of_int (200 - 2 * ((Z.of_nat c + 1) mod 100)).
Proof.
  intros H.
  do 100 (destruct c as [|c]; [vm_compute; reflexivity|]). lia.
Qed.

(** The raster after [n] ticks, in closed form. *)
Lemma raster_closed_form (n : nat) :
  let r := Nat.iter n rasterTick (@newRaster float _) in
  Z.even (vbl r) = Nat.even n /\
  posY r = IEEE.float_of_int (4 * (Z.of_nat (n / 2) mod 164)) /\
  posY2 r = IEEE.float_of_int (200 - 2 * (Z.of_nat (n / 2) mod 100)).
Proof.
  induction n as [|n IH]; [repeat split|].
  destruct IH as [Hv [Hy Hy2]].
  set (r := Nat.iter n rasterTick (@newRaster float _)) in *.
  change (Nat.iter (S n) rasterTick newRaster) with (rasterTick r).
  cbv zeta. unfold rasterTick.
  assert (P : Z.even (wrap64 (vbl r + 1)) = negb (Nat.even n)).
  { rewrite even_wrap64, Z.add_1_r, Z.even_succ, <- Z.negb_even, Hv.
    reflexivity. }
  rewrite rem2_even, P. rewrite Nat.even_succ, <- Nat.negb_even.
  destruct (Nat.even n) eqn:En; simpl negb; cbv iota; cbn [vbl posY posY2];
    (split; [exact P|]).
  - (* [n + 1] is odd: the positions stay *)
    assert (E : (S n / 2 = n / 2)%nat).
    { apply Nat.even_spec in En as [k ->].
      replace (S (2 * k)) with (1 + k * 2)%nat by lia.
      rewrite Nat.div_add by lia. rewrite Nat.mul_comm, Nat.div_mul by lia.
      reflexivity. }
    rewrite E. split; assumption.
  - (* [n + 1] is even: both positions move *)
    assert (On : Nat.odd n = true) by (rewrite <- Nat.negb_even, En; reflexivity).
    assert (E : (S n / 2 = n / 2 + 1)%nat).
    { apply Nat.odd_spec in On as [k ->].
      replace (S (2 * k + 1)) with ((k + 1) * 2)%nat by lia.
      rewrite Nat.div_mul by lia.
      replace (2 * k + 1)%nat with (1 + k * 2)%nat by lia.
      rewrite Nat.div_add by lia. reflexivity. }
    rewrite E, Hy, Hy2. cbn [fadd fsub fle of_int IEEE.float64].
    set (m := (n / 2)%nat).
    pose proof (Z.mod_pos_bound (Z.of_nat m) 164 ltac:(lia)) as Ba.
    pose proof (Z.mod_pos_bound (Z.of_nat m) 100 ltac:(lia)) as Bc.
    pose proof (stepY_float (Z.to_nat (Z.of_nat m mod 164)) ltac:(lia)) as Sy.
    pose proof (stepY2_float (Z.to_nat (Z.of_nat m mod 100)) ltac:(lia)) as Sy2.
    rewrite Z2Nat.id in Sy, Sy2 by lia. cbv zeta in Sy, Sy2.
    rewrite Sy, Sy2.
    rewrite Nat2Z.inj_add. change (Z.of_nat 1) with 1.
    rewrite (Z.add_mod_idemp_l (Z.of_nat m) 1 164) by lia.
    rewrite (Z.add_mod_idemp_l (Z.of_nat m) 1 100) by lia.
    split; reflexivity.
Qed.

(** X19. On binary64 the raster positions of a new game are, after [n]
    ticks, [posY = 4 * ((n / 2) mod 164)] and
    [posY2 = 200 - 2 * ((n / 2) mod 100)]: they move every second tick,
    [posY] runs through the multiples of 4 from 0 to 652 and [posY2]
    through the even numbers from 200 down to 2, and both are back where
    they were after 8200 more ticks. *)
Theorem raster_positions (n : nat) :
  let r := Nat.iter n rasterTick (@newRaster float _) in
  let later := Nat.iter (n + Z.to_nat 8200) rasterTick (@newRaster float _) in
  let a := Z.of_nat (n / 2) mod 164 in
  let c := Z.of_nat (n / 2) mod 100 in
  posY r = IEEE.float_of_int (4 * a) /\
  posY2 r = IEEE.float_of_int (200 - 2 * c) /\
  0 <= 4 * a <= 652 /\ 2 <= 200 - 2 * c <= 200 /\
  posY later = posY r /\ posY2 later = posY2 r.
Proof.
  intros r later a c.
  destruct (raster_closed_form n) as [_ [Hy Hy2]].
  destruct (raster_closed_form (n + Z.to_nat 8200)) as [_ [Ky Ky2]].
  cbv zeta in Hy, Hy2, Ky, Ky2. fold r in Hy, Hy2. fold later in Ky, Ky2.
  pose proof (Z.mod_pos_bound (Z.of_nat (n / 2)) 164 ltac:(lia)) as Ba.
  pose proof (Z.mod_pos_bound (Z.of_nat (n / 2)) 100 ltac:(lia)) as Bc.
  fold a in Ba, Hy. fold c in Bc, Hy2.
  assert (E : Z.of_nat ((n + Z.to_nat 8200) / 2) = Z.of_nat (n / 2) + 4100).
  { rewrite !Nat2Z.inj_div, Nat2Z.inj_add, Z2Nat.id by lia.
    change (Z.of_nat 2) with 2.
    replace 8200 with (4100 * 2) by reflexivity.
    now rewrite Z.div_add by lia. }
  rewrite E in Ky, Ky2.
  replace 4100 with (25 * 164) in Ky by reflexivity.
  replace 4100 with (41 * 100) in Ky2 by reflexivity.
  rewrite Z.mod_add in Ky, Ky2 by lia.
  fold a in Ky. fold c in Ky2.
  rewrite Ky, Ky2, Hy, Hy2.
  repeat split; lia.
Qed.

(** ** Blitting: [drawPart] and the layers of [Draw] *)

Lemma upTo_spec (n j : Z) : In j (upTo n) <-> 0 <= j < n.
Proof.
  unfold upTo. rewrite in_map_iff. split.
  - intros [k [<- Hk]]. apply in_seq in Hk. lia.
  - intros H. exists (Z.to_nat j). split; [lia|apply in_seq; lia].
Qed.

Lemma length_upTo (n : Z) : List.length (upTo n) = Z.to_nat n.
Proof. unfold upTo. now rewrite length_map, length_seq. Qed.

Lemma upTo_nil (n : Z) : upTo n = [] <-> n <= 0.
Proof.
  split; intros H.
  - apply (f_equal (@List.length Z)) in H. rewrite length_upTo in H. simpl in H. lia.
  - apply length_zero_iff_nil. rewrite length_upTo. lia.
Qed.

Lemma flat_map_nil_iff {A B : Type} (f : A -> list B) (l : list A) :
  flat_map f l = [] <-> forall a, In a l -> f a = [].
Proof.
  induction l as [|a l IH]; simpl.
  - split; [intros _ a []|reflexivity].
  - split.
    + intros H. apply app_eq_nil in H as [H1 H2].
      intros b [<-|Hb]; [exact H1|now apply IH].
    + intros H. rewrite (H a (or_introl eq_refl)).
      apply IH. intros b Hb. apply H. now right.
Qed.

Lemma length_flat_map_const {A B : Type} (f : A -> list B) (l : list A) (c : nat) :
  (forall a, In a l -> List.length (f a) = c) ->
  List.length (flat_map f l) = (List.length l * c)%nat.
Proof.
  induction l as [|a l IH]; intros H; simpl; [reflexivity|].
  rewrite length_app, (H a (or_introl eq_refl)), IH; [reflexivity|].
  intros b Hb. apply H. now right.
Qed.

Section DrawPart.
Context {F : Type}.
Variables (src : @Image F) (dx dy sx sy sw sh param8 param9 tileX tileY : Z).

(** The guard of [drawPart] on the source rectangle. *)
Let inBounds : bool :=
  (maxX (imageRect sx sy (wrap64 (sx + sw)) (wrap64 (sy + sh))) <=? Dx src)
  && (maxY (imageRect sx sy (wrap64 (sx + sw)) (wrap64 (sy + sh))) <=? Dy src).

Let tile (jx jy : Z) : Blit :=
  mkBlit (imageRect sx sy (wrap64 (sx + sw)) (wrap64 (sy + sh)))
         (wrap64 (dx + wrap64 (jx * sw))) (wrap64 (dy + wrap64 (jy * sh))).

Lemma drawPart_inBounds :
  inBounds = true ->
  drawPart src dx dy sx sy sw sh param8 param9 tileX tileY
  = flat_map (fun jy => map (fun jx => tile jx jy) (upTo tileX)) (upTo tileY).
Proof.
  intros H. unfold drawPart. cbv zeta. fold inBounds. rewrite H.
  apply flat_map_ext. intros jy.
  induction (upTo tileX) as [|jx l IH]; simpl; [reflexivity|].
  now rewrite IH.
Qed.

Lemma drawPart_outOfBounds :
  inBounds = false ->
  drawPart src dx dy sx sy sw sh param8 param9 tileX tileY = [].
Proof.
  intros H. unfold drawPart. cbv zeta. fold inBounds. rewrite H.
  apply flat_map_nil_iff. intros jy _.
  apply flat_map_nil_iff. reflexivity.
Qed.

Lemma drawPart_In (b : Blit) :
  inBounds = true ->
  In b (drawPart src dx dy sx sy sw sh param8 param9 tileX tileY)
  <-> exists jx jy, 0 <= jx < tileX /\ 0 <= jy < tileY /\ b = tile jx jy.
Proof.
  intros H. rewrite (drawPart_inBounds H), in_flat_map. split.
  - intros [jy [Hy Hb]]. apply in_map_iff in Hb as [jx [<- Hx]].
    exists jx, jy. rewrite <- !upTo_spec. auto.
  - intros [jx [jy [Hx [Hy ->]]]]. exists jy.
    rewrite in_map_iff, !upTo_spec. split; [exact Hy|].
    exists jx. rewrite upTo_spec. auto.
Qed.

Lemma drawPart_length :
  inBounds = true ->
  List.length (drawPart src dx dy sx sy sw sh param8 param9 tileX tileY)
  = (Z.to_nat tileY * Z.to_nat tileX)%nat.
Proof.
  intros H. rewrite (drawPart_inBounds H).
  rewrite (length_flat_map_const _ _ (Z.to_nat tileX)).
  - now rewrite length_upTo.
  - intros jy _. now rewrite length_map, length_upTo.
Qed.

(** With small coordinates nothing wraps: the guard is the plain
    comparison and the tile [(jx, jy)] lands at
    [(dx + jx * sw, dy + jy * sh)]. *)
Hypothesis small :
  smallInt dx /\ smallInt dy /\ smallInt sx /\ smallInt sy /\
  smallInt sw /\ smallInt sh /\ smallInt tileX /\ smallInt tileY.
Hypothesis size : 0 <= sw /\ 0 <= sh.

Lemma smallInt_product (j w n : Z) :
  smallInt w -> smallInt n -> 0 <= w -> 0 <= j < n ->
  0 <= j * w <= 2 ^ 60.
Proof.
  unfold smallInt. intros Hw Hn W J.
  change (2 ^ 60) with (2 ^ 30 * 2 ^ 30). split; nia.
Qed.

Lemma smallInt_sum (a b : Z) :
  smallInt a -> - 2 ^ 60 <= b <= 2 ^ 60 -> wrap64 (a + b) = a + b.
Proof.
  unfold smallInt. intros Ha Hb. apply wrap64_small.
  unfold in_int64, min_int64, max_int64.
  change (2 ^ 60) with 1152921504606846976 in Hb.
  change (2 ^ 30) with 1073741824 in Ha.
  change (2 ^ 63) with 9223372036854775808. lia.
Qed.

Lemma smallInt_wide (z : Z) : smallInt z -> - 2 ^ 60 <= z <= 2 ^ 60.
Proof.
  unfold smallInt.
  change (2 ^ 60) with 1152921504606846976.
  change (2 ^ 30) with 1073741824. lia.
Qed.

Lemma subRect_small :
  imageRect sx sy (wrap64 (sx + sw)) (wrap64 (sy + sh))
  = mkRectangle sx sy (sx + sw) (sy + sh).
Proof.
  destruct small as [_ [_ [X [Y [W [H _]]]]]]. destruct size as [W0 H0].
  rewrite (smallInt_sum _ _ X (smallInt_wide _ W)), (smallInt_sum _ _ Y (smallInt_wide _ H)).
  unfold imageRect. f_equal; lia.
Qed.

Lemma inBounds_small :
  inBounds = true <-> sx + sw <= Dx src /\ sy + sh <= Dy src.
Proof.
  unfold inBounds. rewrite subRect_small. cbn [maxX maxY].
  rewrite andb_true_iff, !Z.leb_le. reflexivity.
Qed.

Lemma tile_small (jx jy : Z) :
  0 <= jx < tileX -> 0 <= jy < tileY ->
  tile jx jy
  = mkBlit (mkRectangle sx sy (sx + sw) (sy + sh))
           (dx + jx * sw) (dy + jy * sh).
Proof.
  intros Hx Hy. unfold tile. rewrite subRect_small.
  destruct small as [DX [DY [_ [_ [W [H [TX TY]]]]]]]. destruct size as [W0 H0].
  pose proof (smallInt_product _ _ _ W TX W0 Hx) as Px.
  pose proof (smallInt_product _ _ _ H TY H0 Hy) as Py.
  assert (Ex : wrap64 (jx * sw) = jx * sw).
  { rewrite <- (Z.add_0_l (jx * sw)). apply smallInt_sum; [|lia].
    unfold smallInt. lia. }
  assert (Ey : wrap64 (jy * sh) = jy * sh).
  { rewrite <- (Z.add_0_l (jy * sh)). apply smallInt_sum; [|lia].
    unfold smallInt. lia. }
  rewrite Ex, Ey, (smallInt_sum _ _ DX), (smallInt_sum _ _ DY) by lia.
  reflexivity.
Qed.

Lemma drawPart_small_In (b : Blit) :
  sx + sw <= Dx src -> sy + sh <= Dy src ->
  In b (drawPart src dx dy sx sy sw sh param8 param9 tileX tileY)
  <-> exists jx jy, 0 <= jx < tileX /\ 0 <= jy < tileY /\
        b = mkBlit (mkRectangle sx sy (sx + sw) (sy + sh))
                   (dx + jx * sw) (dy + jy * sh).
Proof.
  intros Bx By.
  assert (H : inBounds = true) by (apply inBounds_small; auto).
  rewrite (drawPart_In b H).
  split; intros [jx [jy [Hx [Hy ->]]]]; exists jx, jy;
    (split; [exact Hx|split; [exact Hy|]]);
    [|symmetry]; now apply tile_small.
Qed.

Lemma drawPart_covers (x y : Z) :
  0 < sw -> 0 < sh ->
  sx + sw <= Dx src -> sy + sh <= Dy src ->
  (dx <= x < dx + tileX * sw /\ dy <= y < dy + tileY * sh)
  <-> exists b,
        In b (drawPart src dx dy sx sy sw sh param8 param9 tileX tileY)
        /\ covers b x y.
Proof.
  intros W0 H0 Bx By. split.
  - intros [Hx Hy].
    exists (mkBlit (mkRectangle sx sy (sx + sw) (sy + sh))
                   (dx + (x - dx) / sw * sw) (dy + (y - dy) / sh * sh)).
    pose proof (Z.div_mod (x - dx) sw ltac:(lia)) as Dx'.
    pose proof (Z.mod_pos_bound (x - dx) sw W0) as Mx.
    pose proof (Z.div_mod (y - dy) sh ltac:(lia)) as Dy'.
    pose proof (Z.mod_pos_bound (y - dy) sh H0) as My.
    split.
    + apply (drawPart_small_In _ Bx By).
      exists ((x - dx) / sw), ((y - dy) / sh).
      split; [|split; [|reflexivity]].
      * split; [apply Z.div_pos; lia|apply Z.div_lt_upper_bound; lia].
      * split; [apply Z.div_pos; lia|apply Z.div_lt_upper_bound; lia].
    + unfold covers. cbn [atX atY part minX maxX minY maxY]. lia.
  - intros [b [Hb [Cx Cy]]].
    apply (drawPart_small_In _ Bx By) in Hb as [jx [jy [Hx [Hy ->]]]].
    cbn [atX atY part minX maxX minY maxY] in Cx, Cy. split; nia.
Qed.

Lemma drawPart_covers_once (b1 b2 : Blit) (x y : Z) :
  sx + sw <= Dx src -> sy + sh <= Dy src ->
  In b1 (drawPart src dx dy sx sy sw sh param8 param9 tileX tileY) ->
  In b2 (drawPart src dx dy sx sy sw sh param8 param9 tileX tileY) ->
  covers b1 x y -> covers b2 x y -> b1 = b2.
Proof.
  intros Bx By H1 H2 [C1x C1y] [C2x C2y].
  apply (drawPart_small_In _ Bx By) in H1 as [jx [jy [Hx [Hy ->]]]].
  apply (drawPart_small_In _ Bx By) in H2 as [kx [ky [Kx [Ky ->]]]].
  cbn [atX atY part minX maxX minY maxY] in C1x, C1y, C2x, C2y.
  assert (jx = kx) by nia. assert (jy = ky) by nia. now subst.
Qed.

End DrawPart.

(** X20. When the source rectangle lies within the source image,
    [drawPart] blits it [tileX * tileY] times and the copies tile the
    destination rectangle [tileX * sw] wide and [tileY * sh] high at
    [(dx, dy)]: every pixel of it lies under exactly one copy and no
    copy reaches outside it. *)
Theorem drawPart_tiles {F : Type} (src : @Image F)
    (dx dy sx sy sw sh param8 param9 tileX tileY : Z) :
  (smallInt dx /\ smallInt dy /\ smallInt sx /\ smallInt sy /\
   smallInt sw /\ smallInt sh /\ smallInt tileX /\ smallInt tileY) ->
  0 < sw -> 0 < sh -> 0 <= sx -> 0 <= sy ->
  sx + sw <= Dx src -> sy + sh <= Dy src ->
  let drawn := drawPart src dx dy sx sy sw sh param8 param9 tileX tileY in
  List.length drawn = (Z.to_nat tileY * Z.to_nat tileX)%nat /\
  (forall b, In b drawn -> part b = mkRectangle sx sy (sx + sw) (sy + sh)) /\
  (forall x y,
     (dx <= x < dx + tileX * sw /\ dy <= y < dy + tileY * sh)
     <-> exists b, In b drawn /\ covers b x y) /\
  (forall b1 b2 x y,
     In b1 drawn -> In b2 drawn -> covers b1 x y -> covers b2 x y ->
     b1 = b2).
Proof.
  intros small W0 H0 _ _ Bx By drawn. subst drawn.
  assert (size : 0 <= sw /\ 0 <= sh) by lia.
  split; [|split; [|split]].
  - apply drawPart_length. eapply inBounds_small; eauto.
  - intros b Hb.
    eapply drawPart_small_In in Hb; eauto.
    destruct Hb as [jx [jy [_ [_ ->]]]]. reflexivity.
  - intros x y. now apply drawPart_covers.
  - intros b1 b2 x y. now apply drawPart_covers_once.
Qed.

(** X21. [drawPart] draws nothing exactly when a tile count is not
    positive or the source rectangle reaches beyond the right or lower
    edge of the source image: a rectangle that does not fit is skipped,
    never clipped. *)
Theorem drawPart_draws_nothing {F : Type} (src : @Image F)
    (dx dy sx sy sw sh param8 param9 tileX tileY : Z) :
  let subRect := imageRect sx sy (wrap64 (sx + sw)) (wrap64 (sy + sh)) in
  drawPart src dx dy sx sy sw sh param8 param9 tileX tileY = []
  <-> tileX <= 0 \/ tileY <= 0 \/
      Dx src < maxX subRect \/ Dy src < maxY subRect.
Proof.
  cbv zeta.
  destruct ((maxX (imageRect sx sy (wrap64 (sx + sw)) (wrap64 (sy + sh)))
               <=? Dx src)
            && (maxY (imageRect sx sy (wrap64 (sx + sw)) (wrap64 (sy + sh)))
               <=? Dy src)) eqn:G.
  - pose proof G as G'. apply andb_true_iff in G' as [Gx Gy].
    apply Z.leb_le in Gx, Gy.
    split.
    + intros E.
      pose proof (drawPart_length src dx dy sx sy sw sh param8 param9
                    tileX tileY G) as L.
      rewrite E in L. simpl in L.
      destruct (Z_le_gt_dec tileX 0); [now left|].
      destruct (Z_le_gt_dec tileY 0); [now right; left|]. nia.
    + intros [T|[T|[T|T]]]; try lia;
        rewrite (drawPart_inBounds src dx dy sx sy sw sh param8 param9
                   tileX tileY G).
      * apply flat_map_nil_iff. intros jy _.
        apply (proj2 (upTo_nil tileX)) in T. now rewrite T.
      * apply (proj2 (upTo_nil tileY)) in T. now rewrite T.
  - split.
    + intros _. apply andb_false_iff in G as [G|G]; apply Z.leb_gt in G;
        [right; right; left|right; right; right]; exact G.
    + intros _. now apply drawPart_outOfBounds.
Qed.

Lemma drawPart_tiles_witness :
  List.length (drawPart (@mkImage float 2 200 []) 0 (-130) 0 0 2 200 1 0 320 1)
  = 320%nat.
Proof.
  assert (small : smallInt 0 /\ smallInt (-130) /\ smallInt 0 /\ smallInt 0 /\
                  smallInt 2 /\ smallInt 200 /\ smallInt 320 /\ smallInt 1)
    by (unfold smallInt; repeat split; lia).
  destruct (drawPart_tiles (@mkImage float 2 200 []) 0 (-130) 0 0 2 200 1 0 320 1
              small ltac:(lia) ltac:(lia) ltac:(lia) ltac:(lia)
              ltac:(cbn [Dx]; lia) ltac:(cbn [Dy]; lia))
    as [L _].
  exact L.
Defined.

(** ** The raster layers and the scroll rows of [Draw] *)

Lemma trunc_posY (a : nat) :
  (a < 164)%nat ->
  trunc_int (IEEE.float_of_int (4 * Z.of_nat a)) = 4 * Z.of_nat a.
Proof.
  intros H.
  do 164 (destruct a as [|a]; [vm_compute; reflexivity|]). lia.
Qed.

Lemma trunc_posY2 (c : nat) :
  (c < 100)%nat ->
  trunc_int (IEEE.float_of_int (200 - 2 * Z.of_nat c)) = 200 - 2 * Z.of_nat c.
Proof.
  intros H.
  do 100 (destruct c as [|c]; [vm_compute; reflexivity|]). lia.
Qed.

Lemma smallInt_literal (z : Z) : - 1000 <= z <= 1000 -> smallInt z.
Proof. unfold smallInt. change (2 ^ 30) with 1073741824. lia. Qed.

Lemma wrap64_literal (z : Z) : - 2000 <= z <= 2000 -> wrap64 z = z.
Proof.
  intros H. apply wrap64_small. unfold in_int64, min_int64, max_int64.
  change (2 ^ 63) with 9223372036854775808. lia.
Qed.

Section Layers.
Context {F : Type}.
Variable src : @Image F.

(** One copy of the scroll raster, put at height [p]. *)
Let copy (p : Z) : list Blit := drawPart src 0 p 0 0 2 200 1 0 320 1.

Hypothesis wide : 2 <= Dx src.
Hypothesis high : 200 <= Dy src.

Lemma copy_small (p : Z) :
  - 1000 <= p <= 1000 ->
  smallInt 0 /\ smallInt p /\ smallInt 0 /\ smallInt 0 /\
  smallInt 2 /\ smallInt 200 /\ smallInt 320 /\ smallInt 1.
Proof. intros H. repeat split; apply smallInt_literal; lia. Qed.

Lemma copy_covers (p x y : Z) :
  - 1000 <= p <= 1000 ->
  (0 <= x < 640 /\ p <= y < p + 200)
  <-> exists b, In b (copy p) /\ covers b x y.
Proof.
  intros H. unfold copy.
  rewrite <- (drawPart_covers src 0 p 0 0 2 200 1 0 320 1 (copy_small p H))
    by lia.
  lia.
Qed.

Lemma copy_once (p : Z) (b1 b2 : Blit) (x y : Z) :
  - 1000 <= p <= 1000 ->
  In b1 (copy p) -> In b2 (copy p) -> covers b1 x y -> covers b2 x y ->
  b1 = b2.
Proof.
  intros H. unfold copy.
  apply (drawPart_covers_once src 0 p 0 0 2 200 1 0 320 1 (copy_small p H));
    lia.
Qed.

Lemma copies_cover (p x y : Z) :
  2 <= p <= 200 -> 0 <= x < 640 -> 0 <= y < 400 ->
  exists b,
    In b (copy (p - 200) ++ copy p ++ copy (p + 200))%list /\ covers b x y /\
    forall b', In b' (copy (p - 200) ++ copy p ++ copy (p + 200))%list ->
               covers b' x y -> b' = b.
Proof.
  intros P X Y.
  assert (R : forall q b', - 1000 <= q <= 1000 -> In b' (copy q) ->
                covers b' x y -> q <= y < q + 200).
  { intros q b' Q I C.
    apply (proj2 (copy_covers q x y Q)). exists b'. split; assumption. }
  assert (S : exists q, (q = p - 200 \/ q = p \/ q = p + 200) /\ q <= y < q + 200).
  { destruct (Z_lt_ge_dec y p); [exists (p - 200); lia|].
    destruct (Z_lt_ge_dec y (p + 200)); [exists p; lia|exists (p + 200); lia]. }
  destruct S as [q [Hq Yq]].
  assert (Q : - 1000 <= q <= 1000) by lia.
  destruct (proj1 (copy_covers q x y Q) (conj X Yq)) as [b [I C]].
  exists b. split; [|split; [exact C|]].
  - rewrite !in_app_iff.
    destruct Hq as [ -> | [ -> | -> ] ];
      [left|right; left|right; right]; exact I.
  - intros b' I' C'. rewrite !in_app_iff in I'.
    assert (I'' : In b' (copy q)).
    { destruct I' as [I'|[I'|I']];
        [pose proof (R (p - 200) b' ltac:(lia) I' C')
        |pose proof (R p b' ltac:(lia) I' C')
        |pose proof (R (p + 200) b' ltac:(lia) I' C')];
        (replace q with (p - 200) by lia) || (replace q with p by lia)
        || (replace q with (p + 200) by lia); exact I'. }
    exact (copy_once q b' b x y Q I'' I C' C).
Qed.

End Layers.

(** X22. With a scroll raster at least 2 pixels wide and 200 high, at
    every tick of a new game on binary64 the three copies [Draw] puts on
    the merge canvas cover each of its 640 x 400 pixels exactly once. *)
Theorem scrollRast_covers_canvas (scrollRast : @Image float) (n : nat)
    (x y : Z) :
  2 <= Dx scrollRast -> 200 <= Dy scrollRast ->
  0 <= x < 640 -> 0 <= y < 400 ->
  let drawn :=
    drawScrollRast scrollRast (Nat.iter n rasterTick (@newRaster float _)) in
  exists b,
    In b drawn /\ covers b x y /\
    forall b', In b' drawn -> covers b' x y -> b' = b.
Proof.
  intros W H X Y.
  destruct (raster_closed_form n) as [_ [_ Hy2]]. cbv zeta in Hy2 |- *.
  unfold drawScrollRast. rewrite Hy2.
  pose proof (Z.mod_pos_bound (Z.of_nat (n / 2)) 100 ltac:(lia)) as Bc.
  pose proof (trunc_posY2 (Z.to_nat (Z.of_nat (n / 2) mod 100)) ltac:(lia)) as T.
  rewrite Z2Nat.id in T by lia. rewrite T.
  rewrite !wrap64_literal by lia.
  apply copies_cover; (assumption || lia).
Qed.

Lemma scrollRast_covers_canvas_witness :
  exists b,
    In b (drawScrollRast (@mkImage float 2 200 [])
            (Nat.iter 7 rasterTick (@newRaster float _)))
    /\ covers b 100 399.
Proof.
  destruct (scrollRast_covers_canvas (@mkImage float 2 200 []) 7 100 399
              ltac:(cbn [Dx]; lia) ltac:(cbn [Dy]; lia) ltac:(lia) ltac:(lia))
    as [b [I [C _]]].
  exists b. split; [exact I|exact C].
Defined.

(** X24. With a background raster at least 1 pixel wide and 728 high, at
    every tick of a new game on binary64 [Draw] draws all eleven bars,
    768 blits each; they cover the band of the screen from row 62 to row
    457, 768 pixels wide, and bar [j] shows the 36 raster rows from
    [posY + 4 * j] on. *)
Theorem backRast_bars (backRast : @Image float) (n : nat) :
  1 <= Dx backRast -> 728 <= Dy backRast ->
  let r := Nat.iter n rasterTick (@newRaster float _) in
  let drawn := drawBackRast backRast r in
  let top := 4 * (Z.of_nat (n / 2) mod 164) in
  List.length drawn = (11 * 768)%nat /\
  (forall b, In b drawn ->
     exists j, 0 <= j < 11 /\
       part b = mkRectangle 0 (top + 4 * j) 1 (top + 4 * j + 36) /\
       atY b = 62 + 36 * j /\ 0 <= atX b < 768) /\
  (forall x y,
     (0 <= x < 768 /\ 62 <= y < 458) <-> exists b, In b drawn /\ covers b x y).
Proof.
  intros W H.
  destruct (raster_closed_form n) as [_ [Hy _]]. cbv zeta in Hy |- *.
  unfold drawBackRast. rewrite Hy.
  pose proof (Z.mod_pos_bound (Z.of_nat (n / 2)) 164 ltac:(lia)) as Ba.
  pose proof (trunc_posY (Z.to_nat (Z.of_nat (n / 2) mod 164)) ltac:(lia)) as T.
  rewrite Z2Nat.id in T by lia. rewrite T.
  set (a := Z.of_nat (n / 2) mod 164) in *.
  assert (small : forall j, 0 <= j < 11 ->
            smallInt 0 /\ smallInt (60 + 2 + j * 36) /\ smallInt 0 /\
            smallInt (4 * a + j * 4) /\ smallInt 1 /\ smallInt 36 /\
            smallInt 768 /\ smallInt 1).
  { intros j J. repeat split; apply smallInt_literal; lia. }
  assert (E : forall j, 0 <= j < 11 -> wrap64 (4 * a + j * 4) = 4 * a + j * 4).
  { intros j J. apply wrap64_literal. lia. }
  split; [|split].
  - rewrite (length_flat_map_const _ _ 768%nat).
    + now rewrite length_upTo.
    + intros j J. apply upTo_spec in J. cbv zeta. rewrite (E j J).
      rewrite drawPart_length; [reflexivity|].
      eapply inBounds_small; [apply (small j J)|lia|lia].
  - intros b Hb. apply in_flat_map in Hb as [j [J Hb]].
    apply upTo_spec in J. cbv zeta in Hb. rewrite (E j J) in Hb.
    eapply drawPart_small_In in Hb; [|apply (small j J)|lia|lia|lia].
    destruct Hb as [jx [jy [Jx [Jy ->]]]].
    exists j. cbn [part atX atY]. split; [exact J|].
    split; [f_equal; lia|]. split; lia.
  - intros x y. split.
    + intros [X Y].
      assert (J : 0 <= (y - 62) / 36 < 11).
      { split; [apply Z.div_pos; lia|apply Z.div_lt_upper_bound; lia]. }
      pose proof (Z.div_mod (y - 62) 36 ltac:(lia)) as D.
      pose proof (Z.mod_pos_bound (y - 62) 36 ltac:(lia)) as M.
      set (j := (y - 62) / 36) in *.
      destruct (proj1 (drawPart_covers backRast 0 (60 + 2 + j * 36) 0
                         (4 * a + j * 4) 1 36 1 0 768 1 (small j J)
                         ltac:(lia) x y ltac:(lia) ltac:(lia)
                         ltac:(lia) ltac:(lia)) ltac:(lia))
        as [b [I C]].
      exists b. split; [|exact C].
      apply in_flat_map. exists j. split; [now apply upTo_spec|].
      cbv zeta. now rewrite (E j J).
    + intros [b [I C]]. apply in_flat_map in I as [j [J I]].
      apply upTo_spec in J. cbv zeta in I. rewrite (E j J) in I.
      pose proof (proj2 (drawPart_covers backRast 0 (60 + 2 + j * 36) 0
                         (4 * a + j * 4) 1 36 1 0 768 1 (small j J)
                         ltac:(lia) x y ltac:(lia) ltac:(lia)
                         ltac:(lia) ltac:(lia))
                    (ex_intro _ b (conj I C))) as R.
      lia.
Qed.

Lemma backRast_bars_witness :
  List.length (drawBackRast (@mkImage float 1 728 [])
                 (Nat.iter 9 rasterTick (@newRaster float _)))
  = (11 * 768)%nat.
Proof.
  destruct (backRast_bars (@mkImage float 1 728 []) 9
              ltac:(cbn [Dx]; lia) ltac:(cbn [Dy]; lia)) as [L _].
  exact L.
Defined.

Section ScrollRows.
Context {F : Type} {FO : Float64 F}.

Lemma canvases_run (message : string) (font : @Image F)
    (keys : list (bool * bool)) :
  let g := run (NewGameWith message font) keys in
  (Dx (canvas (scrollText1 g)) = 640 /\ Dy (canvas (scrollText1 g)) = 32) /\
  (Dx (canvas (scrollText2 g)) = 640 /\ Dy (canvas (scrollText2 g)) = 64) /\
  (Dx (canvas (scrollText3 g)) = 640 /\ Dy (canvas (scrollText3 g)) = 128) /\
  (Dx (canvas (scrollText4 g)) = 640 /\ Dy (canvas (scrollText4 g)) = 384).
Proof.
  intros g.
  destruct (sameTracks_run (NewGameWith message font) keys)
    as [T1 [T2 [T3 T4]]].
  fold g in T1, T2, T3, T4.
  destruct (NewGameWith_tiers message font)
    as [v1 [v2 [v3 [v4 [E1 [E2 [E3 E4]]]]]]].
  cbv zeta in E1, E2, E3, E4.
  unfold sameTrack in T1, T2, T3, T4.
  rewrite E1 in T1. rewrite E2 in T2. rewrite E3 in T3. rewrite E4 in T4.
  cbn in T1, T2, T3, T4.
  repeat split; intuition congruence.
Qed.

(** X23. In every state a run of the game reaches, [Draw] puts
    [rowCount] rows of the active tier on the off-screen canvas (11, 6,
    3 or 1): each is the whole 640 pixel wide scroll canvas of that
    tier, lies within the 400 rows of the off-screen canvas, and no two
    rows overlap. *)
Theorem scroll_rows_layout (message : string) (font : @Image F)
    (keys : list (bool * bool)) :
  let g := run (NewGameWith message font) keys in
  let rows := drawScrollRows g in
  let h := rowHeight (actSize g) in
  List.length rows = Z.to_nat (rowCount (actSize g)) /\
  (forall b, In b rows ->
     part b = mkRectangle 0 0 640 h /\ atX b = 0 /\
     0 <= atY b /\ atY b + h <= 400) /\
  (forall b1 b2, In b1 rows -> In b2 rows ->
     b1 = b2 \/ atY b1 + h <= atY b2 \/ atY b2 + h <= atY b1).
Proof.
  intros g rows h.
  destruct (speedsFollowTable_run message font keys) as [V _]. fold g in V.
  destruct (canvases_run message font keys)
    as [[X1 Y1] [[X2 Y2] [[X3 Y3] [X4 Y4]]]].
  fold g in X1, Y1, X2, Y2, X3, Y3, X4, Y4.
  subst rows h. unfold drawScrollRows, drawPart.
  rewrite X1, Y1, X2, Y2, X3, Y3, X4, Y4.
  assert (A : actSize g = 0 \/ actSize g = 1 \/ actSize g = 2 \/ actSize g = 3)
    by (unfold validTier in V; lia).
  destruct A as [A|[A|[A|A]]]; rewrite A; cbv iota beta;
    match goal with
    | |- context [List.length ?t] =>
        let v := eval vm_compute in t in change t with v
    end;
    cbn [rowHeight rowCount];
    (split; [reflexivity|split]).
  all: match goal with
       | |- forall b, In b _ -> _ /\ _ =>
           intros b Hb; cbn [In] in Hb;
           repeat (destruct Hb as [<-|Hb];
                   [cbn [part atX atY]; repeat split; lia|]);
           destruct Hb
       | |- forall b1 b2, _ =>
           intros b1 b2 H1 H2; cbn [In] in H1, H2;
           repeat (destruct H1 as [<-|H1];
                   [repeat (destruct H2 as [<-|H2];
                            [cbn [atY];
                             first [left; reflexivity|right; lia]|]);
                    destruct H2|]);
           destruct H1
       end.
Qed.

End ScrollRows.

(** ** The music player *)

Import YM.

Lemma store_app {A : Type} (l1 r : list A) (x v : A) :
  store (l1 ++ x :: r) (List.length l1) v = Some (l1 ++ v :: r)%list.
Proof.
  induction l1 as [|a l1 IH]; simpl; [reflexivity|].
  now rewrite IH.
Qed.

Lemma length_pairs (ss : list Z) :
  List.length (pairs ss) = (List.length ss * 2)%nat.
Proof.
  induction ss as [|s ss IH]; simpl; [reflexivity|]. now rewrite IH.
Qed.

Lemma pairs_app (a b : list Z) : pairs (a ++ b) = (pairs a ++ pairs b)%list.
Proof. unfold pairs. apply flat_map_app. Qed.

Lemma zeroFrom_app (l1 l2 : list Z) :
  zeroFrom (List.length l1) (l1 ++ l2) = (l1 ++ repeat 0 (List.length l2))%list.
Proof.
  induction l1 as [|a l1 IH]; simpl.
  - induction l2 as [|b l2 IH2]; simpl; [reflexivity|].
    destruct l2; simpl in *; now rewrite ?IH2.
  - now rewrite IH.
Qed.

Lemma repeat_two (k : nat) :
  repeat 0 (2 * S k) = 0 :: 0 :: repeat 0 (2 * k).
Proof. replace (2 * S k)%nat with (S (S (2 * k))) by lia. reflexivity. Qed.

Lemma bytes_pairs (ss : list Z) :
  flat_map (fun sample => [lowByte sample; highByte sample]) (pairs ss)
  = flat_map frame ss.
Proof.
  induction ss as [|s ss IH]; simpl; [reflexivity|]. now rewrite IH.
Qed.

Lemma bytes_zeros (k : nat) :
  flat_map (fun sample => [lowByte sample; highByte sample]) (repeat 0 (2 * k))
  = repeat 0 (4 * k).
Proof.
  induction k as [|k IH]; [reflexivity|].
  rewrite repeat_two.
  replace (4 * S k)%nat with (S (S (S (S (4 * k))))) by lia.
  cbn [flat_map app]. rewrite IH. reflexivity.
Qed.

Lemma length_frames (ss : list Z) :
  List.length (flat_map frame ss) = (4 * List.length ss)%nat.
Proof.
  induction ss as [|s ss IH]; simpl; [reflexivity|]. rewrite IH. lia.
Qed.

Section Player.
Context {F : Type} {FO : Float64 F}.
Variable Decoder : Type.
Variable Compute : Decoder -> list Z -> Z -> Decoder * list Z * bool.

Lemma writeSamples_spec (y : @YMPlayer F Decoder) (samples done : list Z) (more : nat) :
  writeSamples Decoder y
    (pairs done ++ repeat 0 (2 * (List.length samples + more)))
    (List.length done) samples
  = Done (pairs (done ++ map (scaled Decoder y) samples) ++ repeat 0 (2 * more))%list.
Proof.
  revert done. induction samples as [|s rest IH]; intros done.
  - simpl. now rewrite app_nil_r.
  - cbn [writeSamples List.length map]. cbv zeta.
    change (S (List.length rest) + more)%nat
      with (S (List.length rest + more)).
    rewrite repeat_two.
    rewrite <- length_pairs, store_app.
    set (v := scaled Decoder y s).
    replace (List.length (pairs done) + 1)%nat
      with (List.length (pairs done ++ [v])%list)
      by (rewrite length_app; reflexivity).
    replace (pairs done ++ v :: 0 :: repeat 0 (2 * (List.length rest + more)))%list
      with ((pairs done ++ [v]) ++ 0 :: repeat 0 (2 * (List.length rest + more)))%list
      by (now rewrite <- app_assoc).
    rewrite store_app.
    replace ((pairs done ++ [v]) ++ v :: repeat 0 (2 * (List.length rest + more)))%list
      with (pairs (done ++ [v]) ++ repeat 0 (2 * (List.length rest + more)))%list
      by (rewrite pairs_app; simpl; now rewrite <- !app_assoc).
    replace (S (List.length done)) with (List.length (done ++ [v])%list)
      by (rewrite length_app; simpl; lia).
    rewrite IH. now rewrite <- app_assoc.
Qed.

(** The player keeps its buffer length, loop mode and volume. *)
Lemma readLoop_step (fuel : nat) (y : @YMPlayer F Decoder)
    (samplesNeeded processed : nat) (outBuffer : list Z) :
  readLoop Decoder Compute (S fuel) y samplesNeeded processed outBuffer
  = if (processed <? samplesNeeded)%nat then
      let chunkSize := (samplesNeeded - processed)%nat in
      let chunkSize :=
        if (List.length (buffer Decoder y) <? chunkSize)%nat
        then List.length (buffer Decoder y) else chunkSize in
      let '(decoder, filled, ok) :=
        Compute (player Decoder y) (firstn chunkSize (buffer Decoder y))
                (Z.of_nat chunkSize) in
      let y := mkYMPlayer Decoder decoder
                 (filled ++ skipn chunkSize (buffer Decoder y))%list
                 (position Decoder y) (loop Decoder y) (volume Decoder y) in
      if negb ok && negb (loop Decoder y) then
        Done (y, zeroFrom (processed * 2) outBuffer, true)
      else
        match writeSamples Decoder y outBuffer processed
                (firstn chunkSize (buffer Decoder y)) with
        | Done outBuffer =>
            let y := mkYMPlayer Decoder (player Decoder y) (buffer Decoder y)
                       (wrap64 (position Decoder y + Z.of_nat chunkSize))
                       (loop Decoder y) (volume Decoder y) in
            readLoop Decoder Compute fuel y samplesNeeded
                     (processed + chunkSize) outBuffer
        | Panic => Panic
        | OutOfFuel => OutOfFuel
        end
    else Done (y, outBuffer, false).
Proof. reflexivity. Qed.

Lemma readLoop_done (fuel : nat) (y : @YMPlayer F Decoder)
    (samplesNeeded processed : nat) (outBuffer : list Z) :
  (samplesNeeded <= processed)%nat ->
  readLoop Decoder Compute fuel y samplesNeeded processed outBuffer
  = Done (y, outBuffer, false).
Proof.
  intros H. apply Nat.ltb_ge in H. destruct fuel; cbn [readLoop]; now rewrite H.
Qed.

Lemma decode_step (fuel : nat) (y : @YMPlayer F Decoder) (remaining : nat) :
  decode Decoder Compute (S fuel) y (S remaining)
  = let chunkSize := Nat.min (S remaining) (List.length (buffer Decoder y)) in
    let '(decoder, filled, ok) :=
      Compute (player Decoder y) (firstn chunkSize (buffer Decoder y))
              (Z.of_nat chunkSize) in
    let y := mkYMPlayer Decoder decoder
               (filled ++ skipn chunkSize (buffer Decoder y))%list
               (position Decoder y) (loop Decoder y) (volume Decoder y) in
    if negb ok && negb (loop Decoder y) then ([], y, true)
    else
      let y' := mkYMPlayer Decoder (player Decoder y) (buffer Decoder y)
                  (wrap64 (position Decoder y + Z.of_nat chunkSize))
                  (loop Decoder y) (volume Decoder y) in
      let '(more, y'', eof) :=
        decode Decoder Compute fuel y' (S remaining - chunkSize) in
      ((map (scaled Decoder y) (firstn chunkSize (buffer Decoder y)) ++ more)%list,
       y'', eof).
Proof. reflexivity. Qed.

Lemma decode_zero (fuel : nat) (y : @YMPlayer F Decoder) :
  decode Decoder Compute fuel y 0 = ([], y, false).
Proof. destruct fuel; reflexivity. Qed.

Lemma chunk_min (a b : nat) :
  (if (b <? a)%nat then b else a) = Nat.min a b.
Proof. destruct (b <? a)%nat eqn:E; [apply Nat.ltb_lt in E|apply Nat.ltb_ge in E]; lia. Qed.

Lemma wrap64_idem_l (a b : Z) : wrap64 (wrap64 a + b) = wrap64 (a + b).
Proof.
  unfold wrap64. f_equal.
  replace ((a + 2 ^ 63) mod 2 ^ 64 - 2 ^ 63 + b + 2 ^ 63)
    with ((a + 2 ^ 63) mod 2 ^ 64 + b) by lia.
  rewrite Zplus_mod_idemp_l. f_equal. lia.
Qed.

Lemma wrap64_range (z : Z) : in_int64 (wrap64 z).
Proof.
  unfold in_int64, wrap64, min_int64, max_int64.
  pose proof (Z.mod_pos_bound (z + 2 ^ 63) (2 ^ 64) ltac:(lia)).
  change (2 ^ 64) with (2 * 2 ^ 63) in *. lia.
Qed.

Hypothesis fills : fillsSlice Decoder Compute.

Lemma filled_length (d : Decoder) (buf : list Z) (chunkSize : nat) (n : Z)
    (d' : Decoder) (filled : list Z) (ok : bool) :
  (chunkSize <= List.length buf)%nat ->
  Compute d (firstn chunkSize buf) n = (d', filled, ok) ->
  List.length filled = chunkSize /\
  List.length (filled ++ skipn chunkSize buf) = List.length buf /\
  firstn chunkSize (filled ++ skipn chunkSize buf) = filled.
Proof.
  intros H E.
  pose proof (fills d (firstn chunkSize buf) n) as L.
  rewrite E in L. cbn [fst snd] in L. rewrite length_firstn in L.
  assert (L' : List.length filled = chunkSize) by lia.
  split; [exact L'|split].
  - rewrite length_app, length_skipn. lia.
  - rewrite firstn_app, L', Nat.sub_diag, firstn_O, app_nil_r.
    apply firstn_all2. lia.
Qed.

Lemma decode_facts (fuel : nat) :
  forall (y : @YMPlayer F Decoder) (remaining : nat)
         (more : list Z) (y' : @YMPlayer F Decoder) (eof : bool),
  decode Decoder Compute fuel y remaining = (more, y', eof) ->
  (List.length more <= remaining)%nat /\ keeps Decoder y' y /\
  (eof = true -> loop Decoder y = false) /\
  (eof = false -> (remaining <= fuel)%nat -> buffer Decoder y <> [] ->
   in_int64 (position Decoder y) ->
   List.length more = remaining /\
   position Decoder y' = wrap64 (position Decoder y + Z.of_nat remaining)).
Proof.
  induction fuel as [|fuel IH]; intros y remaining more y' eof E.
  - assert (E' : ([], y, false) = (more, y', eof))
      by (destruct remaining; exact E).
    injection E' as <- <- <-.
    split; [simpl; lia|]. split; [repeat split|].
    split; [discriminate|].
    intros _ R _ P. assert (remaining = 0)%nat as -> by lia.
    split; [reflexivity|].
    rewrite Z.add_0_r. symmetry. now apply wrap64_small.
  - destruct remaining as [|r].
    + rewrite decode_zero in E.
      injection E as <- <- <-.
      split; [simpl; lia|]. split; [repeat split|].
      split; [discriminate|].
      intros _ _ _ P. split; [reflexivity|].
      rewrite Z.add_0_r. symmetry. now apply wrap64_small.
    + rewrite decode_step in E. cbv zeta in E.
      set (chunkSize := Nat.min (S r) (List.length (buffer Decoder y))) in *.
      destruct (Compute (player Decoder y)
                  (firstn chunkSize (buffer Decoder y)) (Z.of_nat chunkSize))
        as [[d filled] ok] eqn:EC.
      destruct (filled_length _ _ _ _ _ _ _
                  (Nat.le_min_r (S r) (List.length (buffer Decoder y))) EC)
        as [L1 [L2 L3]].
      fold chunkSize in L1, L2, L3.
      cbn [buffer loop volume position player] in E.
      destruct (negb ok && negb (loop Decoder y)) eqn:G.
      * injection E as <- <- <-.
        split; [simpl; lia|]. split; [repeat split; exact L2|].
        split; [|discriminate].
        intros _. apply andb_true_iff in G as [_ G].
        now apply negb_true_iff in G.
      * destruct (decode Decoder Compute fuel _ (S r - chunkSize))
          as [[more' y''] eof'] eqn:ED.
        injection E as <- <- <-.
        destruct (IH _ _ _ _ _ ED) as [A [[B1 [B2 B3]] [C D]]].
        cbn [buffer loop volume position player] in A, B1, B2, B3, C, D.
        rewrite L3.
        split; [rewrite length_app, length_map; lia|].
        split; [repeat split; congruence|].
        split; [exact C|].
        intros Ef R N P.
        assert (Pos : (0 < List.length (buffer Decoder y))%nat).
        { destruct (buffer Decoder y); [congruence|simpl; lia]. }
        destruct (D Ef) as [D1 D2].
        -- lia.
        -- intros Z0. apply (f_equal (@List.length Z)) in Z0.
           rewrite L2 in Z0. simpl in Z0. lia.
        -- apply wrap64_range.
        -- split; [rewrite length_app, length_map; lia|].
           rewrite D2, wrap64_idem_l. f_equal. lia.
Qed.

Lemma readLoop_spec (fuel : nat) :
  forall (y : @YMPlayer F Decoder) (done : list Z) (remaining : nat)
         (more : list Z) (y' : @YMPlayer F Decoder) (eof : bool),
  buffer Decoder y <> [] -> (remaining <= fuel)%nat ->
  decode Decoder Compute fuel y remaining = (more, y', eof) ->
  readLoop Decoder Compute fuel y (List.length done + remaining)
           (List.length done) (pairs done ++ repeat 0 (2 * remaining))
  = Done (y',
          (pairs (done ++ more)
           ++ repeat 0 (2 * (remaining - List.length more)))%list,
          eof).
Proof.
  induction fuel as [|fuel IH]; intros y done remaining more y' eof N R E.
  - assert (remaining = 0)%nat as -> by lia.
    rewrite decode_zero in E. injection E as <- <- <-.
    rewrite readLoop_done by lia. now rewrite (app_nil_r done).
  - destruct remaining as [|r].
    + rewrite decode_zero in E. injection E as <- <- <-.
      rewrite readLoop_done by lia. now rewrite (app_nil_r done).
    + rewrite decode_step in E. rewrite readLoop_step. cbv zeta in E |- *.
      replace (List.length done <? List.length done + S r)%nat with true
        by (symmetry; apply Nat.ltb_lt; lia).
      replace (List.length done + S r - List.length done)%nat with (S r) by lia.
      rewrite chunk_min.
      set (chunkSize := Nat.min (S r) (List.length (buffer Decoder y))) in *.
      destruct (Compute (player Decoder y)
                  (firstn chunkSize (buffer Decoder y)) (Z.of_nat chunkSize))
        as [[d filled] ok] eqn:EC.
      destruct (filled_length _ _ _ _ _ _ _
                  (Nat.le_min_r (S r) (List.length (buffer Decoder y))) EC)
        as [L1 [L2 L3]].
      fold chunkSize in L1, L2, L3.
      cbn [buffer loop volume position player] in E |- *.
      assert (Pos : (0 < List.length (buffer Decoder y))%nat).
      { destruct (buffer Decoder y); [congruence|simpl; lia]. }
      destruct (negb ok && negb (loop Decoder y)) eqn:G.
      * injection E as <- <- <-.
        rewrite <- length_pairs, zeroFrom_app, repeat_length.
        rewrite app_nil_r. cbn [List.length]. now rewrite Nat.sub_0_r.
      * destruct (decode Decoder Compute fuel _ (S r - chunkSize))
          as [[more' y''] eof'] eqn:ED.
        injection E as <- <- <-.
        rewrite L3.
        replace (repeat 0 (2 * S r))
          with (repeat 0 (2 * (List.length filled + (S r - chunkSize))))
          by (do 2 f_equal; lia).
        rewrite writeSamples_spec.
        set (y1 := mkYMPlayer Decoder d (filled ++ skipn chunkSize (buffer Decoder y))%list
                     (position Decoder y) (loop Decoder y) (volume Decoder y)) in *.
        replace (List.length done + S r)%nat
          with (List.length (done ++ map (scaled Decoder y1) filled)
                + (S r - chunkSize))%nat
          by (rewrite length_app, length_map; lia).
        replace (List.length done + chunkSize)%nat
          with (List.length (done ++ map (scaled Decoder y1) filled))
          by (rewrite length_app, length_map; lia).
        assert (N' : (filled ++ skipn chunkSize (buffer Decoder y))%list <> []).
        { intros Z0. apply (f_equal (@List.length Z)) in Z0.
          rewrite L2 in Z0. simpl in Z0. lia. }
        assert (R' : (S r - chunkSize <= fuel)%nat) by lia.
        pose proof (fun n r =>
                      IH _ (done ++ map (scaled Decoder y1) filled)%list
                         _ _ _ _ n r ED) as IH'.
        rewrite (IH' N' R').
        rewrite <- app_assoc, length_app, length_map.
        replace (S r - (List.length filled + List.length more'))%nat
          with (S r - chunkSize - List.length more')%nat by lia.
        reflexivity.
Qed.

Lemma Read_spec (y : @YMPlayer F Decoder) (p : list Z)
    (samples : list Z) (y' : @YMPlayer F Decoder) (eof : bool) :
  buffer Decoder y <> [] ->
  decode Decoder Compute (List.length p / 4) y (List.length p / 4)
  = (samples, y', eof) ->
  Read Decoder Compute y p
  = Done (y',
          (flat_map frame samples
           ++ repeat 0 (4 * (List.length p / 4 - List.length samples))
           ++ skipn (4 * (List.length p / 4)) p)%list,
          Z.of_nat (4 * (List.length p / 4)), eof).
Proof.
  intros N E. unfold Read. cbv zeta.
  set (needed := (List.length p / 4)%nat) in *.
  pose proof (readLoop_spec needed y [] needed samples y' eof N (le_n _) E) as R.
  cbn [List.length pairs flat_map app Nat.add] in R.
  rewrite (Nat.mul_comm needed 2), R.
  destruct (decode_facts _ _ _ _ _ _ E) as [L _].
  pose proof (Nat.Div0.mul_div_le (List.length p) 4) as P. fold needed in P.
  rewrite flat_map_app, bytes_pairs, bytes_zeros.
  set (buf := (flat_map frame samples
               ++ repeat 0 (4 * (needed - List.length samples)))%list).
  assert (B : List.length buf = (4 * needed)%nat).
  { unfold buf. rewrite length_app, length_frames, repeat_length. lia. }
  unfold copy. rewrite B.
  replace (List.length p <? 4 * needed)%nat with false
    by (symmetry; apply Nat.ltb_ge; lia).
  rewrite firstn_all2 by lia.
  unfold buf. now rewrite <- app_assoc.
Qed.

End Player.

(** X25. With a decoder that fills the slice it is given and a
    non-empty sample buffer, [Read] returns without a panic and without
    looping for ever: [n] is [len(p)] rounded down to a multiple of 4,
    [p] keeps its length and its bytes from [n] on, and the player its
    buffer length, loop mode and volume. *)
Theorem Read_returns {F : Type} {FO : Float64 F} (Decoder : Type)
    (Compute : Decoder -> list Z -> Z -> Decoder * list Z * bool)
    (y : @YMPlayer F Decoder) (p : list Z) :
  fillsSlice Decoder Compute -> buffer Decoder y <> [] ->
  exists y' p' eof,
    Read Decoder Compute y p
    = Done (y', p', Z.of_nat (4 * (List.length p / 4)), eof) /\
    List.length p' = List.length p /\
    skipn (4 * (List.length p / 4)) p' = skipn (4 * (List.length p / 4)) p /\
    keeps Decoder y' y.
Proof.
  intros fills N.
  destruct (decode Decoder Compute (List.length p / 4) y (List.length p / 4))
    as [[samples y'] eof] eqn:E.
  destruct (decode_facts Decoder Compute fills _ _ _ _ _ _ E) as [L [K _]].
  pose proof (Nat.Div0.mul_div_le (List.length p) 4) as P.
  set (needed := (List.length p / 4)%nat) in *.
  assert (B : List.length
                (flat_map frame samples
                 ++ repeat 0 (4 * (needed - List.length samples)))%list
              = (4 * needed)%nat).
  { rewrite length_app, length_frames, repeat_length. lia. }
  eexists y', _, eof. split; [apply (Read_spec Decoder Compute fills y p _ _ _ N E)|].
  fold needed. rewrite app_assoc.
  split; [|split; [|exact K]].
  - rewrite length_app, B, length_skipn. lia.
  - rewrite skipn_app, B, Nat.sub_diag, skipn_O.
    rewrite skipn_all2 by lia. reflexivity.
Qed.

(** X26. What [Read] delivers: the first [n] bytes of [p] are one
    stereo frame - the sample twice, low byte first - for each sample the
    decoder handed over, scaled by the volume, then zeros up to [n];
    [err] is [io.EOF] only when the player does not loop. *)
Theorem Read_frames {F : Type} {FO : Float64 F} (Decoder : Type)
    (Compute : Decoder -> list Z -> Z -> Decoder * list Z * bool)
    (y : @YMPlayer F Decoder) (p : list Z)
    (samples : list Z) (y' : @YMPlayer F Decoder) (eof : bool) :
  fillsSlice Decoder Compute -> buffer Decoder y <> [] ->
  decode Decoder Compute (List.length p / 4) y (List.length p / 4)
  = (samples, y', eof) ->
  Read Decoder Compute y p
  = Done (y',
          (flat_map frame samples
           ++ repeat 0 (4 * (List.length p / 4 - List.length samples))
           ++ skipn (4 * (List.length p / 4)) p)%list,
          Z.of_nat (4 * (List.length p / 4)), eof) /\
  (List.length samples <= List.length p / 4)%nat /\
  (eof = true -> loop Decoder y = false).
Proof.
  intros fills N E.
  destruct (decode_facts Decoder Compute fills _ _ _ _ _ _ E) as [L [_ [C _]]].
  split; [apply (Read_spec Decoder Compute fills y p _ _ _ N E)|].
  split; assumption.
Qed.

(** X27. A looping player never reports the end of the tune, whatever
    the decoder answers: [Read] fills all [n] bytes with frames and
    moves [position] on by [len(p) / 4] samples. *)
Theorem Read_looping {F : Type} {FO : Float64 F} (Decoder : Type)
    (Compute : Decoder -> list Z -> Z -> Decoder * list Z * bool)
    (y : @YMPlayer F Decoder) (p : list Z) :
  fillsSlice Decoder Compute -> buffer Decoder y <> [] ->
  in_int64 (position Decoder y) -> loop Decoder y = true ->
  exists y' samples,
    Read Decoder Compute y p
    = Done (y',
            (flat_map frame samples ++ skipn (4 * (List.length p / 4)) p)%list,
            Z.of_nat (4 * (List.length p / 4)), false) /\
    List.length samples = (List.length p / 4)%nat /\
    position Decoder y'
    = wrap64 (position Decoder y + Z.of_nat (List.length p / 4)).
Proof.
  intros fills N P Lp.
  destruct (decode Decoder Compute (List.length p / 4) y (List.length p / 4))
    as [[samples y'] eof] eqn:E.
  destruct (decode_facts Decoder Compute fills _ _ _ _ _ _ E) as [_ [_ [C D]]].
  assert (Ef : eof = false).
  { destruct eof; [|reflexivity]. rewrite (C eq_refl) in Lp. discriminate. }
  subst eof. destruct (D eq_refl (le_n _) N P) as [D1 D2].
  exists y', samples. split; [|split; assumption].
  rewrite (Read_spec Decoder Compute fills y p _ _ _ N E).
  rewrite D1, Nat.sub_diag. reflexivity.
Qed.

(** X28. When the player does not loop and the decoder fails at once,
    [Read] reports [io.EOF], hands out [n] zero bytes and leaves
    [position] where it was. *)
Theorem Read_end_of_tune {F : Type} {FO : Float64 F} (Decoder : Type)
    (Compute : Decoder -> list Z -> Z -> Decoder * list Z * bool)
    (y : @YMPlayer F Decoder) (p : list Z) :
  fillsSlice Decoder Compute -> buffer Decoder y <> [] ->
  loop Decoder y = false -> (4 <= List.length p)%nat ->
  (let chunkSize := Nat.min (List.length p / 4) (List.length (buffer Decoder y)) in
   snd (Compute (player Decoder y) (firstn chunkSize (buffer Decoder y))
                (Z.of_nat chunkSize)) = false) ->
  exists y',
    Read Decoder Compute y p
    = Done (y',
            (repeat 0 (4 * (List.length p / 4))
             ++ skipn (4 * (List.length p / 4)) p)%list,
            Z.of_nat (4 * (List.length p / 4)), true) /\
    position Decoder y' = position Decoder y.
Proof.
  intros fills N Lp P4 Fail. cbv zeta in Fail.
  assert (Q : (1 <= List.length p / 4)%nat).
  { apply (Nat.div_le_lower_bound (List.length p) 4 1); lia. }
  destruct (List.length p / 4)%nat as [|r] eqn:Er; [lia|].
  pose proof (decode_step Decoder Compute r y r) as St. cbv zeta in St.
  destruct (Compute (player Decoder y)
              (firstn (Nat.min (S r) (List.length (buffer Decoder y)))
                      (buffer Decoder y))
              (Z.of_nat (Nat.min (S r) (List.length (buffer Decoder y)))))
    as [[d filled] ok] eqn:EC.
  cbn [snd] in Fail. subst ok.
  rewrite ?EC in St. cbn [loop negb andb] in St. rewrite Lp in St.
  cbn [negb] in St.
  eexists. split.
  - pose proof (Read_spec Decoder Compute fills y p) as R.
    rewrite Er in R. rewrite (R _ _ _ N St).
    cbn [flat_map app List.length]. rewrite Nat.sub_0_r. reflexivity.
  - reflexivity.
Qed.

Lemma countUp_In (n : nat) (from s : Z) :
  from <= s < from + Z.of_nat n -> In s (countUp n from).
Proof.
  revert from. induction n as [|n IH]; intros from H; [lia|].
  cbn [countUp In].
  destruct (Z.eq_dec from s) as [E|E]; [now left|right].
  apply IH. lia.
Qed.

Lemma halves_checked :
  forallb
    (fun s =>
       wrap16 (trunc_int (PrimFloat.mul (IEEE.float_of_int s)
                            (PrimFloat.div (IEEE.float_of_int 1)
                                           (IEEE.float_of_int 2))))
       =? Z.quot s 2)
    allInt16 = true.
Proof. vm_compute. reflexivity. Qed.

(** X29. On binary64, with the volume 0.5 of [NewYMPlayer], the sample
    [Read] writes for a decoded sample [s] is [s / 2] rounded towards
    zero, for every [int16] value [s]. *)
Theorem Read_halves_samples (Decoder : Type) (decoder : Decoder)
    (looping : bool) (s : Z) :
  - 32768 <= s <= 32767 ->
  scaled Decoder (@NewYMPlayer float _ Decoder decoder looping) s = Z.quot s 2.
Proof.
  intros H.
  pose proof (proj1 (forallb_forall _ _) halves_checked s) as C.
  apply Z.eqb_eq. apply C.
  unfold allInt16. apply countUp_In. lia.
Qed.

Lemma toneDecoder_fills : fillsSlice nat toneDecoder.
Proof. intros d b n. cbn [toneDecoder fst snd]. apply length_map. Qed.

Lemma silentDecoder_fills : fillsSlice nat silentDecoder.
Proof. intros d b n. reflexivity. Qed.

Lemma NewYMPlayer_buffer {F : Type} {FO : Float64 F} (Decoder : Type)
    (decoder : Decoder) (looping : bool) :
  buffer Decoder (NewYMPlayer Decoder decoder looping) <> [].
Proof.
  intros H. apply (f_equal (@List.length Z)) in H.
  cbn [NewYMPlayer buffer] in H. rewrite repeat_length in H. discriminate.
Qed.

Lemma Read_returns_witness :
  exists y' p' eof,
    Read nat toneDecoder (@NewYMPlayer float _ nat 0%nat true) (repeat 7 10)
    = Done (y', p', 8, eof).
Proof.
  destruct (Read_returns nat toneDecoder (@NewYMPlayer float _ nat 0%nat true)
              (repeat 7 10) toneDecoder_fills
              (NewYMPlayer_buffer nat 0%nat true))
    as [y' [p' [eof [R _]]]].
  exists y', p', eof. exact R.
Defined.

Lemma Read_frames_witness :
  exists y',
    Read nat toneDecoder (@NewYMPlayer float _ nat 0%nat false) (repeat 7 10)
    = Done (y', [244; 1; 244; 1; 244; 1; 244; 1; 7; 7], 8, false).
Proof.
  assert (E : decode nat toneDecoder 2 (@NewYMPlayer float _ nat 0%nat false) 2
              = ([500; 500],
                 snd (fst (decode nat toneDecoder 2
                             (@NewYMPlayer float _ nat 0%nat false) 2)),
                 false))
    by (vm_compute; reflexivity).
  destruct (Read_frames nat toneDecoder (@NewYMPlayer float _ nat 0%nat false)
              (repeat 7 10) _ _ _ toneDecoder_fills
              (NewYMPlayer_buffer nat 0%nat false) E)
    as [R _].
  eexists. exact R.
Defined.

Lemma Read_looping_witness :
  exists y' samples,
    Read nat silentDecoder (@NewYMPlayer float _ nat 0%nat true) (repeat 7 10)
    = Done (y', (flat_map frame samples ++ [7; 7])%list, 8, false)
    /\ position nat y' = 2.
Proof.
  assert (P : in_int64 (position nat (@NewYMPlayer float _ nat 0%nat true)))
    by (unfold in_int64, min_int64, max_int64; cbn [NewYMPlayer position]; lia).
  destruct (Read_looping nat silentDecoder (@NewYMPlayer float _ nat 0%nat true)
              (repeat 7 10) silentDecoder_fills
              (NewYMPlayer_buffer nat 0%nat true) P eq_refl)
    as [y' [samples [R [_ Q]]]].
  exists y', samples. split; [exact R|exact Q].
Defined.

Lemma Read_end_of_tune_witness :
  exists y',
    Read nat silentDecoder (@NewYMPlayer float _ nat 0%nat false) (repeat 7 10)
    = Done (y', [0; 0; 0; 0; 0; 0; 0; 0; 7; 7], 8, true).
Proof.
  assert (L : (4 <= List.length (repeat 7 10))%nat)
    by (rewrite repeat_length; lia).
  destruct (Read_end_of_tune nat silentDecoder
              (@NewYMPlayer float _ nat 0%nat false) (repeat 7 10)
              silentDecoder_fills (NewYMPlayer_buffer nat 0%nat false)
              eq_refl L eq_refl)
    as [y' [R _]].
  exists y'. exact R.
Defined.

Lemma Read_halves_samples_witness :
  scaled nat (@NewYMPlayer float _ nat 0%nat true) (-3) = -1.
Proof. apply (Read_halves_samples nat 0%nat true (-3)). lia. Defined.
